(** * Kryoniq deepfake-detection game: playback controller and asset resolver

    A shallow embedding of the parts of the repository that the
    dual-channel audio playback specification talks about:

    - [Resolver]: the Express handler [GET /api/audio-files/:celebrity]
      of the backend (the Asset Resolver);
    - [Preloader]: the React hook [useNextRoundPreloader] of [Game.tsx];
    - [Game]: the [Game] component of [Game.tsx] with its hook
      [useAudioFallback], as an event-driven state machine: component
      state and refs are fields of a record, every handler, promise
      continuation and timer callback is one event.

    Definitions first, theorems afterwards. *)

From stdpp Require Import base option list strings.
From Stdlib Require Import Ascii NArith Lia.

Open Scope string_scope.
Open Scope list_scope.

(** ** Small JavaScript library functions used by the sources *)

Module Js.

(** [s.includes(needle)] *)
Definition includes (needle s : string) : bool :=
  match String.index 0 needle s with
  | Some _ => true
  | None => false
  end.

Definition is_empty (s : string) : bool :=
  match s with
  | EmptyString => true
  | String _ _ => false
  end.

(** [c.toLowerCase()] on one ASCII character: only [A]..[Z] move. *)
Definition lower_ascii (c : ascii) : ascii :=
  let n := nat_of_ascii c in
  if (65 <=? n)%nat && (n <=? 90)%nat then ascii_of_nat (n + 32) else c.

Fixpoint toLowerCase (s : string) : string :=
  match s with
  | EmptyString => EmptyString
  | String c s' => String (lower_ascii c) (toLowerCase s')
  end.

(** [s.endsWith(suffix)] *)
Definition endsWith (s suffix : string) : bool :=
  let n := String.length s in
  let k := String.length suffix in
  (k <=? n)%nat && String.eqb (String.substring (n - k) k s) suffix.

(** Node's [path.basename] (POSIX flavour): the last non-empty
    segment between slashes, the empty string when there is none.
    [cur] is the segment being read, [last] the last complete
    non-empty segment seen so far. *)
Fixpoint last_segment (s cur last : string) : string :=
  match s with
  | EmptyString => if is_empty cur then last else cur
  | String c s' =>
      if Ascii.eqb c "/"%char
      then last_segment s' EmptyString (if is_empty cur then last else cur)
      else last_segment s' (cur +:+ String c EmptyString) last
  end.

Definition basename (p : string) : string :=
  last_segment p EmptyString EmptyString.

(** [Math.floor(Math.random() * n)].  [Math.random()] is a double in
    [0, 1) with 53 significant bits; the draw is given by its
    numerator [u] over [2^53] (reduced into range).  The product is a
    double as well: the exact product, rounded to 53 significant bits
    with ties to even. *)
Definition two53 : N := 2 ^ 53.

(** The nearest number to [p] with at most 53 significant bits. *)
Definition round53 (p : N) : N :=
  if (p <? two53)%N then p
  else
    let s := (N.log2 p - 52)%N in
    let q := (p / 2 ^ s)%N in
    let r := (p mod 2 ^ s)%N in
    let half := (2 ^ (s - 1))%N in
    let q' := if (half <? r)%N || ((r =? half)%N && N.odd q) then (q + 1)%N else q in
    (q' * 2 ^ s)%N.

Definition floor_random (u : N) (n : nat) : nat :=
  N.to_nat (round53 ((u mod two53) * N.of_nat n) / two53).

(** *** Addresses as the browser reports them

    Reading [el.src] gives the value of the [src] attribute parsed
    against the page's address and written out again, and
    [new URL(...).pathname] the path of that.  What follows is the
    parser of the URL Standard for an [http(s)] page, from the
    attribute's value to the path, query and fragment: the value is
    trimmed, its path is cut into segments at [/] and [\], dot
    segments are resolved, and the characters of each part's
    percent-encode set are written as [%XX].  A value with a scheme
    or an authority of its own ([http://...], [//host/...]) would
    need its host parsed and is not covered: [parse_address] gives
    [None] for it. *)

Definition code (c : ascii) : nat := nat_of_ascii c.

(** C0 control or space *)
Definition is_c0_or_space (c : ascii) : bool := (code c <=? 32)%nat.

(** ASCII tab or newline *)
Definition is_tab_or_newline (c : ascii) : bool :=
  (code c =? 9)%nat || (code c =? 10)%nat || (code c =? 13)%nat.

Fixpoint strip_leading (s : string) : string :=
  match s with
  | EmptyString => EmptyString
  | String c s' => if is_c0_or_space c then strip_leading s' else s
  end.

Fixpoint strip_trailing (s : string) : string :=
  match s with
  | EmptyString => EmptyString
  | String c s' =>
      let r := strip_trailing s' in
      if is_empty r && is_c0_or_space c then EmptyString else String c r
  end.

Fixpoint remove_tab_newline (s : string) : string :=
  match s with
  | EmptyString => EmptyString
  | String c s' =>
      if is_tab_or_newline c then remove_tab_newline s'
      else String c (remove_tab_newline s')
  end.

Definition hex_digit (n : nat) : ascii :=
  default "0"%char (String.get n "0123456789ABCDEF").

(** [%XX] for one byte *)
Definition percent_byte (c : ascii) : string :=
  String "%"%char (String (hex_digit (code c / 16))
                (String (hex_digit (code c mod 16)) EmptyString)).

(** The percent-encode sets of the URL Standard, on bytes: the C0
    controls and everything above [~]; for a fragment also space, the
    double quote, [<], [>] and the backquote; for a query space, the
    double quote, [#], [<], [>], and in an [http(s)] address the
    apostrophe; for a path the query set and [?], [^], the backquote,
    [{], [}]. *)
Definition c0_control_set (c : ascii) : bool :=
  (code c <=? 31)%nat || (127 <=? code c)%nat.

Definition fragment_set (c : ascii) : bool :=
  c0_control_set c || existsb (Nat.eqb (code c)) [32; 34; 60; 62; 96].

Definition query_set (c : ascii) : bool :=
  c0_control_set c || existsb (Nat.eqb (code c)) [32; 34; 35; 60; 62].

Definition special_query_set (c : ascii) : bool :=
  query_set c || (code c =? 39)%nat.

Definition path_set (c : ascii) : bool :=
  query_set c || existsb (Nat.eqb (code c)) [63; 94; 96; 123; 125].

Definition percent_encode_char (in_set : ascii -> bool) (c : ascii) : string :=
  if in_set c then percent_byte c else String c EmptyString.

Fixpoint percent_encode (in_set : ascii -> bool) (s : string) : string :=
  match s with
  | EmptyString => EmptyString
  | String c s' => percent_encode_char in_set c +:+ percent_encode in_set s'
  end.

(** [/], and in an [http(s)] address [\] as well *)
Definition is_slash (c : ascii) : bool :=
  (code c =? 47)%nat || (code c =? 92)%nat.

Definition single_dot (buffer : string) : bool :=
  let b := toLowerCase buffer in
  String.eqb b "." || String.eqb b "%2e".

Definition double_dot (buffer : string) : bool :=
  let b := toLowerCase buffer in
  String.eqb b ".." || String.eqb b ".%2e" || String.eqb b "%2e."
  || String.eqb b "%2e%2e".

(** "Shorten a path": the last segment goes, if there is one. *)
Definition shorten (path : list string) : list string := removelast path.

(** The end of a path segment, at a slash ([at_slash]) or at the end
    of the path. *)
Definition end_segment (at_slash : bool) (buffer : string) (path : list string)
    : list string :=
  if double_dot buffer then
    if at_slash then shorten path else shorten path ++ [EmptyString]
  else if single_dot buffer then
    if at_slash then path else path ++ [EmptyString]
  else path ++ [buffer].

(** The path state: the segments, and what is left from the first [?]
    or [#] on. *)
Fixpoint path_state (s buffer : string) (path : list string)
    : list string * string :=
  match s with
  | EmptyString => (end_segment false buffer path, EmptyString)
  | String c s' =>
      if is_slash c then path_state s' EmptyString (end_segment true buffer path)
      else if (code c =? 63)%nat || (code c =? 35)%nat
      then (end_segment false buffer path, s)
      else path_state s' (buffer +:+ percent_encode_char path_set c) path
  end.

(** A parsed address without its origin; [None] is a null query or
    fragment. *)
Record Address : Type := mkAddress {
  a_path : list string;
  a_query : option string;
  a_fragment : option string;
}.

(** [s] up to its first [#], and what follows that, if there is one. *)
Fixpoint split_at_hash (s : string) : string * option string :=
  match s with
  | EmptyString => (EmptyString, None)
  | String c s' =>
      if (code c =? 35)%nat then (EmptyString, Some s')
      else let '(q, f) := split_at_hash s' in (String c q, f)
  end.

(** The query and fragment states, entered at [rest]: empty, or what
    starts with the [?] or [#] that ended the path. *)
Definition after_path (path : list string) (base_query : option string)
    (rest : string) : Address :=
  match rest with
  | EmptyString =>
      {| a_path := path; a_query := base_query; a_fragment := None |}
  | String c rest' =>
      if (code c =? 63)%nat then
        let '(q, f) := split_at_hash rest' in
        {| a_path := path;
           a_query := Some (percent_encode special_query_set q);
           a_fragment := percent_encode fragment_set <$> f |}
      else
        {| a_path := path; a_query := base_query;
           a_fragment := Some (percent_encode fragment_set rest') |}
  end.

(** The scheme state finds a scheme: a letter, then letters, digits,
    [+], [-] or [.], then a colon. *)
Definition is_alpha (c : ascii) : bool :=
  ((65 <=? code c)%nat && (code c <=? 90)%nat)
  || ((97 <=? code c)%nat && (code c <=? 122)%nat).

Definition is_scheme_char (c : ascii) : bool :=
  is_alpha c || ((48 <=? code c)%nat && (code c <=? 57)%nat)
  || existsb (Nat.eqb (code c)) [43; 45; 46].

Fixpoint scheme_rest (s : string) : bool :=
  match s with
  | EmptyString => false
  | String c s' =>
      if (code c =? 58)%nat then true
      else if is_scheme_char c then scheme_rest s' else false
  end.

Definition has_scheme (s : string) : bool :=
  match s with
  | EmptyString => false
  | String c s' => is_alpha c && scheme_rest s'
  end.

(** The path of the page that shows the game: [navigate('/game')]. *)
Definition page_path : list string := ["game"].

(** The attribute's value parsed against the page's address: the
    relative state and the states after it. *)
Definition parse_address (v : string) : option Address :=
  let s := remove_tab_newline (strip_trailing (strip_leading v)) in
  if has_scheme s then None
  else
    match s with
    | EmptyString => Some (after_path page_path None EmptyString)
    | String c s' =>
        if is_slash c then
          match s' with
          | EmptyString =>
              let '(path, rest) := path_state s' EmptyString [] in
              Some (after_path path None rest)
          | String c' _ =>
              if is_slash c' then None
              else
                let '(path, rest) := path_state s' EmptyString [] in
                Some (after_path path None rest)
          end
        else if (code c =? 63)%nat || (code c =? 35)%nat
        then Some (after_path page_path None s)
        else
          let '(path, rest) := path_state s EmptyString (shorten page_path) in
          Some (after_path path None rest)
    end.

Fixpoint serialize_path (path : list string) : string :=
  match path with
  | [] => EmptyString
  | segment :: rest => "/" +:+ segment +:+ serialize_path rest
  end.

Definition pathname_of (a : Address) : string := serialize_path (a_path a).

(** What the serialised address has after its origin. *)
Definition tail_of (a : Address) : string :=
  pathname_of a
  +:+ match a_query a with Some q => "?" +:+ q | None => EmptyString end
  +:+ match a_fragment a with Some f => "#" +:+ f | None => EmptyString end.

(** [el.src] without its origin, and [new URL(el.src).pathname], for
    an element whose [src] attribute is [v]; a value that
    [parse_address] does not cover is kept as written. *)
Definition url_tail (v : string) : string :=
  match parse_address v with
  | Some a => tail_of a
  | None => v
  end.

Definition url_pathname (v : string) : string :=
  match parse_address v with
  | Some a => pathname_of a
  | None => v
  end.

End Js.

(** ** The Asset Resolver: [GET /api/audio-files/:celebrity] *)

Module Resolver.

(** What [fs] finds at [path.join(basePath, name)]: nothing, a
    regular file, or a directory with the names [readdirSync] lists. *)
Inductive FsEntry : Type :=
| File
| Dir (names : list string).

(** The two audio trees, [realBasePath] and [clonedBasePath]; each
    maps the joined name to what lies there. *)
Record FileSystem : Type := mkFs {
  realBase : string -> option FsEntry;
  clonedBase : string -> option FsEntry;
}.

Inductive Category : Type := Real | Cloned.

Definition category_name (c : Category) : string :=
  match c with
  | Real => "Real"
  | Cloned => "Cloned"
  end.

(** [req.query.category]: [None] stands for an absent or non-string
    value.  The handler accepts the two literal strings only. *)
Definition parse_category (q : option string) : option Category :=
  match q with
  | Some s =>
      if String.eqb s "Real" then Some Real
      else if String.eqb s "Cloned" then Some Cloned
      else None
  | None => None
  end.

Definition basePath (fs : FileSystem) (c : Category) : string -> option FsEntry :=
  match c with
  | Real => realBase fs
  | Cloned => clonedBase fs
  end.

Inductive Response : Type :=
| Json (filePath : string)
| Error (status : nat) (message : string).

Definition is_wav (f : string) : bool :=
  Js.endsWith (Js.toLowerCase f) ".wav".

(** Lines 208-213: drop the broken file unless nothing would remain. *)
Definition candidates (allFiles : list string) (exclude : option string) : list string :=
  match exclude with
  | Some e =>
      if Js.is_empty e then allFiles
      else
        let brokenFilename := Js.basename e in
        let filtered := List.filter (fun f => negb (String.eqb f brokenFilename)) allFiles in
        match filtered with
        | [] => allFiles
        | _ :: _ => filtered
        end
  | None => allFiles
  end.

Definition file_path (c : Category) (safeCelebrity picked : string) : string :=
  "/audio/" +:+ category_name c +:+ "/" +:+ safeCelebrity +:+ "/" +:+ picked.

(** The handler.  [u] is the draw of [Math.random()].  A regular
    file in place of the folder makes [readdirSync] throw, which the
    handler's [catch] turns into status 500. *)
Definition audio_files (fs : FileSystem) (u : N)
    (celebrity : string) (category exclude : option string) : Response :=
  if Js.is_empty celebrity then Error 400 "Missing celebrity param"
  else
    match parse_category category with
    | None => Error 400 "category must be 'Real' or 'Cloned'"
    | Some c =>
        let safeCelebrity := Js.basename celebrity in
        match basePath fs c safeCelebrity with
        | None =>
            Error 404 ("No " +:+ category_name c +:+ " folder for " +:+ safeCelebrity)
        | Some File => Error 500 "Failed to find replacement audio"
        | Some (Dir names) =>
            let allFiles := List.filter is_wav names in
            match allFiles with
            | [] =>
                Error 404 ("No wav files found for " +:+ safeCelebrity +:+ "/"
                           +:+ category_name c)
            | _ :: _ =>
                let cands := candidates allFiles exclude in
                let picked :=
                  nth (Js.floor_random u (length cands)) cands EmptyString in
                Json (file_path c safeCelebrity picked)
            end
        end
    end.

(** The [.wav] files of the celebrity's folder for a category;
    [None] when there is no such folder. *)
Definition wav_files (fs : FileSystem) (c : Category) (celebrity : string)
    : option (list string) :=
  match basePath fs c (Js.basename celebrity) with
  | Some (Dir names) => Some (List.filter is_wav names)
  | _ => None
  end.

Definition is_error (r : Response) : bool :=
  match r with
  | Json _ => false
  | Error _ _ => true
  end.

End Resolver.

(** ** Data shared by the hooks of [Game.tsx] *)

(** ['left' | 'right'] *)
Inductive Side : Type := Left | Right.

Global Instance Side_eq_dec : EqDecision Side.
Proof. solve_decision. Defined.

Definition other_side (s : Side) : Side :=
  match s with
  | Left => Right
  | Right => Left
  end.

(** [interface RoundSetup]; the nested [celebrity] object is flattened. *)
Record RoundSetup : Type := mkRoundSetup {
  celebrity_name : string;
  celebrity_photoUrl : option string;
  realAudio : string;
  fakeAudio : string;
  realPosition : Side;
}.

(** The clip a round puts on a side:
    [round.realPosition === side ? round.realAudio : round.fakeAudio]. *)
Definition sideAudio (r : RoundSetup) (s : Side) : string :=
  if decide (realPosition r = s) then realAudio r else fakeAudio r.

(** ** The Preloader: [useNextRoundPreloader] *)

Module Preloader.

(** A detached [Audio] object.  [forRound] is a ghost field: the
    index of the round whose clip the object was created for. *)
Record AudioObj : Type := mkAudioObj {
  preload : string;
  src : string;
  forRound : nat;
}.

(** The hook's memory.  [objects] is the store of every object made
    by [new Audio()], in allocation order; [preloadRefs] is the array
    [preloadRefs.current], holding references (store positions);
    [hasCleanup] tells whether the last run of the effect returned
    its cleanup function. *)
Record Hook : Type := mkHook {
  objects : list AudioObj;
  preloadRefs : list nat;
  hasCleanup : bool;
}.

Definition initial : Hook :=
  {| objects := []; preloadRefs := []; hasCleanup := false |}.

(** [el.src = ''; el.load()] *)
Definition discard (o : AudioObj) : AudioObj :=
  {| preload := preload o; src := EmptyString; forRound := forRound o |}.

(** [preloadRefs.current.forEach(...)]: the objects are mutated
    through their references. *)
Definition discard_all (refs : list nat) (objs : list AudioObj) : list AudioObj :=
  foldl (fun acc i => alter discard i acc) objs refs.

(** The tear-down block, which the effect body and the cleanup share:
    discard every referenced object, then [preloadRefs.current = []]. *)
Definition teardown (h : Hook) : Hook :=
  {| objects := discard_all (preloadRefs h) (objects h);
     preloadRefs := [];
     hasCleanup := hasCleanup h |}.

(** One turn of [[nextLeft, nextRight].forEach]: a new object with
    [preload = 'auto'] and the given [src], pushed on the array. *)
Definition create (round : nat) (s : string) (h : Hook) : Hook :=
  {| objects := objects h ++ [mkAudioObj "auto" s round];
     preloadRefs := preloadRefs h ++ [length (objects h)];
     hasCleanup := hasCleanup h |}.

Definition set_hasCleanup (b : bool) (h : Hook) : Hook :=
  {| objects := objects h; preloadRefs := preloadRefs h; hasCleanup := b |}.

(** The effect body, up to and including the first of the two
    creations; [effect] below finishes it. *)
Definition effect_first (rounds : list RoundSetup) (currentRound : nat)
    (h : Hook) : Hook :=
  let h1 := teardown h in
  let nextIndex := currentRound + 1 in
  if (length rounds <=? nextIndex)%nat then h1
  else
    match rounds !! nextIndex with
    | None => h1
    | Some next => create nextIndex (sideAudio next Left) h1
    end.

(** The whole effect body (lines 308-339). *)
Definition effect (rounds : list RoundSetup) (currentRound : nat)
    (h : Hook) : Hook :=
  let h1 := teardown h in
  let nextIndex := currentRound + 1 in
  if (length rounds <=? nextIndex)%nat then set_hasCleanup false h1
  else
    match rounds !! nextIndex with
    | None => set_hasCleanup false h1
    | Some next =>
        set_hasCleanup true
          (create nextIndex (sideAudio next Right)
             (create nextIndex (sideAudio next Left) h1))
    end.

(** The function the effect returns, when it returns one. *)
Definition cleanup (h : Hook) : Hook :=
  if hasCleanup h then set_hasCleanup false (teardown h) else h.

(** React re-runs the effect when [rounds] or [currentRound] changed:
    first the previous cleanup, then the body. *)
Definition rerun (rounds : list RoundSetup) (currentRound : nat) (h : Hook) : Hook :=
  effect rounds currentRound (cleanup h).

(** States of the hook during the life of the component. *)
Inductive reachable : Hook -> Prop :=
| reach_initial : reachable initial
| reach_rerun h rounds currentRound :
    reachable h -> reachable (rerun rounds currentRound h)
| reach_unmount h :
    reachable h -> reachable (cleanup h).

(** A buffer is live while it holds a source. *)
Definition live (h : Hook) (i : nat) : Prop :=
  exists o, objects h !! i = Some o /\ src o <> EmptyString.

(** The live buffers of [h] all belong to round [n]. *)
Definition live_only_for (n : nat) (h : Hook) : Prop :=
  forall i o, objects h !! i = Some o -> src o <> EmptyString -> forRound o = n.

Definition no_live (h : Hook) : Prop := forall i, ~ live h i.

(** No leak: every live buffer is still referenced by the array. *)
Definition all_referenced (h : Hook) : Prop :=
  forall i, live h i -> i ∈ preloadRefs h.

(** The buffers the array holds all belong to round [n]. *)
Definition refs_only_for (n : nat) (h : Hook) : Prop :=
  forall i, i ∈ preloadRefs h ->
    exists o, objects h !! i = Some o /\ forRound o = n.

End Preloader.

(** ** The [Game] component with [useAudioFallback] *)

Module Game.

Import Resolver (Category, Real, Cloned).

Definition TOTAL_ROUNDS : nat := 10.
Definition MAX_AUDIO_RETRIES : nat := 3.

(** *** Rounds as the backend sends them *)

(** ['A' | 'B'] *)
Inductive Position : Type := A | B.

Global Instance Position_eq_dec : EqDecision Position.
Proof. solve_decision. Defined.

(** [interface BackendRound] *)
Record BackendRound : Type := mkBackendRound {
  roundNumber : nat;
  b_celebrity : string;
  audioA : string;
  audioB : string;
  b_realPosition : Position;
}.

(** The names that the object literal [CELEBRITY_IMAGE_MAP] inherits
    from [Object.prototype]: looking one of them up gives the inherited
    member, not [undefined]. *)
Definition prototype_member (name : string) : bool :=
  bool_decide
    (name ∈ ["constructor"; "hasOwnProperty"; "isPrototypeOf";
             "propertyIsEnumerable"; "toLocaleString"; "toString"; "valueOf";
             "__proto__"; "__defineGetter__"; "__defineSetter__";
             "__lookupGetter__"; "__lookupSetter__"]).

(** [CELEBRITY_IMAGE_MAP] maps every key of its own to itself and
    [getImageFilename] falls back to its argument, unless the lookup
    finds an inherited member: [None] stands for the text that the
    template literal makes of that function or object. *)
Definition getImageFilename (audioFolderName : string) : option string :=
  if prototype_member audioFolderName then None else Some audioFolderName.

(** The callback of [data.rounds.map] in [loadGame]. *)
Definition mapRound (r : BackendRound) : RoundSetup :=
  {| celebrity_name := b_celebrity r;
     celebrity_photoUrl :=
       (fun imageFilename => "/images/" +:+ imageFilename +:+ ".jpg")
         <$> getImageFilename (b_celebrity r);
     realAudio := if decide (b_realPosition r = A) then audioA r else audioB r;
     fakeAudio := if decide (b_realPosition r = A) then audioB r else audioA r;
     realPosition := if decide (b_realPosition r = A) then Left else Right |}.

(** [interface RoundData] ([types/game.ts]); times are milliseconds or
    seconds as integers. *)
Record RoundData : Type := mkRoundData {
  roundNum : nat;
  celebrity : string;
  rd_realAudio : string;
  rd_fakeAudio : string;
  rd_realPosition : Side;
  userChoice : Side;
  correct : bool;
  replayCountLeft : nat;
  replayCountRight : nat;
  timeSpent : Z;
}.

(** *** The playback surface: one [<audio>] element

    The fields the component reads or drives.  [src] is the value of
    the [src] attribute as it was written.  [pendingPlay] is the
    element's list of pending play promises, by the request ids of the
    [play()] calls of [togglePlay] and [replay] that made them;
    [loads] counts the calls of [load()].  The element functions
    follow the HTML media element: [pause()] on a playing element and
    the load algorithm reject the promises of the list (the
    [AbortError] that the [catch] handlers of [togglePlay] and
    [replay] expect and drop).  Promises that the element has already
    taken from the list, for a task that will resolve them, are out of
    their reach: see [resolving] below.  The playback position
    ([currentTime]) is not part of the model. *)
Record Audio : Type := mkAudio {
  src : string;
  paused : bool;
  pendingPlay : list nat;
  loads : nat;
}.

(** [new <audio src=... preload="auto">] *)
Definition el_new (s : string) : Audio :=
  {| src := s; paused := true; pendingPlay := []; loads := 0 |}.

(** [el.pause()] *)
Definition el_pause (a : Audio) : Audio :=
  if paused a then a
  else {| src := src a; paused := true; pendingPlay := []; loads := loads a |}.

(** [el.play()] whose promise carries the continuation of request [id] *)
Definition el_play_request (id : nat) (a : Audio) : Audio :=
  {| src := src a; paused := false; pendingPlay := pendingPlay a ++ [id];
     loads := loads a |}.

(** [el.play()] awaited by the fallback (its continuation is kept in
    the attempt, not in [pendingPlay]) *)
Definition el_play (a : Audio) : Audio :=
  {| src := src a; paused := false; pendingPlay := pendingPlay a; loads := loads a |}.

(** [el.src = s] *)
Definition el_set_src (s : string) (a : Audio) : Audio :=
  {| src := s; paused := true; pendingPlay := []; loads := loads a |}.

(** [el.load()] *)
Definition el_load (a : Audio) : Audio :=
  {| src := src a; paused := true; pendingPlay := []; loads := S (loads a) |}.

(** The element's list of pending play promises is emptied. *)
Definition el_settle (a : Audio) : Audio :=
  {| src := src a; paused := paused a; pendingPlay := []; loads := loads a |}.

(** Playback reached the end of the clip. *)
Definition el_ended (a : Audio) : Audio :=
  {| src := src a; paused := true; pendingPlay := []; loads := loads a |}.

(** *** Component state *)

(** What the component keeps per side.  The source has one variable
    per side for each: [playingLeft]/[playingRight],
    [audioLeftBuffering]/[audioRightBuffering],
    [replayLeft]/[replayRight], the refs [retriesLeft]/[retriesRight],
    [fallbackActiveLeft]/[fallbackActiveRight] and
    [audioLeftRef]/[audioRightRef] ([None] is a [null] ref).
    [resolving] is the side's part of the event loop: the tasks that
    the side's element has queued to resolve play promises, oldest
    first, each with the request ids of the promises it took from the
    element's pending list.  A [pause()] or a load rejects what is
    still pending on the element; what a queued task holds is
    resolved: when the task runs or, if the element is loaded before,
    by the load algorithm, in the order of the queue.  Either way the
    [then] continuations run later, as a separate event. *)
Record Channel : Type := mkChannel {
  playing : bool;
  buffering : bool;
  replayCount : nat;
  retries : nat;
  fallbackActive : bool;
  audio : option Audio;
  resolving : list (list nat);
}.

Definition channel0 : Channel :=
  {| playing := false; buffering := false; replayCount := 0; retries := 0;
     fallbackActive := false; audio := None; resolving := [] |}.

Definition set_playing (b : bool) (c : Channel) : Channel :=
  {| playing := b; buffering := buffering c; replayCount := replayCount c;
     retries := retries c; fallbackActive := fallbackActive c; audio := audio c;
     resolving := resolving c |}.

Definition set_buffering (b : bool) (c : Channel) : Channel :=
  {| playing := playing c; buffering := b; replayCount := replayCount c;
     retries := retries c; fallbackActive := fallbackActive c; audio := audio c;
     resolving := resolving c |}.

Definition set_replayCount (n : nat) (c : Channel) : Channel :=
  {| playing := playing c; buffering := buffering c; replayCount := n;
     retries := retries c; fallbackActive := fallbackActive c; audio := audio c;
     resolving := resolving c |}.

Definition set_retries (n : nat) (c : Channel) : Channel :=
  {| playing := playing c; buffering := buffering c; replayCount := replayCount c;
     retries := n; fallbackActive := fallbackActive c; audio := audio c;
     resolving := resolving c |}.

Definition set_fallbackActive (b : bool) (c : Channel) : Channel :=
  {| playing := playing c; buffering := buffering c; replayCount := replayCount c;
     retries := retries c; fallbackActive := b; audio := audio c;
     resolving := resolving c |}.

Definition set_audio (a : option Audio) (c : Channel) : Channel :=
  {| playing := playing c; buffering := buffering c; replayCount := replayCount c;
     retries := retries c; fallbackActive := fallbackActive c; audio := a;
     resolving := resolving c |}.

Definition set_resolving (l : list (list nat)) (c : Channel) : Channel :=
  {| playing := playing c; buffering := buffering c; replayCount := replayCount c;
     retries := retries c; fallbackActive := fallbackActive c; audio := audio c;
     resolving := l |}.

(** [ref.current?.m()] *)
Definition on_audio (f : Audio -> Audio) (c : Channel) : Channel :=
  set_audio (f <$> audio c) c.

(** Where a run of [handleAudioError] is suspended. *)
Inductive Phase : Type :=
| Fetching        (* [await fetch(...)] *)
| AwaitCanPlay    (* the promise on [canplay]/[error] of the replacement *)
| AwaitPlay       (* [await el.play()] *)
| Done.

(** The request sent to the resolver:
    [/api/audio-files/<celebrity>?category=...&exclude=...]; the
    [exclude] parameter is set only for a non-empty path. *)
Record Request : Type := mkRequest {
  rq_celebrity : string;
  rq_category : Category;
  rq_exclude : option string;
}.

(** One run of [handleAudioError] past its guards: the side and
    [wasPlaying] it captured, the request it sent, and where it
    stands. *)
Record Attempt : Type := mkAttempt {
  at_side : Side;
  at_wasPlaying : bool;
  at_request : Request;
  at_phase : Phase;
}.

Definition set_phase (p : Phase) (t : Attempt) : Attempt :=
  {| at_side := at_side t; at_wasPlaying := at_wasPlaying t;
     at_request := at_request t; at_phase := p |}.

(** How the resolver request ended: the [fetch] (or the body parse)
    threw, the status was not ok, or a body arrived, with or without
    a [filePath]. *)
Inductive FetchResult : Type :=
| FetchThrows
| HttpStatus (status : nat)
| HttpOk (filePath : option string).

(** A [play()] or [pause()] intent on a channel, for the history
    [calls] below. *)
Inductive Call : Type :=
| CallPlay (id : nat)
| CallPause.

(** The component.  State variables and refs keep their names.
    [attempts], [resultTimers], [advanceTimers] hold the suspended
    continuations: runs of [handleAudioError], the 1200 ms timeouts of
    [handleSelect] (each with the [currentRound] and [updatedResults]
    its closure captured) and the number of pending 1500 ms timeouts.
    [submissions] records the bodies posted to [/api/submit-game].
    [calls] is a ghost history, newest first, of the play and pause
    intents issued per side by [togglePlay], [replay], [stopAll] and
    the round-change effect. *)
Record Game : Type := mkGame {
  rounds : list RoundSetup;
  loading : bool;
  currentRound : nat;
  selected : option Side;
  showResult : bool;
  isCorrect : bool;
  roundResults : list RoundData;
  roundStartTime : Z;
  transitioning : bool;
  chLeft : Channel;
  chRight : Channel;
  playRequestId : nat;
  attempts : list Attempt;
  resultTimers : list (nat * list RoundData);
  advanceTimers : nat;
  submissions : list (list RoundData);
  calls : list (Side * Call);
}.

Definition initial (now : Z) : Game :=
  {| rounds := []; loading := true; currentRound := 0; selected := None;
     showResult := false; isCorrect := false; roundResults := [];
     roundStartTime := now; transitioning := false;
     chLeft := channel0; chRight := channel0; playRequestId := 0;
     attempts := []; resultTimers := []; advanceTimers := 0;
     submissions := []; calls := [] |}.

Definition chan (g : Game) (s : Side) : Channel :=
  match s with
  | Left => chLeft g
  | Right => chRight g
  end.

Definition set_chLeft (c : Channel) (g : Game) : Game :=
  {| rounds := rounds g; loading := loading g; currentRound := currentRound g;
     selected := selected g; showResult := showResult g; isCorrect := isCorrect g;
     roundResults := roundResults g; roundStartTime := roundStartTime g;
     transitioning := transitioning g; chLeft := c; chRight := chRight g;
     playRequestId := playRequestId g; attempts := attempts g;
     resultTimers := resultTimers g; advanceTimers := advanceTimers g;
     submissions := submissions g; calls := calls g |}.

Definition set_chRight (c : Channel) (g : Game) : Game :=
  {| rounds := rounds g; loading := loading g; currentRound := currentRound g;
     selected := selected g; showResult := showResult g; isCorrect := isCorrect g;
     roundResults := roundResults g; roundStartTime := roundStartTime g;
     transitioning := transitioning g; chLeft := chLeft g; chRight := c;
     playRequestId := playRequestId g; attempts := attempts g;
     resultTimers := resultTimers g; advanceTimers := advanceTimers g;
     submissions := submissions g; calls := calls g |}.

(** The side-indexed choices of the source,
    [side === 'left' ? xLeft : xRight], as one update. *)
Definition upd_chan (s : Side) (f : Channel -> Channel) (g : Game) : Game :=
  match s with
  | Left => set_chLeft (f (chLeft g)) g
  | Right => set_chRight (f (chRight g)) g
  end.

Definition set_playRequestId (n : nat) (g : Game) : Game :=
  {| rounds := rounds g; loading := loading g; currentRound := currentRound g;
     selected := selected g; showResult := showResult g; isCorrect := isCorrect g;
     roundResults := roundResults g; roundStartTime := roundStartTime g;
     transitioning := transitioning g; chLeft := chLeft g; chRight := chRight g;
     playRequestId := n; attempts := attempts g;
     resultTimers := resultTimers g; advanceTimers := advanceTimers g;
     submissions := submissions g; calls := calls g |}.

Definition set_attempts (l : list Attempt) (g : Game) : Game :=
  {| rounds := rounds g; loading := loading g; currentRound := currentRound g;
     selected := selected g; showResult := showResult g; isCorrect := isCorrect g;
     roundResults := roundResults g; roundStartTime := roundStartTime g;
     transitioning := transitioning g; chLeft := chLeft g; chRight := chRight g;
     playRequestId := playRequestId g; attempts := l;
     resultTimers := resultTimers g; advanceTimers := advanceTimers g;
     submissions := submissions g; calls := calls g |}.

Definition log_call (s : Side) (c : Call) (g : Game) : Game :=
  {| rounds := rounds g; loading := loading g; currentRound := currentRound g;
     selected := selected g; showResult := showResult g; isCorrect := isCorrect g;
     roundResults := roundResults g; roundStartTime := roundStartTime g;
     transitioning := transitioning g; chLeft := chLeft g; chRight := chRight g;
     playRequestId := playRequestId g; attempts := attempts g;
     resultTimers := resultTimers g; advanceTimers := advanceTimers g;
     submissions := submissions g; calls := (s, c) :: calls g |}.

(** *** Values derived at render *)

(** [rounds[currentRound] ?? null] *)
Definition round (g : Game) : option RoundSetup :=
  rounds g !! currentRound g.

(** [leftAudio] and [rightAudio] *)
Definition audioProp (g : Game) (s : Side) : string :=
  match round g with
  | Some r => sideAudio r s
  | None => EmptyString
  end.

(** The deps of the reset effect of [useAudioFallback]. *)
Definition assetPair (g : Game) : string * string :=
  (audioProp g Left, audioProp g Right).

(** [!!selected || transitioning], passed as [disabled]. *)
Definition disabled (g : Game) : bool :=
  bool_decide (is_Some (selected g)) || transitioning g.

(** The two [<audio>] elements are rendered unless the loading view is
    ([loading || !rounds.length || !round]). *)
Definition mounted (g : Game) : bool :=
  negb (loading g) && bool_decide (is_Some (round g)).

(** *** Play, pause and replay *)

(** [ref.current?.pause(); setPlaying(false)] on one side *)
Definition stop_side (s : Side) (g : Game) : Game :=
  log_call s CallPause
    (upd_chan s (fun c => set_playing false (on_audio el_pause c)) g).

(** [const id = ++playRequestId.current; ref.current.play().then(...)] *)
Definition start_play (s : Side) (g : Game) : Game :=
  let id := S (playRequestId g) in
  log_call s (CallPlay id)
    (upd_chan s (on_audio (el_play_request id)) (set_playRequestId id g)).

(** [togglePlay]; a [null] ref makes [thisRef.current?.paused]
    undefined, which takes the [else] branch. *)
Definition togglePlay (side : Side) (g : Game) : Game :=
  if bool_decide (is_Some (selected g)) then g
  else
    match audio (chan g side) with
    | Some a =>
        if paused a then start_play side (stop_side (other_side side) g)
        else stop_side side g
    | None => stop_side side g
    end.

(** [replay] *)
Definition replay (side : Side) (g : Game) : Game :=
  if bool_decide (is_Some (selected g)) then g
  else
    let g1 := stop_side (other_side side) g in
    let g2 :=
      match audio (chan g1 side) with
      | Some _ => start_play side g1
      | None => g1
      end in
    upd_chan side (fun c => set_replayCount (S (replayCount c)) c) g2.

(** The [then] continuation of the play request [id] on [side]:
    [if (playRequestId.current === id) setThis(true)]. *)
Definition then_callback (side : Side) (id : nat) (g : Game) : Game :=
  if (playRequestId g =? id)%nat then upd_chan side (set_playing true) g else g.

(** The element of [side] starts to play ("notify about playing"): it
    takes its pending play promises and queues the task that will
    resolve them.  A paused element does not start, and nothing is
    queued for an empty list. *)
Definition playTaken (side : Side) (g : Game) : Game :=
  match audio (chan g side) with
  | Some a =>
      if paused a then g
      else
        match pendingPlay a with
        | [] => g
        | ids =>
            upd_chan side
              (fun c => set_resolving (resolving c ++ [ids]) (on_audio el_settle c)) g
        end
  | None => g
  end.

(** The oldest queued task of [side] runs: its promises resolve in the
    order they were made, and every [then] continuation runs. *)
Definition playResolved (side : Side) (g : Game) : Game :=
  match resolving (chan g side) with
  | [] => g
  | ids :: rest =>
      foldl (fun acc id => then_callback side id acc)
        (upd_chan side (set_resolving rest) g) ids
  end.

(** The element rejects its pending play promises for a reason other
    than a pause or a load; the [catch] continuations only write to
    the console. *)
Definition playRejected (side : Side) (g : Game) : Game :=
  upd_chan side (on_audio el_settle) g.

(** [stopAll] *)
Definition stopAll (g : Game) : Game :=
  stop_side Right (stop_side Left g).

(** *** Selection and round progression *)

(** [Math.round(ms / 1000)] *)
Definition round_seconds (ms : Z) : Z := ((ms + 500) / 1000)%Z.

(** [handleSelect]; [now] is the value of [Date.now()]. *)
Definition handleSelect (side : Side) (now : Z) (g : Game) : Game :=
  if bool_decide (is_Some (selected g)) || transitioning g then g
  else
    match round g with
    | None => g
    | Some r =>
        let g1 := stopAll g in
        let correct := bool_decide (side = realPosition r) in
        let result :=
          {| roundNum := currentRound g + 1;
             celebrity := celebrity_name r;
             rd_realAudio := realAudio r;
             rd_fakeAudio := fakeAudio r;
             rd_realPosition := realPosition r;
             userChoice := side;
             correct := correct;
             replayCountLeft := replayCount (chLeft g);
             replayCountRight := replayCount (chRight g);
             timeSpent := round_seconds (now - roundStartTime g) |} in
        let updatedResults := roundResults g ++ [result] in
        {| rounds := rounds g1; loading := loading g1;
           currentRound := currentRound g1;
           selected := Some side; showResult := true; isCorrect := correct;
           roundResults := updatedResults;
           roundStartTime := roundStartTime g1;
           transitioning := transitioning g1;
           chLeft := chLeft g1; chRight := chRight g1;
           playRequestId := playRequestId g1; attempts := attempts g1;
           resultTimers := resultTimers g1 ++ [(currentRound g, updatedResults)];
           advanceTimers := advanceTimers g1;
           submissions := submissions g1; calls := calls g1 |}
    end.

(** The 1200 ms timeout of [handleSelect] fires: post the results
    after the last round, otherwise start the transition and arm the
    1500 ms timeout. *)
Definition resultTimer (g : Game) : Game :=
  match resultTimers g with
  | [] => g
  | (capturedRound, updatedResults) :: rest =>
      let last := (TOTAL_ROUNDS <=? capturedRound + 1)%nat in
      {| rounds := rounds g; loading := loading g; currentRound := currentRound g;
         selected := selected g; showResult := showResult g;
         isCorrect := isCorrect g; roundResults := roundResults g;
         roundStartTime := roundStartTime g;
         transitioning := if last then transitioning g else true;
         chLeft := chLeft g; chRight := chRight g;
         playRequestId := playRequestId g; attempts := attempts g;
         resultTimers := rest;
         advanceTimers := if last then advanceTimers g else S (advanceTimers g);
         submissions :=
           if last then submissions g ++ [updatedResults] else submissions g;
         calls := calls g |}
  end.

(** The 1500 ms timeout fires: the next round begins. *)
Definition advanceTimer (now : Z) (g : Game) : Game :=
  match advanceTimers g with
  | O => g
  | S n =>
      {| rounds := rounds g; loading := loading g;
         currentRound := S (currentRound g);
         selected := None; showResult := false;
         isCorrect := isCorrect g; roundResults := roundResults g;
         roundStartTime := now; transitioning := false;
         chLeft := set_replayCount 0 (chLeft g);
         chRight := set_replayCount 0 (chRight g);
         playRequestId := playRequestId g; attempts := attempts g;
         resultTimers := resultTimers g; advanceTimers := n;
         submissions := submissions g; calls := calls g |}
  end.

(** [loadGame] got its answer: [setRounds(mappedRounds);
    setLoading(false)].  The effect runs once, so only a loading
    component takes it. *)
Definition roundsLoaded (rs : list BackendRound) (g : Game) : Game :=
  if loading g then
    {| rounds := mapRound <$> rs; loading := false;
       currentRound := currentRound g;
       selected := selected g; showResult := showResult g;
       isCorrect := isCorrect g; roundResults := roundResults g;
       roundStartTime := roundStartTime g; transitioning := transitioning g;
       chLeft := chLeft g; chRight := chRight g;
       playRequestId := playRequestId g; attempts := attempts g;
       resultTimers := resultTimers g; advanceTimers := advanceTimers g;
       submissions := submissions g; calls := calls g |}
  else g.

(** *** The fallback: [handleAudioError] *)

(** The synchronous head of [handleAudioError], up to the [fetch]
    (lines 177-227).  [currentSrc] is what [el.src] reports, without
    its origin: the origin has no [/] followed by a capital letter, so
    [includes('/Cloned/')] finds in the whole address what it finds
    after the origin.  [new URL(currentSrc).pathname] is the path of
    that address; for a [null] ref [currentSrc] is empty, [new URL]
    throws and the path stays empty. *)
Definition handleAudioError (side : Side) (g : Game) : Game :=
  if disabled g then g
  else
    let c := chan g side in
    if (MAX_AUDIO_RETRIES <=? retries c)%nat then g
    else if fallbackActive c then g
    else
      let currentSrc := default EmptyString (Js.url_tail ∘ src <$> audio c) in
      let category := if Js.includes "/Cloned/" currentSrc then Cloned else Real in
      let excludePath := default EmptyString (Js.url_pathname ∘ src <$> audio c) in
      let attempt :=
        {| at_side := side;
           at_wasPlaying := playing c;
           at_request :=
             {| rq_celebrity := default EmptyString (celebrity_name <$> round g);
                rq_category := category;
                rq_exclude :=
                  if Js.is_empty excludePath then None else Some excludePath |};
           at_phase := Fetching |} in
      set_attempts (attempts g ++ [attempt])
        (upd_chan side
           (fun c => set_retries (retries c + 1) (set_fallbackActive true c)) g).

(** The [finally] block, at the end of attempt [k] on [side]. *)
Definition finish (k : nat) (side : Side) (g : Game) : Game :=
  set_attempts (alter (set_phase Done) k (attempts g))
    (upd_chan side (set_fallbackActive false) g).

(** The [catch] block followed by [finally]. *)
Definition abandon (k : nat) (side : Side) (g : Game) : Game :=
  finish k side (upd_chan side (set_playing false) g).

(** [el.pause(); el.src = filePath; el.load()] *)
Definition swap_source (filePath : string) (a : Audio) : Audio :=
  el_load (el_set_src filePath (el_pause a)).

(** Attempt [k] gets the resolver's answer (lines 229-268). *)
Definition fetchSettled (k : nat) (res : FetchResult) (g : Game) : Game :=
  match attempts g !! k with
  | Some t =>
      match at_phase t with
      | Fetching =>
          let side := at_side t in
          match res with
          | HttpOk (Some filePath) =>
              if Js.is_empty filePath then abandon k side g
              else
                match audio (chan g side) with
                | None => finish k side g
                | Some a =>
                    let g1 :=
                      upd_chan side (set_audio (Some (swap_source filePath a))) g in
                    if at_wasPlaying t
                    then set_attempts (alter (set_phase AwaitCanPlay) k (attempts g1)) g1
                    else finish k side g1
                end
          | _ => abandon k side g
          end
      | _ => g
      end
  | None => g
  end.

(** The replacement became playable for attempt [k]: the awaited
    promise resolves and [el.play()] is called. *)
Definition readyResolved (k : nat) (g : Game) : Game :=
  match attempts g !! k with
  | Some t =>
      match at_phase t with
      | AwaitCanPlay =>
          set_attempts (alter (set_phase AwaitPlay) k (attempts g))
            (upd_chan (at_side t) (on_audio el_play) g)
      | _ => g
      end
  | None => g
  end.

(** The replacement failed to load for attempt [k]: the awaited
    promise rejects. *)
Definition readyRejected (k : nat) (g : Game) : Game :=
  match attempts g !! k with
  | Some t =>
      match at_phase t with
      | AwaitCanPlay => abandon k (at_side t) g
      | _ => g
      end
  | None => g
  end.

(** [await el.play()] of attempt [k] settles. *)
Definition resumeSettled (k : nat) (ok : bool) (g : Game) : Game :=
  match attempts g !! k with
  | Some t =>
      match at_phase t with
      | AwaitPlay =>
          if ok then finish k (at_side t) (upd_chan (at_side t) (set_playing true) g)
          else abandon k (at_side t) g
      | _ => g
      end
  | None => g
  end.

(** *** Commit: the DOM and the effects after a state change *)

(** React puts the [src] prop on the element when the prop changed,
    creates the element when the main view appears and drops the ref
    when the loading view replaces it. *)
Definition reconcile (prev g : Game) (s : Side) (c : Channel) : Channel :=
  if mounted g then
    match audio c with
    | None => set_audio (Some (el_new (audioProp g s))) c
    | Some a =>
        if decide (audioProp prev s = audioProp g s) then c
        else set_audio (Some (el_set_src (audioProp g s) a)) c
    end
  else set_audio None c.

Definition render (prev g : Game) : Game :=
  upd_chan Right (reconcile prev g Right) (upd_chan Left (reconcile prev g Left) g).

(** The effect on [[currentRound]] (lines 618-633). *)
Definition reset_side (s : Side) (g : Game) : Game :=
  log_call s CallPause
    (upd_chan s
       (fun c => set_buffering false (set_playing false (on_audio el_pause c))) g).

Definition roundChangeEffect (prev g : Game) : Game :=
  if decide (currentRound prev = currentRound g) then g
  else reset_side Right (reset_side Left g).

(** The effect on [[leftAudio, rightAudio]] (lines 167-172). *)
Definition reset_fallback (c : Channel) : Channel :=
  set_fallbackActive false (set_retries 0 c).

Definition fallbackResetEffect (prev g : Game) : Game :=
  if decide (assetPair prev = assetPair g) then g
  else upd_chan Right reset_fallback (upd_chan Left reset_fallback g).

Definition commit (prev g : Game) : Game :=
  fallbackResetEffect prev (roundChangeEffect prev (render prev g)).

(** *** Events *)

(** Everything that can run: the user's intents, the media events of
    the two elements, the settling of promises and the timers.  A DOM
    event with two listeners is two consecutive events here: an
    [error] of an element on which an attempt waits is [AudioError]
    (the [onError] prop) followed by [ReadyRejected].  The resolution
    of a play promise is two events as well: [PlayTaken], when the
    element takes the promise from its pending list and queues the
    task, and [PlayResolved], when that task runs; any other event can
    come between the two. *)
Inductive Event : Type :=
| RoundsLoaded (rs : list BackendRound)
| TogglePlay (side : Side)
| Replay (side : Side)
| Select (side : Side) (now : Z)
| PlayTaken (side : Side)
| PlayResolved (side : Side)
| PlayRejected (side : Side)
| Ended (side : Side)
| Waiting (side : Side)
| CanPlay (side : Side)
| AudioError (side : Side)
| FetchSettled (k : nat) (res : FetchResult)
| ReadyResolved (k : nat)
| ReadyRejected (k : nat)
| ResumeSettled (k : nat) (ok : bool)
| ResultTimer
| AdvanceTimer (now : Z).

Definition handle (e : Event) (g : Game) : Game :=
  match e with
  | RoundsLoaded rs => roundsLoaded rs g
  | TogglePlay side => togglePlay side g
  | Replay side => replay side g
  | Select side now => handleSelect side now g
  | PlayTaken side => playTaken side g
  | PlayResolved side => playResolved side g
  | PlayRejected side => playRejected side g
  | Ended side => upd_chan side (fun c => set_playing false (on_audio el_ended c)) g
  | Waiting side => upd_chan side (set_buffering true) g
  | CanPlay side => upd_chan side (set_buffering false) g
  | AudioError side => handleAudioError side g
  | FetchSettled k res => fetchSettled k res g
  | ReadyResolved k => readyResolved k g
  | ReadyRejected k => readyRejected k g
  | ResumeSettled k ok => resumeSettled k ok g
  | ResultTimer => resultTimer g
  | AdvanceTimer now => advanceTimer now g
  end.

(** One event: its handler, then the commit. *)
Definition step (e : Event) (g : Game) : Game :=
  commit g (handle e g).

Definition run (es : list Event) (g : Game) : Game :=
  foldl (fun acc e => step e acc) g es.

Inductive reachable : Game -> Prop :=
| reach_initial now : reachable (initial now)
| reach_step e g : reachable g -> reachable (step e g).

(** The resolver requests made so far for one side, oldest first. *)
Definition requests_in (side : Side) (l : list Attempt) : list Request :=
  at_request <$> List.filter (fun t => bool_decide (at_side t = side)) l.

Definition requests (side : Side) (g : Game) : list Request :=
  requests_in side (attempts g).

(** The fields that neither the DOM reconciliation nor the effects
    write. *)
Definition core (g : Game) :=
  (rounds g, loading g, currentRound g, selected g, showResult g, isCorrect g,
   roundResults g, roundStartTime g, transitioning g, playRequestId g,
   attempts g, resultTimers g, advanceTimers g, submissions g).

(** A state as a commit leaves it: the elements exist exactly when the
    main view is rendered. *)
Definition committed (g : Game) : Prop :=
  forall s, if mounted g then is_Some (audio (chan g s)) else audio (chan g s) = None.

(** At most one timeout of [handleSelect] is pending, and none while
    the round is open for selection. *)
Definition timers_ok (g : Game) : Prop :=
  length (resultTimers g) + advanceTimers g <= 1
  /\ (selected g = None ->
      transitioning g = false /\ resultTimers g = [] /\ advanceTimers g = 0).

(** What the pending play promises of an element may hold, given the
    current request id and the last intent on its side: ids not above
    the current one, and the current one only if that play is the
    side's last intent; a paused element has none pending. *)
Definition pending_ok (reqId : nat) (lc : option Call) (a : Audio) : Prop :=
  (paused a = true -> pendingPlay a = [])
  /\ forall id, id ∈ pendingPlay a ->
       id <= reqId /\ (id = reqId -> lc = Some (CallPlay id)).

(** The most recent play or pause intent on a side. *)
Definition last_call (side : Side) (g : Game) : option Call :=
  snd <$> head (List.filter (fun p => bool_decide (fst p = side)) (calls g)).

Definition promises_ok (g : Game) : Prop :=
  forall s a, audio (chan g s) = Some a ->
    pending_ok (playRequestId g) (last_call s g) a.

(** The request ids of the play promises of [side] that are still to
    be settled: pending on the element, or held by a queued task. *)
Definition awaiting (g : Game) (s : Side) : list nat :=
  default [] (pendingPlay <$> audio (chan g s)) ++ concat (resolving (chan g s)).

Definition is_play (p : Side * Call) : bool :=
  match snd p with
  | CallPlay _ => true
  | CallPause => false
  end.

(** The most recent [play()] request of [togglePlay] or [replay], on
    either side. *)
Definition last_play (g : Game) : option (Side * Call) :=
  head (List.filter is_play (calls g)).

(** The token of every promise still to be settled is at most the
    current one, and it is the current one only for the most recent
    play request. *)
Definition tokens_ok (g : Game) : Prop :=
  forall s id, id ∈ awaiting g s ->
    id <= playRequestId g
    /\ (id = playRequestId g -> last_play g = Some (s, CallPlay id)).

(** The events of [es], run from [g], all leave [f] as it is: with
    [f := assetPair] the run stays within one round's assets, with
    [f := currentRound] within one round. *)
Fixpoint keeps {X : Type} (f : Game -> X) (es : list Event) (g : Game) : Prop :=
  match es with
  | [] => True
  | e :: es' => f (step e g) = f g /\ keeps f es' (step e g)
  end.

(** The current token is the one of the most recent play request. *)
Definition token_logged (g : Game) : Prop :=
  forall s id, last_play g = Some (s, CallPlay id) -> id = playRequestId g.

(** The events in which a run of [handleAudioError] reaches its
    [finally] block: attempt [k] is over. *)
Definition ends_attempt (e : Event) (k : nat) : Prop :=
  match e with
  | FetchSettled k' _ | ReadyRejected k' | ResumeSettled k' _ => k' = k
  | _ => False
  end.

End Game.


(** ** Concrete data for the examples below *)

Module Sample.

Import Game.

(** A resolver tree with one celebrity who has a single real clip. *)
Definition fs : Resolver.FileSystem :=
  Resolver.mkFs
    (fun name =>
       if String.eqb name "Obama"
       then Some (Resolver.Dir ["clip01.wav"; "notes.txt"])
       else None)
    (fun _ => None).

Definition backendRound (n : nat) (name : string) (p : Position) : BackendRound :=
  {| roundNumber := n;
     b_celebrity := name;
     audioA := (if decide (p = A) then "/audio/Real/" else "/audio/Cloned/")
               +:+ name +:+ "/a.wav";
     audioB := (if decide (p = A) then "/audio/Cloned/" else "/audio/Real/")
               +:+ name +:+ "/b.wav";
     b_realPosition := p |}.

(** A session of two rounds, the authentic clip first on the left. *)
Definition backendRounds : list BackendRound :=
  [backendRound 1 "Obama" A; backendRound 2 "Musk" B].

Definition rounds : list RoundSetup := mapRound <$> backendRounds.

(** The component right after the rounds arrived. *)
Definition started : Game := run [RoundsLoaded backendRounds] (initial 0).

(** The left clip failed to load and the fallback is asking the
    resolver for another one. *)
Definition fetching : Game := step (AudioError Left) started.

(** Three fallback attempts on the left channel, each answered with
    an error: the budget of the round is used up. *)
Definition exhausted : Game :=
  run [AudioError Left; FetchSettled 0 FetchThrows;
       AudioError Left; FetchSettled 1 (HttpStatus 404);
       AudioError Left; FetchSettled 2 FetchThrows] started.

(** The listener picked the left card of round 0 after 2.6 s. *)
Definition decided : Game := step (Select Left 2600) started.

(** The left clip was playing when it failed; the fallback is asking
    the resolver for another one. *)
Definition interrupted : Game :=
  run [TogglePlay Left; PlayTaken Left; PlayResolved Left; AudioError Left]
    started.

(** The listener hit replay on the left twice before the element
    started to play: two play promises are pending. *)
Definition racing : Game := run [Replay Left; Replay Left] started.

End Sample.
(** * Further parts of the repository

    - [Session], [CardSide]: notions over runs of the [Game] component
      and the props its two cards are rendered with;
    - [PreloadView]: the preloader's array read through its references;
    - [Backend]: the handlers [GET /api/start-game] and
      [POST /api/submit-game] of the backend;
    - [Results]: the count-up of the score on the results page;
    - sample data for the examples. *)


(** ** A resolver tree with alternatives *)

Module SampleTree.

(** Two real clips and a stray text file for one celebrity, two
    cloned clips (one with an upper-case extension). *)
Definition fs : Resolver.FileSystem :=
  Resolver.mkFs
    (fun name =>
       if String.eqb name "Obama"
       then Some (Resolver.Dir ["a.wav"; "b.wav"; "notes.txt"])
       else None)
    (fun name =>
       if String.eqb name "Obama"
       then Some (Resolver.Dir ["a.wav"; "c.WAV"])
       else None).

(** A tree whose clips have a space in their names, and a round
    served from it. *)
Definition spaced : Resolver.FileSystem :=
  Resolver.mkFs
    (fun name =>
       if String.eqb name "Obama"
       then Some (Resolver.Dir ["clip 1.wav"; "clip 2.wav"])
       else None)
    (fun _ => None).

Definition spacedRound : Game.BackendRound :=
  {| Game.roundNumber := 1;
     Game.b_celebrity := "Obama";
     Game.audioA := "/audio/Real/Obama/clip 1.wav";
     Game.audioB := "/audio/Cloned/Obama/a.wav";
     Game.b_realPosition := Game.A |}.

End SampleTree.

(** ** A view of the Preloader's array *)

Module PreloadView.

Import Preloader.

(** The objects that [preloadRefs.current] holds, in the order of the
    array, read through the references. *)
Definition buffers (h : Hook) : list (option AudioObj) :=
  (fun i => objects h !! i) <$> preloadRefs h.

End PreloadView.

(** ** Session-level notions for the Game component *)

Module Session.

Import Game.

(** The events that are a press of the replay button on [side]. *)
Definition is_replay (side : Side) (e : Event) : bool :=
  match e with
  | Replay s => bool_decide (s = side)
  | _ => false
  end.

Definition is_select (e : Event) : bool :=
  match e with
  | Select _ _ => true
  | _ => false
  end.

(** The fallback resumes playback: [await el.play()] resolved. *)
Definition is_resume (e : Event) : bool :=
  match e with
  | ResumeSettled _ true => true
  | _ => false
  end.

(** How often the replay button of [side] is pressed in [es]. *)
Definition replays (side : Side) (es : list Event) : nat :=
  length (List.filter (is_replay side) es).

Definition is_done (p : Phase) : bool :=
  match p with
  | Done => true
  | _ => false
  end.

(** An attempt of [side] that has not reached its [finally] block. *)
Definition flying (side : Side) (t : Attempt) : bool :=
  bool_decide (at_side t = side) && negb (is_done (at_phase t)).

(** The number of fallback attempts of [side] in flight. *)
Definition in_flight (side : Side) (g : Game) : nat :=
  length (List.filter (flying side) (attempts g)).

(** The single-flight flag tells the truth: it is set exactly while
    one attempt of the side is in flight, and there is never a second. *)
Definition single_flight_ok (side : Side) (g : Game) : Prop :=
  in_flight side g = if fallbackActive (chan g side) then 1 else 0.

(** The ids of the play promises that the element of a side has not
    settled ([[]] for a [null] ref). *)
Definition pend (g : Game) (s : Side) : list nat :=
  default [] (pendingPlay <$> audio (chan g s)).

(** One clip at a time: the two [playing] flags are not both set; the
    play request that [playRequestId] names awaits its resolution on
    one side at most, and while it does, the other side is not
    playing. *)
Definition exclusive_ok (g : Game) : Prop :=
  (playing (chLeft g) && playing (chRight g) = false)
  /\ (forall s, playRequestId g ∈ awaiting g s ->
        playing (chan g (other_side s)) = false)
  /\ (playRequestId g ∈ awaiting g Left ->
      playRequestId g ∈ awaiting g Right -> False).

(** [g'] plays and awaits no more than [g] does. *)
Definition quieter (g' g : Game) : Prop :=
  playRequestId g' = playRequestId g
  /\ forall s, (playing (chan g' s) = true -> playing (chan g s) = true)
       /\ pend g' s ⊆ pend g s
       /\ awaiting g' s ⊆ awaiting g s.

(** The fallback starts playback by itself: the replacement became
    playable, so [el.play()] is called, or that call resolved. *)
Definition is_fallback_play (e : Event) : bool :=
  match e with
  | ReadyResolved _ | ResumeSettled _ true => true
  | _ => false
  end.

(** No element plays or is about to: each is paused, with no play
    promise pending. *)
Definition quiet (g : Game) : Prop :=
  forall s, pend g s = []
    /\ forall a, audio (chan g s) = Some a -> paused a = true.

(** The state [g'] as it can be later in the round that was answered
    in [g]: no element plays or is about to, the token is the one of
    [g], and the promises still to be settled are those whose
    resolution was queued in [g]; a side is flagged as playing only
    if the request of that token is among them. *)
Definition after_answer (g g' : Game) : Prop :=
  quiet g'
  /\ playRequestId g' = playRequestId g
  /\ (forall s, awaiting g' s ⊆ concat (resolving (chan g s)))
  /\ (forall s, playing (chan g' s) = true ->
        playRequestId g ∈ concat (resolving (chan g s))).

(** An element that runs in [g'] was running in [g]. *)
Definition calmer (g' g : Game) : Prop :=
  forall s a', audio (chan g' s) = Some a' -> paused a' = false ->
    exists a, audio (chan g s) = Some a /\ paused a = false.

(** The part of the state that the session's bookkeeping lives in. *)
Definition session_core (g : Game) :=
  (rounds g, loading g, currentRound g, selected g, showResult g, isCorrect g,
   roundResults g, transitioning g, resultTimers g, advanceTimers g,
   submissions g).

(** The bookkeeping of a session, as the handlers keep it:
    - while the rounds are loading there are none, and nothing is
      selected;
    - a selection is only ever made in a round that exists;
    - the log holds one outcome per round answered so far, the [i]-th
      numbered [i + 1], each with [correct] telling whether the choice
      is the authentic position;
    - the round index stays below [TOTAL_ROUNDS];
    - a pending 1200 ms timeout captured the current round and log, a
      pending 1500 ms timeout was armed before the last round;
    - at most one body was posted, and it is the log;
    - a result on display belongs to the selection made. *)
Definition session_ok (g : Game) : Prop :=
  (loading g = true -> rounds g = [] /\ selected g = None)
  /\ (is_Some (selected g) -> currentRound g < length (rounds g))
  /\ length (roundResults g)
       = currentRound g + match selected g with Some _ => 1 | None => 0 end
  /\ (forall i res, roundResults g !! i = Some res ->
        roundNum res = i + 1
        /\ correct res = bool_decide (userChoice res = rd_realPosition res))
  /\ currentRound g < TOTAL_ROUNDS
  /\ (forall c res, (c, res) ∈ resultTimers g ->
        c = currentRound g /\ res = roundResults g)
  /\ (0 < advanceTimers g -> currentRound g + 1 < TOTAL_ROUNDS)
  /\ match submissions g with
     | [] => True
     | [body] =>
         body = roundResults g /\ is_Some (selected g)
         /\ resultTimers g = [] /\ advanceTimers g = 0
         /\ currentRound g + 1 = TOTAL_ROUNDS
     | _ => False
     end
  /\ (showResult g = true ->
      exists side r, selected g = Some side /\ round g = Some r
        /\ isCorrect g = bool_decide (side = realPosition r)).

End Session.

(** ** The card of one side: [CardSide] *)

Module CardSide.

(** [round.realPosition], read before the props reuse the name. *)
Definition round_realPosition (r : RoundSetup) : Side := realPosition r.

(** [interface CardSideProps], without the image, the name and the
    callbacks. *)
Record Props : Type := mkProps {
  side : Side;
  isPlaying : bool;
  isBuffering : bool;
  realPosition : Side;
  selected : option Side;
  showResult : bool;
  isCorrect : bool;
}.

Definition isSelected (p : Props) : bool :=
  bool_decide (selected p = Some (side p)).

Definition isRightAnswer (p : Props) : bool :=
  bool_decide (realPosition p = side p) && showResult p.

Definition isWrongAnswer (p : Props) : bool :=
  bool_decide (is_Some (selected p)) && negb (isSelected p) && showResult p
  && negb (isRightAnswer p).

(** The five looks the card's class name chooses between. *)
Inductive Look : Type :=
| GreenRing       (* [ring-4 ring-green-500 bg-green-500/10] *)
| RedRing         (* [ring-4 ring-red-500 bg-red-500/10] *)
| SoftGreenRing   (* [ring-4 ring-green-500/50 bg-green-500/5] *)
| Dimmed          (* [opacity-60] *)
| Hover.          (* [hover:glow-border hover:scale-[1.02]] *)

Definition look (p : Props) : Look :=
  if isSelected p && isCorrect p && showResult p then GreenRing
  else if isSelected p && negb (isCorrect p) && showResult p then RedRing
  else if isRightAnswer p then SoftGreenRing
  else if bool_decide (is_Some (selected p)) then Dimmed
  else Hover.

(** The badge [REAL] *)
Definition realBadge (p : Props) : bool :=
  showResult p && isRightAnswer p.

(** The badge [AI CLONE] *)
Definition cloneBadge (p : Props) : bool :=
  showResult p && isSelected p && negb (isCorrect p).

(** [disabled={!!selected}] on the card and on its two buttons *)
Definition controlsDisabled (p : Props) : bool :=
  bool_decide (is_Some (selected p)).

(** The props [Game] passes to the card of side [s] in round [r]. *)
Definition cardProps (g : Game.Game) (r : RoundSetup) (s : Side) : Props :=
  {| side := s;
     isPlaying := Game.playing (Game.chan g s);
     isBuffering := Game.buffering (Game.chan g s);
     realPosition := round_realPosition r;
     selected := Game.selected g;
     showResult := Game.showResult g;
     isCorrect := Game.isCorrect g |}.

End CardSide.

(** ** More concrete data *)

Module Sample10.

Import Game.

(** A full session: ten rounds, the authentic clip always on the
    left. *)
Definition backendRounds : list BackendRound :=
  (fun n => Sample.backendRound n "Obama" A) <$> seq 1 TOTAL_ROUNDS.

Definition started : Game := run [RoundsLoaded backendRounds] (initial 0).

(** One round played through: the left card picked, both timeouts. *)
Definition answer_round : list Event :=
  [Select Left 3000; ResultTimer; AdvanceTimer 6000].

(** All ten rounds answered and the 1200 ms timeout of the last one
    fired. *)
Definition finished : Game :=
  run (concat (replicate 9 answer_round) ++ [Select Left 3000; ResultTimer])
    started.

End Sample10.

(** ** The backend's game routes: [GET /api/start-game] and
    [POST /api/submit-game] *)

Module Backend.

Import Game.

(** The audio library on disk: what lies at [realBasePath] ([None]
    when [existsSync] says no), whether [clonedBasePath] exists, and
    the two trees below them. *)
Record Library : Type := mkLibrary {
  realRoot : option Resolver.FsEntry;
  clonedRoot : bool;
  tree : Resolver.FileSystem;
}.

(** Why [start-game] answers with status 500: one of its two own
    [throw]s before the rounds are made, a [readdirSync] that threw,
    or its [throw] for a celebrity without clips. *)
Inductive StartError : Type :=
| RealFolderNotFound
| ClonedFolderNotFound
| ReadFailed
| MissingAudio (celebrity : string).

Inductive StartResponse : Type :=
| StartOk (rounds : list BackendRound)
| StartFailed (e : StartError).

(** The three draws of [Math.random()] that one round takes, in the
    order of the calls; each is the numerator over [2^53], as in
    [Js.floor_random]. *)
Record Draws : Type := mkDraws {
  u_real : N;
  u_cloned : N;
  u_position : N;
}.

(** [Math.random() > 0.5] *)
Definition random_gt_half (u : N) : bool :=
  (Js.two53 / 2 <? u mod Js.two53)%N.

Definition is_nil {X : Type} (l : list X) : bool :=
  match l with
  | [] => true
  | _ :: _ => false
  end.

(** The callback of [shuffledCelebs.map] (lines 137-162). *)
Definition make_round (lib : Library) (index : nat) (celebrity : string)
    (d : Draws) : StartError + BackendRound :=
  match Resolver.realBase (tree lib) celebrity with
  | Some (Resolver.Dir realNames) =>
      match Resolver.clonedBase (tree lib) celebrity with
      | Some (Resolver.Dir clonedNames) =>
          let realFiles := List.filter Resolver.is_wav realNames in
          let clonedFiles := List.filter Resolver.is_wav clonedNames in
          if is_nil realFiles || is_nil clonedFiles
          then inl (MissingAudio celebrity)
          else
            let realFile :=
              nth (Js.floor_random (u_real d) (length realFiles))
                realFiles EmptyString in
            let clonedFile :=
              nth (Js.floor_random (u_cloned d) (length clonedFiles))
                clonedFiles EmptyString in
            let realPosition := if random_gt_half (u_position d) then A else B in
            let realPath := "/audio/Real/" +:+ celebrity +:+ "/" +:+ realFile in
            let clonedPath := "/audio/Cloned/" +:+ celebrity +:+ "/" +:+ clonedFile in
            inr {| roundNumber := index + 1;
                   b_celebrity := celebrity;
                   audioA := if decide (realPosition = A) then realPath else clonedPath;
                   audioB := if decide (realPosition = B) then realPath else clonedPath;
                   b_realPosition := realPosition |}
      | _ => inl ReadFailed
      end
  | _ => inl ReadFailed
  end.

(** [shuffledCelebs.map(...)]: a [throw] in the callback ends the
    whole map.  [draws] gives the draws of the round at each index. *)
Fixpoint make_rounds (lib : Library) (index : nat) (celebs : list string)
    (draws : nat -> Draws) : StartError + list BackendRound :=
  match celebs with
  | [] => inr []
  | celebrity :: rest =>
      match make_round lib index celebrity (draws index) with
      | inl e => inl e
      | inr r =>
          match make_rounds lib (S index) rest draws with
          | inl e => inl e
          | inr rs => inr (r :: rs)
          end
      end
  end.

(** The handler of [GET /api/start-game].  [shuffle] stands for the
    utility of that name, [[...array].sort(() => Math.random() - 0.5)],
    whose outcome lies with the engine's sort. *)
Definition start_game (shuffle : list string -> list string) (lib : Library)
    (draws : nat -> Draws) : StartResponse :=
  match realRoot lib with
  | None => StartFailed RealFolderNotFound
  | Some entry =>
      if clonedRoot lib then
        match entry with
        | Resolver.File => StartFailed ReadFailed
        | Resolver.Dir celebrities =>
            let shuffledCelebs := take 10 (shuffle celebrities) in
            match make_rounds lib 0 shuffledCelebs draws with
            | inl e => StartFailed e
            | inr rounds => StartOk rounds
            end
        end
      else StartFailed ClonedFolderNotFound
  end.

(** *** Submission *)

(** A row of [game_sessions], and the row of [global_stats] with
    [id = 1]. *)
Record SessionRow : Type := mkSessionRow {
  user_id : string;
  s_score : nat;
  s_rounds : list RoundData;
  total_replays : nat;
  session_duration : Z;
}.

Record Stats : Type := mkStats {
  high_score : nat;
  total_games : nat;
}.

(** The two tables the handler touches; [global_stats] is [None] when
    the row is missing.  The store is taken to answer every call. *)
Record Db : Type := mkDb {
  game_sessions : list SessionRow;
  global_stats : option Stats;
}.

Record SubmitReply : Type := mkSubmitReply {
  score : nat;
  leaderboardRank : nat;
  globalHighScore : nat;
  totalGames : nat;
}.

Inductive SubmitResponse : Type :=
| Submitted (reply : SubmitReply)
| SubmitError (status : nat) (message : string).

(** [rounds.filter((r) => r.userChoice === r.realPosition).length] *)
Definition score_of (rounds : list RoundData) : nat :=
  length (List.filter (fun r => bool_decide (userChoice r = rd_realPosition r)) rounds).

(** [rounds.reduce((sum, r) => sum + r.replayCountLeft + r.replayCountRight, 0)];
    [handleSelect] computes the same for the results page. *)
Definition totalReplays (rounds : list RoundData) : nat :=
  foldl (fun sum r => sum + replayCountLeft r + replayCountRight r) 0 rounds.

(** [rounds.reduce((sum, r) => sum + r.timeSpent, 0)] *)
Definition sessionDuration (rounds : list RoundData) : Z :=
  foldl (fun sum r => (sum + timeSpent r)%Z) 0%Z rounds.

(** The handler of [POST /api/submit-game], up to its answer.
    [userId] and [rounds] are [None] for a missing field (or, for
    [rounds], a value that is no array).  The mail that the handler
    sends before it answers touches neither the tables nor the
    answer, and is left out. *)
Definition submit_game (db : Db) (userId : option string)
    (rounds : option (list RoundData)) : Db * SubmitResponse :=
  match userId, rounds with
  | Some uid, Some rounds =>
      if Js.is_empty uid then (db, SubmitError 400 "Invalid submission data")
      else
        let score := score_of rounds in
        let row :=
          {| user_id := uid; s_score := score; s_rounds := rounds;
             total_replays := totalReplays rounds;
             session_duration := sessionDuration rounds |} in
        let db1 :=
          {| game_sessions := game_sessions db ++ [row];
             global_stats := global_stats db |} in
        let higherScores :=
          List.filter (fun s => (score <? s_score s)%nat) (game_sessions db1) in
        let leaderboardRank := length higherScores + 1 in
        match global_stats db1 with
        | None => (db1, SubmitError 500 "Failed to submit game")
        | Some statsData =>
            let newHighScore :=
              if (high_score statsData <? score)%nat then score
              else high_score statsData in
            let newTotalGames := total_games statsData + 1 in
            ({| game_sessions := game_sessions db1;
                global_stats :=
                  Some {| high_score := newHighScore;
                          total_games := newTotalGames |} |},
             Submitted {| score := score; leaderboardRank := leaderboardRank;
                          globalHighScore := newHighScore;
                          totalGames := newTotalGames |})
        end
  | _, _ => (db, SubmitError 400 "Invalid submission data")
  end.

End Backend.

(** ** The results page: the count-up of the score *)

Module Results.

(** The effect on [[score]] of [Results.tsx]: the closure's counter
    [current], the state [displayScore], and whether the interval is
    still set. *)
Record CountUp : Type := mkCountUp {
  current : nat;
  displayScore : nat;
  ticking : bool;
}.

(** The effect has run: [let current = 0], the interval is set, and
    [displayScore] is at its initial state. *)
Definition start : CountUp :=
  {| current := 0; displayScore := 0; ticking := true |}.

(** The interval's callback, every 120 ms while it is set:
    [current++; setDisplayScore(current);
     if (current >= score) clearInterval(interval)]. *)
Definition tick (score : nat) (c : CountUp) : CountUp :=
  if ticking c then
    {| current := S (current c);
       displayScore := S (current c);
       ticking := negb (score <=? S (current c))%nat |}
  else c.

(** [n] periods of 120 ms go by. *)
Definition after (score n : nat) : CountUp :=
  Nat.iter n (tick score) start.

End Results.

(** ** A small audio library *)

Module SampleLibrary.

Import Backend.

(** One celebrity with clips in both trees, and a stray file next to
    the folder. *)
Definition lib : Library :=
  {| realRoot := Some (Resolver.Dir ["Obama"]);
     clonedRoot := true;
     tree := SampleTree.fs |}.

Definition draws (index : nat) : Draws :=
  {| u_real := 7; u_cloned := 7; u_position := 7 |}.

(** An earlier session in the store, with six right answers. *)
Definition db : Db :=
  {| game_sessions :=
       [{| user_id := "u0"; s_score := 6; s_rounds := [];
           total_replays := 0; session_duration := 0 |}];
     global_stats := Some {| high_score := 6; total_games := 1 |} |}.

End SampleLibrary.
(** * Properties *)

(** ** The Asset Resolver *)

Module ResolverFacts.

Import Js Resolver.

(** Rounding the product to a double never takes it up to [n]. *)
Lemma round53_lt (u n : N) :
  (u < two53)%N -> (0 < n)%N -> (round53 (u * n) / two53 < n)%N.
Proof.
  intros Hu Hn. unfold round53.
  destruct (u * n <? two53)%N eqn:Hsmall.
  { apply N.ltb_lt in Hsmall. rewrite N.div_small by done. done. }
  apply N.ltb_ge in Hsmall. cbv zeta.
  set (p := (u * n)%N) in *.
  assert (Hp : (0 < p)%N) by (unfold two53 in Hsmall; simpl in Hsmall; lia).
  destruct (N.log2_spec p Hp) as [Hlo Hhi].
  set (k := N.log2 p) in *.
  assert (Hk : (53 <= k)%N).
  { assert (Hlt : (2 ^ 53 < 2 ^ N.succ k)%N) by (unfold two53 in Hsmall; lia).
    apply N.pow_lt_mono_r_iff in Hlt; lia. }
  set (s := (k - 52)%N).
  assert (Hks : (2 ^ k = 2 ^ 52 * 2 ^ s)%N).
  { rewrite <- N.pow_add_r. f_equal. unfold s. lia. }
  assert (Hsh : (2 ^ s = 2 * 2 ^ (s - 1))%N).
  { rewrite <- N.pow_succ_r'. f_equal. unfold s. lia. }
  assert (Hh : (0 < 2 ^ (s - 1))%N) by (apply N.neq_0_lt_0, N.pow_nonzero; lia).
  pose proof (N.div_mod p (2 ^ s)) as Hdm.
  assert (Hr : (p mod 2 ^ s < 2 ^ s)%N) by (apply N.mod_lt; lia).
  set (q := (p / 2 ^ s)%N) in *. set (r := (p mod 2 ^ s)%N) in *.
  set (S := (2 ^ s)%N) in *. set (H := (2 ^ (s - 1))%N) in *.
  specialize (Hdm ltac:(lia)).
  assert (Hpn : (p + n <= two53 * n)%N) by (unfold p; nia).
  assert (H52 : (2 ^ 52 = 4503599627370496)%N) by reflexivity.
  assert (H53 : (two53 = 9007199254740992)%N) by reflexivity.
  rewrite H52 in Hks. rewrite H53 in *.
  apply N.Div0.div_lt_upper_bound.
  destruct ((H <? r)%N || ((r =? H)%N && N.odd q)) eqn:Hup.
  - assert (Hrh : (H <= r)%N).
    { apply orb_true_iff in Hup as [Hup|Hup].
      - apply N.ltb_lt in Hup. lia.
      - apply andb_true_iff in Hup as [Hup _]. apply N.eqb_eq in Hup. lia. }
    destruct (N.lt_ge_cases ((q + 1) * S) (9007199254740992 * n)) as [Hlt|Hge];
      [done|].
    exfalso.
    assert (Hqs : ((q + 1) * S = S * q + S)%N) by lia.
    assert (Hn' : (n <= H)%N) by lia.
    lia.
  - assert (Hqs : (q * S = S * q)%N) by lia. lia.
Qed.

Lemma floor_random_lt (u : N) (n : nat) :
  (0 < n)%nat -> (floor_random u n < n)%nat.
Proof.
  intros Hn. unfold floor_random.
  assert (Hm : (u mod two53 < two53)%N) by (apply N.mod_lt; discriminate).
  pose proof (round53_lt (u mod two53) (N.of_nat n) Hm ltac:(lia)) as Hlt.
  lia.
Qed.

Lemma is_empty_true (s : string) : is_empty s = true <-> s = EmptyString.
Proof. destruct s; simpl; split; congruence. Qed.

(** The candidate list is never empty when there is a [.wav] file, and
    it only holds [.wav] files of the folder. *)
Lemma candidates_incl (allFiles : list string) (exclude : option string) :
  candidates allFiles exclude ⊆ allFiles.
Proof.
  unfold candidates. destruct exclude as [e|]; [|done].
  destruct (is_empty e); [done|].
  destruct (List.filter _ allFiles) as [|f l] eqn:Hf; [done|].
  rewrite <- Hf. intros x Hx. apply list_elem_of_In in Hx.
  apply filter_In in Hx as [Hx _]. by apply list_elem_of_In.
Qed.

Lemma candidates_nonempty (allFiles : list string) (exclude : option string) :
  allFiles <> [] -> candidates allFiles exclude <> [].
Proof.
  intros Hne. unfold candidates. destruct exclude as [e|]; [|done].
  destruct (is_empty e); [done|].
  by destruct (List.filter _ allFiles).
Qed.

(** When every [.wav] file is the excluded one, the filter leaves
    nothing and the full list is kept. *)
Lemma candidates_only_broken (allFiles : list string) (e : string) :
  Forall (fun f => f = basename e) allFiles ->
  candidates allFiles (Some e) = allFiles.
Proof.
  intros Hall. unfold candidates. destruct (is_empty e); [done|].
  assert (Hnil : List.filter (fun f => negb (String.eqb f (basename e))) allFiles = []).
  { induction Hall as [|f l Hf _ IH]; [done|]. simpl.
    rewrite Hf, String.eqb_refl. simpl. exact IH. }
  by rewrite Hnil.
Qed.

(** The exclusion itself: if some other [.wav] file exists, the broken
    one is not among the candidates. *)
Lemma candidates_exclude (allFiles : list string) (e f : string) :
  e <> EmptyString -> f ∈ allFiles -> f <> basename e ->
  basename e ∉ candidates allFiles (Some e).
Proof.
  intros He Hf Hne. unfold candidates.
  destruct (is_empty e) eqn:Hemp; [by apply is_empty_true in Hemp|].
  destruct (List.filter _ allFiles) as [|x l] eqn:Hfil.
  - assert (Hin : In f (List.filter (fun f => negb (String.eqb f (basename e))) allFiles)).
    { apply filter_In. split; [by apply list_elem_of_In|].
      apply negb_true_iff, String.eqb_neq. exact Hne. }
    rewrite Hfil in Hin. destruct Hin.
  - rewrite <- Hfil. intros Hin. apply list_elem_of_In, filter_In in Hin as [_ Hin].
    rewrite String.eqb_refl in Hin. discriminate.
Qed.

Lemma nth_elem_of (l : list string) (i : nat) :
  (i < length l)%nat -> nth i l EmptyString ∈ l.
Proof. intros Hi. apply list_elem_of_In, nth_In. exact Hi. Qed.

Lemma audio_files_dir fs u celebrity category exclude c names :
  celebrity <> EmptyString ->
  parse_category category = Some c ->
  basePath fs c (basename celebrity) = Some (Dir names) ->
  List.filter is_wav names <> [] ->
  audio_files fs u celebrity category exclude =
    Json (file_path c (basename celebrity)
            (nth (floor_random u (length (candidates (List.filter is_wav names) exclude)))
                 (candidates (List.filter is_wav names) exclude) EmptyString)).
Proof.
  intros Hc Hcat Hdir Hwav. unfold audio_files.
  destruct (is_empty celebrity) eqn:Hemp; [by apply is_empty_true in Hemp|].
  rewrite Hcat. simpl. rewrite Hdir.
  by destruct (List.filter is_wav names).
Qed.

(** C9. For a request with a celebrity and one of the two categories,
    the resolver answers with an error exactly when the celebrity has
    no folder for that category or the folder holds no [.wav] file;
    when the folder holds at least one [.wav] file it answers with a
    [filePath] naming one of them; and when the excluded file is the
    only [.wav] file there, the answer is that same file. *)
Theorem audio_files_answer fs u celebrity category exclude c :
  celebrity <> EmptyString ->
  parse_category category = Some c ->
  (is_error (audio_files fs u celebrity category exclude) = true <->
     wav_files fs c celebrity = None \/ wav_files fs c celebrity = Some [])
  /\ (forall files, wav_files fs c celebrity = Some files -> files <> [] ->
        exists picked, picked ∈ files /\
          audio_files fs u celebrity category exclude =
            Json (file_path c (basename celebrity) picked))
  /\ (forall files e, wav_files fs c celebrity = Some files -> files <> [] ->
        exclude = Some e -> Forall (fun f => f = basename e) files ->
        audio_files fs u celebrity category exclude =
          Json (file_path c (basename celebrity) (basename e))).
Proof.
  intros Hc Hcat. unfold wav_files.
  destruct (basePath fs c (basename celebrity)) as [[|names]|] eqn:Hdir.
  - split; [|split]; [|discriminate..].
    unfold audio_files.
    destruct (is_empty celebrity) eqn:Hemp; [by apply is_empty_true in Hemp|].
    rewrite Hcat. simpl. rewrite Hdir. simpl. split; auto.
  - destruct (List.filter is_wav names) as [|f l] eqn:Hwav.
    + split; [|split]; [|intros ? [= <-]; done | intros ? ? [= <-]; done].
      unfold audio_files.
      destruct (is_empty celebrity) eqn:Hemp; [by apply is_empty_true in Hemp|].
      rewrite Hcat. simpl. rewrite Hdir, Hwav. simpl. split; auto.
    + assert (Hne : List.filter is_wav names <> []) by (by rewrite Hwav).
      pose proof (audio_files_dir fs u celebrity category exclude c names
                    Hc Hcat Hdir Hne) as Hr.
      rewrite Hwav in Hr. split; [|split].
      * rewrite Hr. simpl. split; [discriminate|]. intros [[=]|[=]].
      * intros files [= <-] _. eexists. split; [|exact Hr].
        apply (candidates_incl (f :: l) exclude), nth_elem_of, floor_random_lt.
        pose proof (candidates_nonempty (f :: l) exclude) as Hn.
        destruct (candidates (f :: l) exclude); [by destruct Hn|simpl; lia].
      * intros files e [= <-] _ -> Hall. rewrite Hr. do 2 f_equal.
        rewrite (candidates_only_broken _ _ Hall).
        assert (Hin : nth (floor_random u (length (f :: l))) (f :: l) EmptyString
                        ∈ f :: l).
        { apply nth_elem_of, floor_random_lt. simpl. lia. }
        rewrite Forall_forall in Hall. by apply Hall.
  - split; [|split]; [|discriminate..].
    unfold audio_files.
    destruct (is_empty celebrity) eqn:Hemp; [by apply is_empty_true in Hemp|].
    rewrite Hcat. simpl. rewrite Hdir. simpl. split; auto.
Qed.

(** The theorem at work: the only real clip of the sample tree is the
    excluded one, and the resolver hands it back. *)
Lemma audio_files_answer_witness :
  audio_files Sample.fs 7 "Obama" (Some "Real")
    (Some "/audio/Real/Obama/clip01.wav")
  = Json "/audio/Real/Obama/clip01.wav".
Proof.
  destruct (audio_files_answer Sample.fs 7 "Obama" (Some "Real")
              (Some "/audio/Real/Obama/clip01.wav") Real) as (_ & _ & Honly);
    [discriminate | reflexivity |].
  apply (Honly ["clip01.wav"] "/audio/Real/Obama/clip01.wav");
    [reflexivity | discriminate | reflexivity |].
  repeat constructor.
Defined.

End ResolverFacts.


(** ** The Preloader *)

Module PreloaderFacts.

Import Preloader.

Lemma discard_idemp (o : AudioObj) : discard (discard o) = discard o.
Proof. reflexivity. Qed.

(** Mutation through the references: the referenced positions are
    discarded, the others are untouched. *)
Lemma discard_all_lookup (refs : list nat) (objs : list AudioObj) (i : nat) :
  discard_all refs objs !! i =
    if bool_decide (i ∈ refs) then discard <$> objs !! i else objs !! i.
Proof.
  revert objs. induction refs as [|j refs IH]; intros objs.
  - rewrite bool_decide_eq_false_2; [done|]. apply not_elem_of_nil.
  - unfold discard_all in *. simpl. rewrite IH.
    destruct (decide (i = j)) as [->|Hne].
    + rewrite list_lookup_alter_eq.
      rewrite (bool_decide_eq_true_2 (j ∈ j :: refs)); [|by left].
      case_bool_decide; [|done].
      destruct (objs !! j); simpl; [|done]. by rewrite discard_idemp.
    + rewrite list_lookup_alter_ne; [|done].
      destruct (decide (i ∈ refs)) as [Hin|Hnin].
      * rewrite !bool_decide_eq_true_2; [done| by right | done].
      * rewrite !bool_decide_eq_false_2; [done| |done].
        rewrite elem_of_cons. tauto.
Qed.

Lemma teardown_no_live (h : Hook) : all_referenced h -> no_live (teardown h).
Proof.
  intros Href i (o & Hi & Hsrc). simpl in Hi.
  rewrite discard_all_lookup in Hi. case_bool_decide as Hin.
  - destruct (objects h !! i); by simplify_eq/=.
  - apply Hin, Href. by exists o.
Qed.

Lemma no_live_all_referenced (h : Hook) : no_live h -> all_referenced h.
Proof. intros Hn i Hi. by destruct (Hn i). Qed.

Lemma no_live_only_for (n : nat) (h : Hook) : no_live h -> live_only_for n h.
Proof. intros Hn i o Hi Hsrc. destruct (Hn i). by exists o. Qed.

Lemma create_lookup (n : nat) (s : string) (h : Hook) (i : nat) (o : AudioObj) :
  objects (create n s h) !! i = Some o ->
  objects h !! i = Some o \/ (i = length (objects h) /\ o = mkAudioObj "auto" s n).
Proof.
  simpl. intros Hi. apply lookup_app_Some in Hi as [Hi|[Hlen Hi]]; [by left|].
  right. apply list_lookup_singleton_Some in Hi as [Hz <-]. split; [lia|done].
Qed.

Lemma create_all_referenced (n : nat) (s : string) (h : Hook) :
  all_referenced h -> all_referenced (create n s h).
Proof.
  intros Href i (o & Hi & Hsrc). simpl. apply elem_of_app.
  apply create_lookup in Hi as [Hi|[-> _]].
  - left. apply Href. by exists o.
  - right. by apply list_elem_of_singleton.
Qed.

Lemma create_live_only_for (n : nat) (s : string) (h : Hook) :
  live_only_for n h -> live_only_for n (create n s h).
Proof.
  intros Hl i o Hi Hsrc. apply create_lookup in Hi as [Hi|[_ ->]]; [|done].
  by apply (Hl i).
Qed.

Lemma set_hasCleanup_live (b : bool) (h : Hook) (i : nat) :
  live (set_hasCleanup b h) i <-> live h i.
Proof. done. Qed.

Lemma effect_first_only_for rounds currentRound (h : Hook) :
  all_referenced h ->
  live_only_for (currentRound + 1) (effect_first rounds currentRound h).
Proof.
  intros Href. unfold effect_first.
  pose proof (teardown_no_live h Href) as Hn.
  destruct (length rounds <=? currentRound + 1)%nat;
    [by apply no_live_only_for|].
  destruct (rounds !! (currentRound + 1)); [|by apply no_live_only_for].
  by apply create_live_only_for, no_live_only_for.
Qed.

Lemma effect_only_for rounds currentRound (h : Hook) :
  all_referenced h ->
  live_only_for (currentRound + 1) (effect rounds currentRound h).
Proof.
  intros Href. unfold effect.
  pose proof (teardown_no_live h Href) as Hn.
  destruct (length rounds <=? currentRound + 1)%nat;
    [by apply (no_live_only_for _ (teardown h))|].
  destruct (rounds !! (currentRound + 1));
    [|by apply (no_live_only_for _ (teardown h))].
  intros i o Hi. revert i o Hi.
  by apply create_live_only_for, create_live_only_for, no_live_only_for.
Qed.

Lemma effect_all_referenced rounds currentRound (h : Hook) :
  all_referenced h -> all_referenced (effect rounds currentRound h).
Proof.
  intros Href. unfold effect.
  pose proof (no_live_all_referenced _ (teardown_no_live h Href)) as Hr.
  destruct (length rounds <=? currentRound + 1)%nat; [exact Hr|].
  destruct (rounds !! (currentRound + 1)); [|exact Hr].
  intros i Hi. apply set_hasCleanup_live in Hi. revert i Hi.
  by apply create_all_referenced, create_all_referenced.
Qed.

Lemma cleanup_all_referenced (h : Hook) :
  all_referenced h -> all_referenced (cleanup h).
Proof.
  intros Href. unfold cleanup. destruct (hasCleanup h); [|done].
  apply (no_live_all_referenced (teardown h)), teardown_no_live, Href.
Qed.

Lemma reachable_all_referenced (h : Hook) : reachable h -> all_referenced h.
Proof.
  induction 1 as [|h rounds currentRound _ IH|h _ IH].
  - intros i (o & Hi & _). done.
  - by apply effect_all_referenced, cleanup_all_referenced.
  - by apply cleanup_all_referenced.
Qed.

Lemma cleanup_only_for (n : nat) (h : Hook) :
  all_referenced h -> live_only_for n h -> live_only_for n (cleanup h).
Proof.
  intros Href Hl. unfold cleanup. destruct (hasCleanup h); [|done].
  by apply (no_live_only_for n (teardown h)), teardown_no_live.
Qed.

Lemma reachable_one_round (h : Hook) :
  reachable h -> exists n, live_only_for n h.
Proof.
  induction 1 as [|h rounds currentRound Hr _|h Hr [n IH]].
  - exists 0. intros i o Hi. done.
  - exists (currentRound + 1).
    by apply effect_only_for, cleanup_all_referenced, reachable_all_referenced.
  - exists n. by apply cleanup_only_for; [apply reachable_all_referenced|].
Qed.

Lemma create_refs_only_for (n : nat) (s : string) (h : Hook) :
  refs_only_for n h -> refs_only_for n (create n s h).
Proof.
  intros Href i Hi. simpl in Hi. apply elem_of_app in Hi as [Hi|Hi].
  - destruct (Href i Hi) as (o & Ho & Hn). exists o. split; [|done].
    simpl. rewrite lookup_app_l; [done|]. by apply lookup_lt_Some in Ho.
  - apply list_elem_of_singleton in Hi as ->.
    exists (mkAudioObj "auto" s n). split; [|done].
    simpl. by apply list_lookup_middle.
Qed.

Lemma effect_refs_only_for rounds currentRound (h : Hook) :
  refs_only_for (currentRound + 1) (effect rounds currentRound h).
Proof.
  assert (Hnil : refs_only_for (currentRound + 1) (teardown h)).
  { intros i Hi. simpl in Hi. by apply elem_of_nil in Hi. }
  unfold effect.
  destruct (length rounds <=? currentRound + 1)%nat; [exact Hnil|].
  destruct (rounds !! (currentRound + 1)); [|exact Hnil].
  intros i Hi. revert i Hi.
  by apply create_refs_only_for, create_refs_only_for.
Qed.

(** C7. When the round index changes, the effect first discards every
    buffer made for the previous next-round, and only then creates the
    two for the new one: right after the tear-down no buffer is live,
    after the first creation and at the end of the run the live
    buffers, and the buffers the array holds, all belong to round
    [currentRound + 1]; hence in no state of the hook do live buffers
    of two different rounds exist together. *)
Theorem preload_discards_before_creating (h : Hook) rounds currentRound :
  reachable h ->
  no_live (teardown (cleanup h))
  /\ preloadRefs (teardown (cleanup h)) = []
  /\ live_only_for (currentRound + 1) (effect_first rounds currentRound (cleanup h))
  /\ live_only_for (currentRound + 1) (rerun rounds currentRound h)
  /\ refs_only_for (currentRound + 1) (rerun rounds currentRound h)
  /\ (forall i j oi oj,
        objects h !! i = Some oi -> objects h !! j = Some oj ->
        src oi <> EmptyString -> src oj <> EmptyString ->
        forRound oi = forRound oj).
Proof.
  intros Hr.
  pose proof (cleanup_all_referenced h (reachable_all_referenced h Hr)) as Hc.
  split; [by apply teardown_no_live|]. split; [done|].
  split; [by apply effect_first_only_for|].
  split; [by apply effect_only_for|].
  split; [apply effect_refs_only_for|].
  destruct (reachable_one_round h Hr) as [n Hn].
  intros i j oi oj Hi Hj Hsi Hsj.
  rewrite (Hn i oi Hi Hsi), (Hn j oj Hj Hsj). done.
Qed.

(** The theorem at work: advancing from round 0 to round 1 of the
    sample session (two rounds) leaves nothing live after the
    tear-down. *)
Lemma preload_discards_before_creating_witness :
  no_live (teardown (cleanup (rerun Sample.rounds 0 initial))).
Proof.
  apply (preload_discards_before_creating
           (rerun Sample.rounds 0 initial) Sample.rounds 1).
  apply reach_rerun, reach_initial.
Defined.

(** C10. In the last round of the session, where no round exists at
    index [currentRound + 1], the effect creates nothing: after the
    tear-down its array stays empty, and no buffer is live. *)
Theorem preload_last_round_empty (h : Hook) rounds currentRound :
  reachable h ->
  length rounds <= currentRound + 1 ->
  preloadRefs (rerun rounds currentRound h) = []
  /\ no_live (rerun rounds currentRound h).
Proof.
  intros Hr Hlen. unfold rerun, effect.
  apply Nat.leb_le in Hlen. rewrite Hlen. split; [done|].
  intros i Hi. apply set_hasCleanup_live in Hi. revert i Hi.
  by apply teardown_no_live, cleanup_all_referenced, reachable_all_referenced.
Qed.

(** The theorem at work: round 1 is the last of the sample session. *)
Lemma preload_last_round_empty_witness :
  preloadRefs (rerun Sample.rounds 1 (rerun Sample.rounds 0 initial)) = [].
Proof.
  apply (preload_last_round_empty (rerun Sample.rounds 0 initial) Sample.rounds 1).
  - apply reach_rerun, reach_initial.
  - vm_compute. lia.
Defined.

End PreloaderFacts.

(** ** The Game component *)

Module GameFacts.

Import Game Session.

(** *** Reading through the updates *)

(** Closes a goal on fields of two states with equal cores. *)
Ltac by_core H :=
  unfold core in H; injection H; intros;
  unfold assetPair, audioProp, disabled, mounted, round;
  repeat match goal with E : _ = _ |- _ => rewrite E; clear E end;
  reflexivity.

Lemma chan_upd_chan (s s' : Side) (f : Channel -> Channel) (g : Game) :
  chan (upd_chan s f g) s' = if decide (s = s') then f (chan g s) else chan g s'.
Proof. by destruct s, s'. Qed.

Lemma core_upd_chan (s : Side) (f : Channel -> Channel) (g : Game) :
  core (upd_chan s f g) = core g.
Proof. by destruct s. Qed.

Lemma core_log_call (s : Side) (c : Call) (g : Game) :
  core (log_call s c g) = core g.
Proof. done. Qed.

Lemma core_render (prev g : Game) : core (render prev g) = core g.
Proof. unfold render. by rewrite !core_upd_chan. Qed.

Lemma core_roundChangeEffect (prev g : Game) :
  core (roundChangeEffect prev g) = core g.
Proof.
  unfold roundChangeEffect, reset_side. case_decide; [done|].
  by rewrite !core_log_call, !core_upd_chan, !core_log_call, !core_upd_chan.
Qed.

Lemma core_fallbackResetEffect (prev g : Game) :
  core (fallbackResetEffect prev g) = core g.
Proof.
  unfold fallbackResetEffect. case_decide; [done|]. by rewrite !core_upd_chan.
Qed.

Lemma core_commit (prev g : Game) : core (commit prev g) = core g.
Proof.
  unfold commit.
  by rewrite core_fallbackResetEffect, core_roundChangeEffect, core_render.
Qed.

(** The derived values depend on the core only. *)
Lemma core_round (g g' : Game) : core g = core g' -> round g = round g'.
Proof. intros Hc. by_core Hc. Qed.

Lemma core_assetPair (g g' : Game) : core g = core g' -> assetPair g = assetPair g'.
Proof. intros Hc. by_core Hc. Qed.

Lemma core_disabled (g g' : Game) : core g = core g' -> disabled g = disabled g'.
Proof. intros Hc. by_core Hc. Qed.

Lemma core_mounted (g g' : Game) : core g = core g' -> mounted g = mounted g'.
Proof. intros Hc. by_core Hc. Qed.

Lemma assetPair_inner (prev g : Game) :
  assetPair (roundChangeEffect prev (render prev g)) = assetPair g.
Proof.
  apply core_assetPair. by rewrite core_roundChangeEffect, core_render.
Qed.

Lemma assetPair_commit (prev g : Game) : assetPair (commit prev g) = assetPair g.
Proof. apply core_assetPair, core_commit. Qed.

Lemma attempts_commit (prev g : Game) : attempts (commit prev g) = attempts g.
Proof. pose proof (core_commit prev g) as Hc. by_core Hc. Qed.

Lemma selected_commit (prev g : Game) : selected (commit prev g) = selected g.
Proof. pose proof (core_commit prev g) as Hc. by_core Hc. Qed.

Lemma currentRound_commit (prev g : Game) :
  currentRound (commit prev g) = currentRound g.
Proof. pose proof (core_commit prev g) as Hc. by_core Hc. Qed.

Lemma roundResults_commit (prev g : Game) :
  roundResults (commit prev g) = roundResults g.
Proof. pose proof (core_commit prev g) as Hc. by_core Hc. Qed.

Lemma playRequestId_commit (prev g : Game) :
  playRequestId (commit prev g) = playRequestId g.
Proof. pose proof (core_commit prev g) as Hc. by_core Hc. Qed.

(** *** What a commit does to one channel *)

Lemma chan_render (prev g : Game) (s : Side) :
  chan (render prev g) s = reconcile prev g s (chan g s).
Proof. unfold render. by destruct s. Qed.

Lemma chan_roundChangeEffect (prev g : Game) (s : Side) :
  chan (roundChangeEffect prev g) s =
    if decide (currentRound prev = currentRound g) then chan g s
    else set_buffering false (set_playing false (on_audio el_pause (chan g s))).
Proof. unfold roundChangeEffect, reset_side. case_decide; [done|]. by destruct s. Qed.

Lemma chan_fallbackResetEffect (prev g : Game) (s : Side) :
  chan (fallbackResetEffect prev g) s =
    if decide (assetPair prev = assetPair g) then chan g s
    else reset_fallback (chan g s).
Proof. unfold fallbackResetEffect. case_decide; [done|]. by destruct s. Qed.

Lemma retries_reconcile (prev g : Game) (s : Side) (c : Channel) :
  retries (reconcile prev g s c) = retries c
  /\ fallbackActive (reconcile prev g s c) = fallbackActive c
  /\ playing (reconcile prev g s c) = playing c.
Proof.
  unfold reconcile. destruct (mounted g); [|done].
  destruct (audio c); [|done]. by case_decide.
Qed.

(** After a commit the retry counter and the single-flight flag are
    those of the handler's result, unless the asset pair changed. *)
Lemma retries_commit (prev g : Game) (s : Side) :
  retries (chan (commit prev g) s) =
    if decide (assetPair prev = assetPair g) then retries (chan g s) else 0.
Proof.
  unfold commit. rewrite chan_fallbackResetEffect.
  rewrite assetPair_inner.
  case_decide; [|done].
  rewrite chan_roundChangeEffect, chan_render.
  case_decide; simpl; apply retries_reconcile.
Qed.

Lemma fallbackActive_commit (prev g : Game) (s : Side) :
  fallbackActive (chan (commit prev g) s) =
    if decide (assetPair prev = assetPair g) then fallbackActive (chan g s)
    else false.
Proof.
  unfold commit. rewrite chan_fallbackResetEffect.
  rewrite assetPair_inner.
  case_decide; [|done].
  rewrite chan_roundChangeEffect, chan_render.
  case_decide; simpl; apply retries_reconcile.
Qed.

(** *** The handlers, one by one *)

Ltac unfold_handlers :=
  unfold handle, roundsLoaded, togglePlay, replay, handleSelect, playTaken,
    playRejected,
    handleAudioError, fetchSettled, readyResolved, readyRejected, resumeSettled,
    resultTimer, advanceTimer, abandon, finish, stopAll, start_play, stop_side.

Ltac split_cases := repeat (case_match; simplify_eq/=; try done).

Lemma foldl_then_callback (side : Side) (ids : list nat) (g : Game) :
  foldl (fun acc id => then_callback side id acc) g ids =
    if existsb (Nat.eqb (playRequestId g)) ids
    then upd_chan side (set_playing true) g else g.
Proof.
  revert g. induction ids as [|id ids IH]; intros g; [done|]. simpl.
  rewrite IH. unfold then_callback.
  destruct (playRequestId g =? id)%nat eqn:Hid; simpl; [|done].
  replace (playRequestId (upd_chan side (set_playing true) g))
    with (playRequestId g) by (by destruct side).
  destruct (existsb _ ids); [|done]. by destruct side.
Qed.

Lemma playResolved_unfold (side : Side) (g : Game) :
  playResolved side g =
    match resolving (chan g side) with
    | [] => g
    | ids :: rest =>
        if existsb (Nat.eqb (playRequestId g)) ids
        then upd_chan side (set_playing true) (upd_chan side (set_resolving rest) g)
        else upd_chan side (set_resolving rest) g
    end.
Proof.
  unfold playResolved. destruct (resolving (chan g side)) as [|ids rest]; [done|].
  rewrite foldl_then_callback. by destruct side.
Qed.

(** [handleAudioError] either returns at one of its three guards, or
    starts an attempt: flag set, counter plus one, one request out. *)
Lemma handleAudioError_cases (side : Side) (g : Game) :
  (handleAudioError side g = g
   /\ (disabled g = true \/ MAX_AUDIO_RETRIES <= retries (chan g side)
       \/ fallbackActive (chan g side) = true))
  \/ (disabled g = false /\ retries (chan g side) < MAX_AUDIO_RETRIES
      /\ fallbackActive (chan g side) = false
      /\ exists t,
          handleAudioError side g =
            set_attempts (attempts g ++ [t])
              (upd_chan side
                 (fun c => set_retries (retries c + 1) (set_fallbackActive true c)) g)
          /\ at_side t = side /\ at_wasPlaying t = playing (chan g side)
          /\ at_phase t = Fetching).
Proof.
  unfold handleAudioError.
  destruct (disabled g); [left; auto|].
  destruct (MAX_AUDIO_RETRIES <=? retries (chan g side))%nat eqn:Hmax.
  { apply Nat.leb_le in Hmax. left; auto. }
  apply Nat.leb_gt in Hmax.
  destruct (fallbackActive (chan g side)) eqn:Hact; [left; auto|].
  right. repeat split; [done..|]. eexists. repeat split.
Qed.

(** Case analysis on every side that an update or a read depends on. *)
Ltac destruct_sides :=
  repeat match goal with
  | |- context [upd_chan ?s _ _] =>
      lazymatch s with
      | Left => fail
      | Right => fail
      | _ => destruct s eqn:?; simpl
      end
  | |- context [chan _ ?s] =>
      lazymatch s with
      | Left => fail
      | Right => fail
      | _ => destruct s eqn:?; simpl
      end
  end.

(** Only [handleAudioError] writes the retry counter, and it adds one. *)
Lemma retries_handle (e : Event) (g : Game) (s : Side) :
  retries (chan (handle e g) s) = retries (chan g s)
  \/ (e = AudioError s /\ retries (chan g s) < MAX_AUDIO_RETRIES
      /\ retries (chan (handle e g) s) = retries (chan g s) + 1).
Proof.
  destruct e as [| | | | | | | | | |side| | | | | |];
    [..|destruct (handleAudioError_cases side g)
           as [[Hg _]|(_ & Hlt & _ & t & Hg & _)]; simpl; rewrite Hg;
         [by left|destruct side, s; simpl; auto]|idtac|idtac|idtac|idtac|idtac|idtac];
    try rewrite playResolved_unfold; unfold_handlers; simpl;
    try rewrite playResolved_unfold; split_cases;
    destruct_sides; split_cases; auto.
Qed.

(** Opens the handler of the event at hand into its cases. *)
Ltac open_handler :=
  unfold handle; rewrite ?playResolved_unfold; unfold_handlers; simpl;
  split_cases; destruct_sides; split_cases.

(** The continuations of an attempt only move its phase; the request
    it stands for stays. *)
Lemma requests_in_alter (side : Side) (p : Phase) (k : nat) (l : list Attempt) :
  requests_in side (alter (set_phase p) k l) = requests_in side l.
Proof.
  revert k. induction l as [|t l IH]; intros k; [done|].
  destruct k as [|k]; unfold requests_in in *; simpl.
  - by destruct (bool_decide (at_side t = side)).
  - specialize (IH k). destruct (bool_decide (at_side t = side)); simpl;
      [f_equal|]; exact IH.
Qed.

Lemma requests_in_snoc (side : Side) (l : list Attempt) (t : Attempt) :
  requests_in side (l ++ [t]) =
    requests_in side l ++ (if decide (at_side t = side) then [at_request t] else []).
Proof.
  unfold requests_in. rewrite List.filter_app, fmap_app. simpl.
  case_bool_decide; case_decide; done.
Qed.

(** Only [handleAudioError], past its guards, sends a request. *)
Lemma requests_handle (e : Event) (g : Game) (s : Side) :
  requests s (handle e g) = requests s g
  \/ (e = AudioError s /\ retries (chan g s) < MAX_AUDIO_RETRIES
      /\ disabled g = false /\ fallbackActive (chan g s) = false
      /\ exists rq, requests s (handle e g) = requests s g ++ [rq]).
Proof.
  unfold requests.
  destruct e as [| | | | | | | | | |side| | | | | |];
    try (left; open_handler; by rewrite ?requests_in_alter).
  change (handle (AudioError side) g) with (handleAudioError side g).
  destruct (handleAudioError_cases side g)
    as [[Hg _]|(Hd & Hlt & Hact & t & Hg & Hside & _)]; rewrite Hg; [by left|].
  replace (attempts (set_attempts (attempts g ++ [t]) _)) with (attempts g ++ [t])
    by done.
  rewrite requests_in_snoc, Hside. case_decide as Hs.
  - subst s. right. eauto 10.
  - left. by rewrite app_nil_r.
Qed.

Lemma requests_commit (prev g : Game) (s : Side) :
  requests s (commit prev g) = requests s g.
Proof. unfold requests. by rewrite attempts_commit. Qed.

(** *** Retry counter and single-flight flag along the events *)

(** The single-flight flag falls only where an attempt on that side
    ends. *)
Lemma fallbackActive_handle (e : Event) (g : Game) (s : Side) :
  fallbackActive (chan g s) = true ->
  fallbackActive (chan (handle e g) s) = false ->
  exists k t, ends_attempt e k /\ attempts g !! k = Some t /\ at_side t = s
    /\ at_phase t <> Done
    /\ attempts (handle e g) !! k = Some (set_phase Done t).
Proof.
  destruct e as [| | | | | | | | | |side| | | | | |];
    try (open_handler; congruence).
  all: intros Hon Hoff; exists k; revert Hon Hoff; open_handler; try congruence.
  all: intros; eexists; rewrite list_lookup_alter_eq;
    repeat split; try eassumption; try congruence;
    match goal with H : attempts _ !! _ = Some _ |- _ => by rewrite H end.
Qed.

Lemma assetPair_step (e : Event) (g : Game) :
  assetPair (step e g) = assetPair (handle e g).
Proof. apply assetPair_commit. Qed.

(** Within a round's assets the retry counter never goes down. *)
Lemma retries_step (e : Event) (g : Game) (s : Side) :
  assetPair (step e g) = assetPair g ->
  retries (chan g s) <= retries (chan (step e g) s).
Proof.
  rewrite assetPair_step. unfold step. rewrite retries_commit. intros Hpair.
  rewrite decide_True by done.
  destruct (retries_handle e g s) as [->|(_ & _ & ->)]; lia.
Qed.

Lemma attempts_upd_chan (s : Side) (f : Channel -> Channel) (g : Game) :
  attempts (upd_chan s f g) = attempts g.
Proof. by destruct s. Qed.

Lemma finish_lookup (k' : nat) (side : Side) (c : Game) (k : nat) :
  attempts (finish k' side c) !! k
    = if decide (k = k') then set_phase Done <$> attempts c !! k
      else attempts c !! k.
Proof.
  unfold finish. simpl.
  case_decide as Hk; [subst k'; apply list_lookup_alter_eq|].
  by apply list_lookup_alter_ne.
Qed.

Lemma finish_flag (k' : nat) (side : Side) (c : Game) :
  fallbackActive (chan (finish k' side c) side) = false.
Proof. unfold finish. by destruct side. Qed.

(** An attempt reaches its end only in one of the three events that
    run its [finally] block, and the flag of its side is clear
    afterwards. *)
Lemma attempt_ends_handle (e : Event) (g : Game) (k : nat) (t : Attempt) :
  attempts g !! k = Some t -> at_phase t <> Done ->
  at_phase <$> attempts (handle e g) !! k = Some Done ->
  ends_attempt e k
  /\ fallbackActive (chan (handle e g) (at_side t)) = false
  /\ attempts (handle e g) !! k = Some (set_phase Done t).
Proof.
  intros Hk Hnd.
  assert (Hsame : forall g', attempts g' = attempts g ->
            at_phase <$> attempts g' !! k = Some Done -> False).
  { intros g' ->. rewrite Hk. simpl. congruence. }
  assert (Hmove : forall k' p c, attempts c = attempts g -> p <> Done ->
            at_phase <$> attempts (set_attempts
                                     (alter (set_phase p) k' (attempts g)) c) !! k
              = Some Done -> False).
  { intros k' p c Hc Hp. simpl.
    destruct (decide (k = k')) as [<-|Hne].
    - rewrite list_lookup_alter_eq, Hk. simpl. congruence.
    - rewrite list_lookup_alter_ne, Hk by done. simpl. congruence. }
  assert (Hend : forall k' t' c, attempts c = attempts g ->
            attempts g !! k' = Some t' ->
            at_phase <$> attempts (finish k' (at_side t') c) !! k = Some Done ->
            k' = k
            /\ fallbackActive (chan (finish k' (at_side t') c) (at_side t)) = false
            /\ attempts (finish k' (at_side t') c) !! k = Some (set_phase Done t)).
  { intros k' t' c Hc Hk'. rewrite finish_lookup, Hc.
    case_decide as Hkk; [subst k'|rewrite Hk; simpl; congruence].
    intros _. rewrite Hk in Hk'. injection Hk' as <-.
    split; [done|]. split; [apply finish_flag|by rewrite Hk]. }
  destruct e as [rs|side|side|side now|side|side|side|side|side|side|side
                |k' res|k'|k'|k' ok| |now];
    try (intros Hd; exfalso; revert Hd; apply Hsame; open_handler; done).
  - (* AudioError *)
    change (handle (AudioError side) g) with (handleAudioError side g).
    destruct (handleAudioError_cases side g)
      as [[-> _]|(_ & _ & _ & t0 & -> & _)];
      [intros Hd; exfalso; revert Hd; by apply Hsame|].
    simpl.
    rewrite lookup_app_l by (by apply lookup_lt_Some in Hk).
    rewrite Hk. simpl. congruence.
  - (* FetchSettled *)
    unfold handle, fetchSettled.
    destruct (attempts g !! k') as [t'|] eqn:Hk';
      [|intros Hd; exfalso; revert Hd; by apply Hsame].
    destruct (at_phase t');
      try (intros Hd; exfalso; revert Hd; by apply Hsame).
    assert (Habandon : at_phase <$> attempts (abandon k' (at_side t') g) !! k
                         = Some Done ->
              k' = k
              /\ fallbackActive (chan (abandon k' (at_side t') g) (at_side t)) = false
              /\ attempts (abandon k' (at_side t') g) !! k = Some (set_phase Done t)).
    { unfold abandon. apply Hend; [apply attempts_upd_chan|done]. }
    destruct res as [| |[filePath|]]; try exact Habandon.
    destruct (Js.is_empty filePath); [exact Habandon|].
    destruct (audio (chan g (at_side t'))) as [a|]; [|by apply Hend].
    destruct (at_wasPlaying t').
    + rewrite attempts_upd_chan. intros Hd. exfalso. revert Hd.
      apply Hmove; [apply attempts_upd_chan|done].
    + apply Hend; [apply attempts_upd_chan|done].
  - (* ReadyResolved *)
    unfold handle, readyResolved.
    destruct (attempts g !! k') as [t'|] eqn:Hk';
      [|intros Hd; exfalso; revert Hd; by apply Hsame].
    destruct (at_phase t');
      try (intros Hd; exfalso; revert Hd; by apply Hsame).
    intros Hd. exfalso. revert Hd. apply Hmove; [apply attempts_upd_chan|done].
  - (* ReadyRejected *)
    unfold handle, readyRejected.
    destruct (attempts g !! k') as [t'|] eqn:Hk';
      [|intros Hd; exfalso; revert Hd; by apply Hsame].
    destruct (at_phase t');
      try (intros Hd; exfalso; revert Hd; by apply Hsame).
    unfold abandon. apply Hend; [apply attempts_upd_chan|done].
  - (* ResumeSettled *)
    unfold handle, resumeSettled.
    destruct (attempts g !! k') as [t'|] eqn:Hk';
      [|intros Hd; exfalso; revert Hd; by apply Hsame].
    destruct (at_phase t');
      try (intros Hd; exfalso; revert Hd; by apply Hsame).
    destruct ok; unfold abandon; apply Hend; try apply attempts_upd_chan; done.
Qed.

(** C2, as amended. The retry counter and the single-flight flag of a
    channel are set to zero and false by every event that changes the
    round's pair of asset references.  An event that leaves the pair
    as it is never lowers the retry counter.  The single-flight flag,
    however, also falls within the round: an event in which a fallback
    attempt on the channel reaches its end ([finally]) leaves the flag
    clear, whichever way the attempt ended; and the flag falls in no
    other event, for when it falls, an attempt on that channel that
    was not over before the event is over after it. *)
Theorem fallback_state_reset (e : Event) (g : Game) (s : Side) :
  (assetPair (step e g) <> assetPair g ->
     retries (chan (step e g) s) = 0
     /\ fallbackActive (chan (step e g) s) = false)
  /\ (assetPair (step e g) = assetPair g ->
        retries (chan g s) <= retries (chan (step e g) s)
        /\ (fallbackActive (chan g s) = true ->
            fallbackActive (chan (step e g) s) = false ->
            exists k t, ends_attempt e k /\ attempts g !! k = Some t
              /\ at_side t = s /\ at_phase t <> Done
              /\ attempts (step e g) !! k = Some (set_phase Done t)))
  /\ (forall k t, attempts g !! k = Some t -> at_side t = s ->
        at_phase t <> Done ->
        at_phase <$> attempts (step e g) !! k = Some Done ->
        ends_attempt e k
        /\ fallbackActive (chan (step e g) s) = false
        /\ attempts (step e g) !! k = Some (set_phase Done t)).
Proof.
  rewrite assetPair_step. unfold step. rewrite attempts_commit.
  rewrite retries_commit, fallbackActive_commit. split; [|split].
  - intros Hpair. rewrite !decide_False by congruence. auto.
  - intros Hpair. rewrite !decide_True by done. split.
    + pose proof (retries_step e g s) as Hle. rewrite assetPair_step in Hle.
      unfold step in Hle. rewrite retries_commit, decide_True in Hle by done.
      by apply Hle.
    + intros Hon Hoff.
      destruct (fallbackActive_handle e g s Hon Hoff)
        as (k & t & ? & ? & ? & ? & ?).
      exists k, t. auto.
  - intros k t Hk Hside Hnd Hdone.
    destruct (attempt_ends_handle e g k t Hk Hnd Hdone) as (He & Hflag & Hatt).
    rewrite Hside in Hflag. split; [done|]. split; [|done].
    case_decide; [done|done].
Qed.

(** C2, as the specification words it, fails for the single-flight
    flag: the resolver request of the left channel fails while round 0
    goes on; the asset pair is the same before and after, and the flag
    falls from true to false. *)
Lemma flag_cleared_within_round :
  reachable Sample.fetching
  /\ assetPair (step (FetchSettled 0 FetchThrows) Sample.fetching)
       = assetPair Sample.fetching
  /\ fallbackActive (chan Sample.fetching Left) = true
  /\ fallbackActive
       (chan (step (FetchSettled 0 FetchThrows) Sample.fetching) Left) = false.
Proof.
  split; [apply reach_step, reach_step, reach_initial|].
  vm_compute. auto.
Qed.

(** *** The retry budget *)

Lemma exhausted_step (side : Side) (e : Event) (g : Game) :
  MAX_AUDIO_RETRIES <= retries (chan g side) ->
  assetPair (step e g) = assetPair g ->
  requests side (step e g) = requests side g
  /\ MAX_AUDIO_RETRIES <= retries (chan (step e g) side).
Proof.
  intros Hmax Hpair. split.
  - unfold step. rewrite requests_commit.
    destruct (requests_handle e g side) as [->|(_ & Hlt & _)]; [done|lia].
  - pose proof (retries_step e g side Hpair). lia.
Qed.

(** C3. Once a channel has used its budget of three fallback attempts,
    no event of the round makes it send another resolver request: as
    long as the round's asset pair stays (until the next load), the
    list of its requests is the same, the counter stays at the cap,
    and every further failure report returns without any effect. *)
Theorem exhausted_channel_stays_silent (side : Side) (es : list Event) (g : Game) :
  MAX_AUDIO_RETRIES <= retries (chan g side) ->
  keeps assetPair es g ->
  requests side (run es g) = requests side g
  /\ MAX_AUDIO_RETRIES <= retries (chan (run es g) side)
  /\ handleAudioError side (run es g) = run es g.
Proof.
  revert g. induction es as [|e es IH]; intros g Hmax Hkeep.
  - simpl. split; [done|]. split; [done|].
    destruct (handleAudioError_cases side g) as [[Hg _]|(_ & Hlt & _)]; [done|lia].
  - destruct Hkeep as [Hpair Hkeep].
    destruct (exhausted_step side e g Hmax Hpair) as [Hreq Hmax'].
    destruct (IH (step e g) Hmax' Hkeep) as (IH1 & IH2 & IH3).
    change (run (e :: es) g) with (run es (step e g)).
    by rewrite IH1, Hreq.
Qed.

(** The theorem at work: after three failed attempts on the left
    channel, more failures and other activity of round 0 add no
    request. *)
Lemma exhausted_channel_stays_silent_witness :
  requests Left
    (run [AudioError Left; TogglePlay Right; AudioError Left] Sample.exhausted)
  = requests Left Sample.exhausted.
Proof.
  apply (exhausted_channel_stays_silent Left
           [AudioError Left; TogglePlay Right; AudioError Left] Sample.exhausted).
  - vm_compute. lia.
  - vm_compute. auto.
Defined.

(** *** Committed states *)

Lemma mounted_commit (prev g : Game) : mounted (commit prev g) = mounted g.
Proof. apply core_mounted, core_commit. Qed.

Lemma audio_reconcile (prev g : Game) (s : Side) (c : Channel) :
  if mounted g then is_Some (audio (reconcile prev g s c))
  else audio (reconcile prev g s c) = None.
Proof.
  unfold reconcile. destruct (mounted g); [|done].
  destruct (audio c) eqn:Ha; [|by eexists].
  case_decide; [|by eexists]. rewrite Ha. by eexists.
Qed.

Lemma committed_commit (prev g : Game) : committed (commit prev g).
Proof.
  intros s. rewrite mounted_commit. unfold commit.
  rewrite chan_fallbackResetEffect, chan_roundChangeEffect, chan_render.
  pose proof (audio_reconcile prev g s (chan g s)) as Hrec.
  set (c := reconcile prev g s (chan g s)) in *.
  match goal with
  | |- context [audio ?x] =>
      assert (Haud : audio x = audio c \/ audio x = el_pause <$> audio c)
        by (repeat case_decide; simpl; auto)
  end.
  destruct (mounted g); destruct Haud as [-> | ->]; try done.
  - destruct Hrec as [a ->]. by eexists.
  - by rewrite Hrec.
Qed.

Lemma reachable_committed (g : Game) : reachable g -> committed g.
Proof.
  destruct 1 as [now|e g _]; [|apply committed_commit].
  intros s. by destruct s.
Qed.

Lemma reconcile_id (g : Game) (s : Side) :
  committed g -> reconcile g g s (chan g s) = chan g s.
Proof.
  intros Hc. specialize (Hc s). unfold reconcile.
  destruct (mounted g).
  - destruct Hc as [a ->]. by rewrite decide_True.
  - destruct (chan g s). simpl in *. by subst.
Qed.

(** A commit with nothing to do: no prop changed, no effect runs. *)
Lemma commit_id (g : Game) : committed g -> commit g g = g.
Proof.
  intros Hc. unfold commit, fallbackResetEffect.
  rewrite assetPair_inner.
  rewrite (decide_True (P := assetPair g = assetPair g)) by done.
  unfold roundChangeEffect.
  replace (currentRound (render g g)) with (currentRound g) by (by destruct g).
  rewrite (decide_True (P := currentRound g = currentRound g)) by done.
  unfold render.
  pose proof (reconcile_id g Left Hc) as Hl.
  pose proof (reconcile_id g Right Hc) as Hr.
  simpl in Hl, Hr. simpl. rewrite Hl. simpl. rewrite Hr. by destruct g.
Qed.

Lemma reachable_run (es : list Event) (g : Game) :
  reachable g -> reachable (run es g).
Proof.
  revert g. induction es as [|e es IH]; intros g Hg; [done|].
  apply (IH (step e g)). by constructor.
Qed.

(** C8. A failure reported while the controller is disabled (a side
    is selected, or the transition to the next round is under way) is
    ignored: [handleAudioError] returns the state as it got it, so no
    request goes out, the retry counter, the single-flight flag and
    the playing state stay; the whole event changes nothing. *)
Theorem failure_ignored_when_disabled (side : Side) (g : Game) :
  is_Some (selected g) \/ transitioning g = true ->
  handleAudioError side g = g
  /\ requests side (handleAudioError side g) = requests side g
  /\ (reachable g -> step (AudioError side) g = g).
Proof.
  intros Hdis.
  assert (Hd : disabled g = true).
  { unfold disabled. destruct Hdis as [Hsel| ->].
    - by rewrite bool_decide_eq_true_2.
    - apply orb_true_r. }
  assert (Hg : handleAudioError side g = g).
  { unfold handleAudioError. by rewrite Hd. }
  split; [done|]. split; [by rewrite Hg|].
  intros Hr. unfold step. simpl. rewrite Hg.
  by apply commit_id, reachable_committed.
Qed.

(** The theorem at work: the right clip fails while the result of
    round 0 is on display. *)
Lemma failure_ignored_when_disabled_witness :
  handleAudioError Right Sample.decided = Sample.decided.
Proof.
  refine (proj1 (failure_ignored_when_disabled Right Sample.decided _)).
  left. vm_compute. by eexists.
Defined.

(** *** Selection *)

Lemma handleSelect_rejected (side : Side) (now : Z) (g : Game) :
  is_Some (selected g) -> handleSelect side now g = g.
Proof.
  intros Hsel. unfold handleSelect. by rewrite bool_decide_eq_true_2.
Qed.

(** What an accepted selection writes. *)
Lemma handleSelect_accepted (side : Side) (now : Z) (g : Game) (r : RoundSetup) :
  selected g = None -> transitioning g = false -> round g = Some r ->
  selected (handleSelect side now g) = Some side
  /\ currentRound (handleSelect side now g) = currentRound g
  /\ isCorrect (handleSelect side now g) = bool_decide (side = realPosition r)
  /\ showResult (handleSelect side now g) = true
  /\ playing (chan (handleSelect side now g) Left) = false
  /\ playing (chan (handleSelect side now g) Right) = false
  /\ roundResults (handleSelect side now g) =
       roundResults g ++
       [{| roundNum := currentRound g + 1;
           celebrity := celebrity_name r;
           rd_realAudio := realAudio r;
           rd_fakeAudio := fakeAudio r;
           rd_realPosition := realPosition r;
           userChoice := side;
           correct := bool_decide (side = realPosition r);
           replayCountLeft := replayCount (chLeft g);
           replayCountRight := replayCount (chRight g);
           timeSpent := round_seconds (now - roundStartTime g) |}].
Proof.
  intros Hsel Htr Hr. unfold handleSelect.
  rewrite Hsel, Htr, Hr. rewrite bool_decide_eq_false_2; [|by intros [? ?]].
  simpl. repeat split.
Qed.

(** C6. The outcome appended by an accepted selection carries the
    selected side as [userChoice], and [correct] is true exactly when
    that side is the round's authentic position; so the authentic clip
    on the left and the selection of the left give [correct = true]
    and [userChoice = Left]. *)
Theorem outcome_records_choice (side : Side) (now : Z) (g : Game) (r : RoundSetup) :
  selected g = None -> transitioning g = false -> round g = Some r ->
  exists result,
    roundResults (step (Select side now) g) = roundResults g ++ [result]
    /\ userChoice result = side
    /\ (correct result = true <-> side = realPosition r)
    /\ rd_realPosition result = realPosition r
    /\ (realPosition r = Left -> side = Left ->
        correct result = true /\ userChoice result = Left).
Proof.
  intros Hsel Htr Hr.
  destruct (handleSelect_accepted side now g r Hsel Htr Hr)
    as (_ & _ & _ & _ & _ & _ & Hres).
  eexists. unfold step. rewrite roundResults_commit. simpl handle.
  split; [exact Hres|]. simpl. split; [done|].
  split; [apply bool_decide_eq_true|]. split; [done|].
  intros Hl ->. split; [|done]. by apply bool_decide_eq_true.
Qed.

(** The theorem at work: round 0 of the sample session has the
    authentic clip on the left, and the listener picks the left. *)
Lemma outcome_records_choice_witness :
  exists result,
    roundResults Sample.decided = [result]
    /\ userChoice result = Left /\ correct result = true.
Proof.
  destruct (outcome_records_choice Left 2600 Sample.started
              {| celebrity_name := "Obama"; celebrity_photoUrl := Some "/images/Obama.jpg";
                 realAudio := "/audio/Real/Obama/a.wav";
                 fakeAudio := "/audio/Cloned/Obama/b.wav";
                 realPosition := Left |})
    as (result & Hres & Hchoice & Hcorrect & _); [reflexivity..|].
  exists result. split; [exact Hres|]. split; [exact Hchoice|].
  by apply Hcorrect.
Defined.

Lemma timers_ok_core (g g' : Game) : core g = core g' -> timers_ok g -> timers_ok g'.
Proof.
  intros Hc. unfold core in Hc. injection Hc; intros. unfold timers_ok in *.
  repeat match goal with E : _ = _ |- _ => rewrite <- E; clear E end. done.
Qed.

Lemma timers_ok_handle (e : Event) (g : Game) : timers_ok g -> timers_ok (handle e g).
Proof.
  unfold timers_ok. intros [Hle Hnone].
  destruct e;
    try (open_handler; first [done | split; simpl in *; [lia|done] | by split]).
  - (* Select *)
    destruct (selected g) as [s0|] eqn:Hsel.
    { simpl handle. rewrite handleSelect_rejected by (rewrite Hsel; by eexists).
      rewrite Hsel. by split. }
    destruct (Hnone eq_refl) as (Htr & Hrt & Hat).
    unfold handle, handleSelect. rewrite Hsel, Htr.
    rewrite bool_decide_eq_false_2 by (by intros [? ?]). simpl.
    destruct (round g); [|by auto].
    simpl. rewrite Hrt, Hat. simpl. split; [lia|done].
  - (* ResultTimer *)
    unfold handle, resultTimer.
    destruct (resultTimers g) as [|[cr res] rest] eqn:Hrt.
    { rewrite Hrt. auto. }
    simpl in Hle.
    destruct (TOTAL_ROUNDS <=? cr + 1)%nat; simpl; (split; [lia|]);
      intros Hsel; destruct (Hnone Hsel) as (_ & ? & _); discriminate.
  - (* AdvanceTimer *)
    unfold handle, advanceTimer.
    destruct (advanceTimers g) as [|n] eqn:Hat.
    { rewrite Hat. auto. }
    assert (n = 0 /\ resultTimers g = []) as [-> Hrt].
    { destruct (resultTimers g); simpl in *; [split; [lia|done]|lia]. }
    simpl. rewrite Hrt. simpl. split; [lia|done].
Qed.

Lemma reachable_timers_ok (g : Game) : reachable g -> timers_ok g.
Proof.
  induction 1 as [now|e g _ IH]; [split; simpl; [lia|done]|].
  apply (timers_ok_core (handle e g)); [symmetry; apply core_commit|].
  by apply timers_ok_handle.
Qed.

(** Within a round, a selection made stays made: only the
    1500 ms timeout clears it, and that moves [currentRound]. *)
Lemma selected_handle (e : Event) (g : Game) :
  currentRound (handle e g) = currentRound g ->
  is_Some (selected g) -> is_Some (selected (handle e g)).
Proof.
  intros Hcr [side Hsel]. revert Hcr.
  destruct e; open_handler; intros; try (by eexists); simpl in *; lia.
Qed.

Lemma selected_run (es : list Event) (g : Game) :
  keeps currentRound es g -> is_Some (selected g) ->
  is_Some (selected (run es g)).
Proof.
  revert g. induction es as [|e es IH]; intros g Hkeep Hsel; [done|].
  destruct Hkeep as [Hcr Hkeep]. apply (IH (step e g) Hkeep).
  unfold step in *. rewrite selected_commit. rewrite currentRound_commit in Hcr.
  by apply selected_handle.
Qed.

(** C5. In a round open for selection the first [handleSelect] is
    accepted: it records the side and appends one outcome.  From then
    on, whatever else happens in that round, a further selection is an
    event without any effect: the state after it is the state before
    it. *)
Theorem selection_is_idempotent (side : Side) (now : Z) (g : Game) :
  reachable g -> selected g = None -> is_Some (round g) ->
  selected (step (Select side now) g) = Some side
  /\ length (roundResults (step (Select side now) g))
       = S (length (roundResults g))
  /\ forall es side' now',
       keeps currentRound es (step (Select side now) g) ->
       step (Select side' now') (run es (step (Select side now) g))
         = run es (step (Select side now) g).
Proof.
  intros Hr Hsel [r Hround].
  destruct (reachable_timers_ok g Hr) as [_ Hnone].
  destruct (Hnone Hsel) as (Htr & _).
  destruct (handleSelect_accepted side now g r Hsel Htr Hround)
    as (Hs & _ & _ & _ & _ & _ & Hres).
  assert (Hs' : selected (step (Select side now) g) = Some side).
  { unfold step. by rewrite selected_commit. }
  split; [exact Hs'|]. split.
  { unfold step. rewrite roundResults_commit. simpl handle. rewrite Hres.
    rewrite length_app. simpl. lia. }
  intros es side' now' Hkeep.
  set (g1 := step (Select side now) g) in *.
  assert (Hsome : is_Some (selected (run es g1))).
  { apply selected_run; [done|]. rewrite Hs'. by eexists. }
  unfold step at 1. simpl handle. rewrite handleSelect_rejected by done.
  apply commit_id, reachable_committed, reachable_run. by constructor.
Qed.

(** The theorem at work: in round 0 of the sample session the
    listener picks the left card, plays with the controls, and then
    taps the right card. *)
Lemma selection_is_idempotent_witness :
  step (Select Right 4000)
    (run [TogglePlay Left; ResultTimer] Sample.decided)
  = run [TogglePlay Left; ResultTimer] Sample.decided.
Proof.
  refine (proj2 (proj2 (selection_is_idempotent Left 2600 Sample.started _ _ _))
            [TogglePlay Left; ResultTimer] Right 4000%Z _).
  - apply reach_step, reach_initial.
  - reflexivity.
  - vm_compute. by eexists.
  - vm_compute. auto.
Defined.

(** *** The fallback's swap and resume *)



(** *** Play requests and their resolutions *)

Lemma last_call_log_call (s s' : Side) (c : Call) (g : Game) :
  last_call s (log_call s' c g) = if decide (s' = s) then Some c else last_call s g.
Proof. unfold last_call. simpl. case_bool_decide; case_decide; done. Qed.

Lemma last_call_calls (s : Side) (g g' : Game) :
  calls g' = calls g -> last_call s g' = last_call s g.
Proof. unfold last_call. by intros ->. Qed.

Lemma pending_ok_nil (n : nat) (lc : option Call) (a : Audio) :
  pendingPlay a = [] -> pending_ok n lc a.
Proof.
  intros Hnil. split; [done|]. intros id Hid. rewrite Hnil in Hid.
  by apply elem_of_nil in Hid.
Qed.

Lemma pending_ok_el_pause (n : nat) (lc lc' : option Call) (a : Audio) :
  pending_ok n lc a -> pending_ok n lc' (el_pause a).
Proof.
  intros [Hp _]. apply pending_ok_nil. unfold el_pause.
  destruct (paused a); [by apply Hp|done].
Qed.

(** A change that leaves the request id and the history alone, and
    gives every element either no pending promise or the ones it had. *)
Lemma promises_ok_frame (g g' : Game) :
  playRequestId g' = playRequestId g -> calls g' = calls g ->
  (forall s a', audio (chan g' s) = Some a' ->
     pendingPlay a' = []
     \/ exists a, audio (chan g s) = Some a /\ pendingPlay a' = pendingPlay a
          /\ (paused a' = true -> paused a = true)) ->
  promises_ok g -> promises_ok g'.
Proof.
  intros Hid Hcalls Hel Hok s a' Ha'.
  rewrite Hid, (last_call_calls s g g' Hcalls).
  destruct (Hel s a' Ha') as [Hnil|(a & Ha & Hpend & Hpaused)];
    [by apply pending_ok_nil|].
  destruct (Hok s a Ha) as [Hp Hids]. split.
  - intros Hpa. rewrite Hpend. auto.
  - intros id Hin. rewrite Hpend in Hin. auto.
Qed.

(** A pause intent on one side: logged, and the element paused. *)
Lemma promises_ok_paused (s : Side) (g g' : Game) :
  playRequestId g' = playRequestId g ->
  calls g' = (s, CallPause) :: calls g ->
  audio (chan g' s) = el_pause <$> audio (chan g s) ->
  audio (chan g' (other_side s)) = audio (chan g (other_side s)) ->
  promises_ok g -> promises_ok g'.
Proof.
  intros Hid Hcalls Hs Ho Hok s' a' Ha'. rewrite Hid.
  destruct (decide (s' = s)) as [->|Hne].
  - rewrite Hs in Ha'. destruct (audio (chan g s)) as [a|] eqn:Ha; [|done].
    simpl in Ha'. injection Ha' as <-.
    by apply (pending_ok_el_pause _ (last_call s g)), Hok.
  - assert (s' = other_side s) as -> by (by destruct s, s').
    rewrite Ho in Ha'.
    replace (last_call (other_side s) g') with (last_call (other_side s) g).
    + by apply Hok.
    + unfold last_call. rewrite Hcalls. simpl.
      rewrite bool_decide_eq_false_2; [done|]. by destruct s.
Qed.

Lemma promises_ok_stop_side (s : Side) (g : Game) :
  promises_ok g -> promises_ok (stop_side s g).
Proof.
  apply (promises_ok_paused s); unfold stop_side; by destruct s.
Qed.

Lemma promises_ok_reset_side (s : Side) (g : Game) :
  promises_ok g -> promises_ok (reset_side s g).
Proof.
  apply (promises_ok_paused s); unfold reset_side; by destruct s.
Qed.

(** A play request: the new id is above every pending one, and it is
    now the last intent on its side. *)
Lemma promises_ok_start_play (s : Side) (g : Game) :
  promises_ok g -> promises_ok (start_play s g).
Proof.
  intros Hok s' a' Ha'. unfold start_play in *.
  rewrite last_call_log_call.
  replace (playRequestId (log_call _ _ _)) with (S (playRequestId g))
    by (by destruct s).
  destruct (decide (s = s')) as [<-|Hne].
  - destruct (audio (chan g s)) as [a|] eqn:Ha;
      [|destruct s; simpl in *; rewrite Ha in Ha'; done].
    assert (a' = el_play_request (S (playRequestId g)) a) as ->.
    { destruct s; simpl in *; rewrite Ha in Ha'; simpl in Ha'; congruence. }
    destruct (Hok s a Ha) as [_ Hids]. split; [done|].
    intros id Hin. simpl in Hin. apply elem_of_app in Hin as [Hin|Hin].
    + destruct (Hids id Hin) as [Hle _]. split; lia.
    + apply list_elem_of_singleton in Hin as ->. split; [lia|done].
  - assert (Ha : audio (chan g s') = Some a') by (by destruct s, s').
    destruct (Hok s' a' Ha) as [Hp Hids]. split; [done|].
    intros id Hin. destruct (Hids id Hin) as [Hle _]. split; lia.
Qed.

(** Closes the element condition of [promises_ok_frame] once the
    handler is opened. *)
Ltac frame_elements :=
  repeat match goal with
  | H : Some _ = Some _ |- _ => injection H as <-
  | H : _ <$> ?o = Some _ |- _ => destruct o eqn:?; simpl in H; [|done]
  end;
  first [ by left
        | right; eexists; split; [first [eassumption|reflexivity]|by split]
        | done ].

(** A handler that issues no play or pause intent. *)
Ltac frame_handler g :=
  apply (promises_ok_frame g);
    [ try (open_handler; done) | try (open_handler; done)
    | let s := fresh "s" in let a' := fresh "a" in
      intros s a'; open_handler; intros; frame_elements
    | done ].

Lemma promises_ok_handle (e : Event) (g : Game) :
  promises_ok g -> promises_ok (handle e g).
Proof.
  intros Hok. destruct e.
  - frame_handler g.
  - (* TogglePlay *)
    unfold handle, togglePlay. case_bool_decide; [done|].
    destruct (audio (chan g side)) as [a|]; [|by apply promises_ok_stop_side].
    destruct (paused a); [|by apply promises_ok_stop_side].
    by apply promises_ok_start_play, promises_ok_stop_side.
  - (* Replay *)
    unfold handle, replay. case_bool_decide; [done|].
    match goal with
    | |- promises_ok (upd_chan _ _ ?g2) =>
        assert (Hg2 : promises_ok g2);
        [|apply (promises_ok_frame g2); [by destruct side..| |done]]
    end.
    + destruct (audio (chan (stop_side (other_side side) g) side));
        [apply promises_ok_start_play|]; by apply promises_ok_stop_side.
    + intros s a'. destruct side, s; simpl; intros; frame_elements.
  - (* Select *)
    unfold handle, handleSelect.
    destruct (bool_decide (is_Some (selected g)) || transitioning g); [done|].
    destruct (round g) as [r|]; [|done].
    apply (promises_ok_frame (stopAll g)); [done..| |].
    + intros s a'. destruct s; simpl; intros; frame_elements.
    + by apply promises_ok_stop_side, promises_ok_stop_side.
  - frame_handler g.
  - frame_handler g.
  - frame_handler g.
  - frame_handler g.
  - frame_handler g.
  - frame_handler g.
  - (* AudioError *)
    unfold handle.
    destruct (handleAudioError_cases side g)
      as [[-> _]|(_ & _ & _ & t & -> & _)]; [done|].
    apply (promises_ok_frame g); [by destruct side..| |done].
    intros s a'. destruct side, s; simpl; intros; frame_elements.
  - frame_handler g.
  - frame_handler g.
  - frame_handler g.
  - frame_handler g.
  - (* ResultTimer *)
    unfold handle, resultTimer. destruct (resultTimers g) as [|[cr res] rest]; [done|].
    apply (promises_ok_frame g); [done..| |done].
    intros s a'. destruct s; simpl; intros; frame_elements.
  - (* AdvanceTimer *)
    unfold handle, advanceTimer. destruct (advanceTimers g); [done|].
    apply (promises_ok_frame g); [done..| |done].
    intros s a'. destruct s; simpl; intros; frame_elements.
Qed.

Lemma promises_ok_commit (prev g : Game) :
  promises_ok g -> promises_ok (commit prev g).
Proof.
  intros Hok. unfold commit.
  assert (Hrender : promises_ok (render prev g)).
  { apply (promises_ok_frame g); [by destruct g..| |done].
    intros s a'. rewrite chan_render. unfold reconcile.
    destruct (mounted g); [|done].
    destruct (audio (chan g s)) as [a|] eqn:Ha; [case_decide|];
      simpl; rewrite ?Ha; intros; frame_elements. }
  assert (Hround : promises_ok (roundChangeEffect prev (render prev g))).
  { unfold roundChangeEffect. case_decide; [done|].
    by apply promises_ok_reset_side, promises_ok_reset_side. }
  unfold fallbackResetEffect. case_decide; [done|].
  match goal with
  | |- promises_ok (upd_chan _ _ (upd_chan _ _ ?g1)) =>
      apply (promises_ok_frame g1); [done..| |done]
  end.
  intros s a'. destruct s; simpl; intros; frame_elements.
Qed.

Lemma reachable_promises_ok (g : Game) : reachable g -> promises_ok g.
Proof.
  induction 1 as [now|e g _ IH].
  - intros s a. by destruct s.
  - by apply promises_ok_commit, promises_ok_handle.
Qed.

Lemma playing_commit (prev g : Game) (s : Side) :
  currentRound prev = currentRound g ->
  playing (chan (commit prev g) s) = playing (chan g s).
Proof.
  intros Hcr. unfold commit.
  rewrite chan_fallbackResetEffect, chan_roundChangeEffect, chan_render.
  replace (currentRound (render prev g)) with (currentRound g)
    by (by destruct g).
  rewrite (decide_True (P := currentRound prev = currentRound g)) by done.
  case_decide; simpl; apply retries_reconcile.
Qed.

(** The token check by itself, whatever the element does: the
    continuation of any request but the newest changes nothing. *)
Lemma then_callback_stale (side : Side) (id : nat) (g : Game) :
  id <> playRequestId g -> then_callback side id g = g.
Proof.
  intros Hne. unfold then_callback.
  destruct (playRequestId g =? id)%nat eqn:Heq; [|done].
  apply Nat.eqb_eq in Heq. congruence.
Qed.

(** *** States that play and await no more than others *)

Ltac sub_list :=
  let x := fresh "x" in
  let Hx := fresh "Hx" in
  intros x Hx; simpl in *;
  first [ exact Hx | by apply elem_of_nil in Hx | auto ].

Lemma quieter_refl (g : Game) : quieter g g.
Proof. split; [done|]. intros s. split; [done|]. split; sub_list. Qed.

Lemma quieter_trans (g1 g2 g3 : Game) :
  quieter g1 g2 -> quieter g2 g3 -> quieter g1 g3.
Proof.
  intros [Hid1 H1] [Hid2 H2]. split; [congruence|]. intros s.
  destruct (H1 s) as (Hp1 & Hs1 & Ha1), (H2 s) as (Hp2 & Hs2 & Ha2).
  split; [auto|]. split; intros x Hx; auto.
Qed.

(** Two states whose channels play, hold and queue the same. *)
Lemma quieter_same (g' g : Game) :
  playRequestId g' = playRequestId g ->
  (forall s, playing (chan g' s) = playing (chan g s)
     /\ audio (chan g' s) = audio (chan g s)
     /\ resolving (chan g' s) = resolving (chan g s)) ->
  quieter g' g.
Proof.
  intros Hid Hsame. split; [done|]. intros s.
  destruct (Hsame s) as (Hp & Ha & Hr). unfold awaiting, pend.
  rewrite Hp, Ha, Hr. split; [done|]. split; sub_list.
Qed.

(** An update of one channel that starts nothing and leaves the queue
    alone. *)
Lemma quieter_upd_chan (s : Side) (f : Channel -> Channel) (g : Game) :
  (playing (f (chan g s)) = true -> playing (chan g s) = true) ->
  default [] (pendingPlay <$> audio (f (chan g s))) ⊆ pend g s ->
  resolving (f (chan g s)) = resolving (chan g s) ->
  quieter (upd_chan s f g) g.
Proof.
  intros Hp Hs Hr. split; [by destruct s|]. intros s'. unfold awaiting, pend in *.
  rewrite chan_upd_chan. case_decide as Heq; [subst s'|].
  - split; [done|]. split; [done|]. rewrite Hr. intros x Hx.
    apply elem_of_app in Hx as [Hx|Hx]; apply elem_of_app; auto.
  - split; [done|]. split; sub_list.
Qed.

Lemma pend_el_pause (c : Channel) :
  default [] (pendingPlay <$> audio (on_audio el_pause c))
    ⊆ default [] (pendingPlay <$> audio c).
Proof.
  destruct c as [? ? ? ? ? [a|] ?]; simpl; [|sub_list].
  unfold el_pause. destruct (paused a); simpl; sub_list.
Qed.

Lemma pend_on_audio (f : Audio -> Audio) (c : Channel) :
  (forall a, pendingPlay (f a) ⊆ pendingPlay a) ->
  default [] (pendingPlay <$> audio (on_audio f c))
    ⊆ default [] (pendingPlay <$> audio c).
Proof. intros Hf. destruct c as [? ? ? ? ? [a|] ?]; simpl; [apply Hf|done]. Qed.

Lemma quieter_log_call (s : Side) (c : Call) (g : Game) :
  quieter (log_call s c g) g.
Proof. apply quieter_same; [done|]. by intros [|]. Qed.

Lemma quieter_set_attempts (l : list Attempt) (g : Game) :
  quieter (set_attempts l g) g.
Proof. apply quieter_same; [done|]. by intros [|]. Qed.

Lemma quieter_stop_side (s : Side) (g : Game) : quieter (stop_side s g) g.
Proof.
  unfold stop_side. eapply quieter_trans; [apply quieter_log_call|].
  apply quieter_upd_chan; [done| |done]. simpl. apply pend_el_pause.
Qed.

Lemma quieter_reset_side (s : Side) (g : Game) : quieter (reset_side s g) g.
Proof.
  unfold reset_side. eapply quieter_trans; [apply quieter_log_call|].
  apply quieter_upd_chan; [done| |done]. simpl. apply pend_el_pause.
Qed.

Lemma quieter_commit (prev g : Game) : quieter (commit prev g) g.
Proof.
  unfold commit.
  assert (Hrec : forall s g0, quieter (upd_chan s (reconcile prev g s) g0) g0).
  { intros s g0. apply quieter_upd_chan.
    - unfold reconcile. destruct (mounted g); [|done].
      destruct (audio (chan g0 s)); [case_decide|]; done.
    - unfold reconcile, pend. destruct (mounted g); [|simpl; sub_list].
      destruct (audio (chan g0 s)) as [a|] eqn:Ha; [|simpl; sub_list].
      case_decide; [by rewrite Ha|simpl; sub_list].
    - unfold reconcile. destruct (mounted g); [|done].
      destruct (audio (chan g0 s)); [case_decide|]; done. }
  eapply quieter_trans; [|eapply quieter_trans; [|eapply quieter_trans]].
  - unfold fallbackResetEffect. case_decide; [apply quieter_refl|].
    eapply quieter_trans; apply quieter_upd_chan; try done; sub_list.
  - unfold roundChangeEffect. case_decide; [apply quieter_refl|].
    eapply quieter_trans; apply quieter_reset_side.
  - unfold render. apply Hrec.
  - apply Hrec.
Qed.

Lemma quieter_finish (k : nat) (s : Side) (g : Game) : quieter (finish k s g) g.
Proof.
  unfold finish. eapply quieter_trans; [apply quieter_set_attempts|].
  apply quieter_upd_chan; [done|sub_list|done].
Qed.

Lemma quieter_abandon (k : nat) (s : Side) (g : Game) : quieter (abandon k s g) g.
Proof.
  unfold abandon. eapply quieter_trans; [apply quieter_finish|].
  apply quieter_upd_chan; [done|sub_list|done].
Qed.

(** The element takes its pending promises: they await as before,
    now out of the element's list. *)
Lemma quieter_playTaken (s : Side) (g : Game) : quieter (playTaken s g) g.
Proof.
  unfold playTaken.
  destruct (audio (chan g s)) as [a|] eqn:Ha; [|apply quieter_refl].
  destruct (paused a); [apply quieter_refl|].
  destruct (pendingPlay a) as [|id ids] eqn:Hp; [apply quieter_refl|].
  split; [by destruct s|]. intros s'. unfold awaiting, pend.
  rewrite chan_upd_chan. case_decide as Heq; [subst s'|].
  - simpl. rewrite Ha. simpl. split; [done|]. split; [sub_list|].
    rewrite Hp, concat_app. simpl. rewrite app_nil_r.
    intros x Hx. apply (elem_of_app (id :: ids)).
    apply elem_of_app in Hx as [Hx|Hx]; auto.
  - split; [done|]. split; sub_list.
Qed.

(** Every handler but [togglePlay], [replay], the [then] callbacks
    and the fallback's resumption only stops things. *)
Lemma quieter_handle (e : Event) (g : Game) :
  match e with
  | TogglePlay _ | Replay _ | PlayResolved _ | ResumeSettled _ true => True
  | _ => quieter (handle e g) g
  end.
Proof.
  destruct e as [rs|side|side|side now|side|side|side|side|side|side|side
                |k res|k|k|k ok| |now]; try done.
  - (* RoundsLoaded *)
    unfold handle, roundsLoaded. destruct (loading g); [|apply quieter_refl].
    apply quieter_same; [done|]. by intros [|].
  - (* Select *)
    unfold handle, handleSelect.
    destruct (_ || _); [apply quieter_refl|].
    destruct (round g); [|apply quieter_refl].
    eapply quieter_trans;
      [|unfold stopAll; eapply quieter_trans; apply quieter_stop_side].
    apply quieter_same; [done|]. by intros [|].
  - (* PlayTaken *)
    apply quieter_playTaken.
  - (* PlayRejected *)
    apply quieter_upd_chan; [done| |done].
    apply pend_on_audio. intros a. sub_list.
  - (* Ended *)
    apply quieter_upd_chan; [done| |done].
    apply pend_on_audio. intros a. sub_list.
  - apply quieter_upd_chan; [done|sub_list|done].
  - apply quieter_upd_chan; [done|sub_list|done].
  - (* AudioError *)
    change (handle (AudioError side) g) with (handleAudioError side g).
    destruct (handleAudioError_cases side g) as [[-> _]|(_ & _ & _ & t & -> & _)];
      [apply quieter_refl|].
    eapply quieter_trans; [apply quieter_set_attempts|].
    apply quieter_upd_chan; [done|sub_list|done].
  - (* FetchSettled *)
    unfold handle, fetchSettled.
    destruct (attempts g !! k) as [t|]; [|apply quieter_refl].
    destruct (at_phase t); try apply quieter_refl.
    destruct res as [| |[filePath|]]; try apply quieter_abandon.
    destruct (Js.is_empty filePath); [apply quieter_abandon|].
    destruct (audio (chan g (at_side t))) as [a|] eqn:Ha; [|apply quieter_finish].
    assert (Hswap : quieter
      (upd_chan (at_side t) (set_audio (Some (swap_source filePath a))) g) g).
    { apply quieter_upd_chan; [done|sub_list|done]. }
    destruct (at_wasPlaying t).
    + eapply quieter_trans; [apply quieter_set_attempts|exact Hswap].
    + eapply quieter_trans; [apply quieter_finish|exact Hswap].
  - (* ReadyResolved *)
    unfold handle, readyResolved.
    destruct (attempts g !! k) as [t|]; [|apply quieter_refl].
    destruct (at_phase t); try apply quieter_refl.
    eapply quieter_trans; [apply quieter_set_attempts|].
    apply quieter_upd_chan; [done| |done].
    apply pend_on_audio. intros a. sub_list.
  - (* ReadyRejected *)
    unfold handle, readyRejected.
    destruct (attempts g !! k) as [t|]; [|apply quieter_refl].
    destruct (at_phase t); try apply quieter_refl. apply quieter_abandon.
  - (* ResumeSettled *)
    destruct ok; [done|]. unfold handle, resumeSettled.
    destruct (attempts g !! k) as [t|]; [|apply quieter_refl].
    destruct (at_phase t); try apply quieter_refl. apply quieter_abandon.
  - (* ResultTimer *)
    unfold handle, resultTimer. destruct (resultTimers g) as [|[c r] rest];
      [apply quieter_refl|].
    apply quieter_same; [done|]. by intros [|].
  - (* AdvanceTimer *)
    unfold handle, advanceTimer. destruct (advanceTimers g);
      [apply quieter_refl|].
    apply quieter_same; [done|]. by intros [|].
Qed.

(** A queued task that runs leaves fewer promises awaiting. *)
Lemma awaiting_playResolved (side s : Side) (g : Game) :
  playRequestId (playResolved side g) = playRequestId g
  /\ calls (playResolved side g) = calls g
  /\ audio (chan (playResolved side g) s) = audio (chan g s)
  /\ awaiting (playResolved side g) s ⊆ awaiting g s.
Proof.
  rewrite playResolved_unfold.
  destruct (resolving (chan g side)) as [|ids rest] eqn:Hq; [by repeat split|].
  assert (Hrest : awaiting (upd_chan side (set_resolving rest) g) s ⊆ awaiting g s).
  { unfold awaiting. rewrite chan_upd_chan. case_decide as Heq; [subst s|done].
    simpl. rewrite Hq. simpl. intros x Hx.
    apply elem_of_app in Hx as [Hx|Hx]; apply elem_of_app; [by left|right].
    apply elem_of_app. by right. }
  destruct (existsb _ ids).
  - split; [by destruct side|]. split; [by destruct side|].
    split; [by destruct side, s|].
    intros x Hx. apply Hrest. revert Hx. unfold awaiting.
    by destruct side, s.
  - split; [by destruct side|]. split; [by destruct side|].
    split; [by destruct side, s|done].
Qed.

(** *** The token of a play request *)

Lemma last_play_calls (g g' : Game) :
  calls g' = calls g -> last_play g' = last_play g.
Proof. unfold last_play. by intros ->. Qed.

Lemma last_play_pause (s : Side) (g g' : Game) :
  calls g' = (s, CallPause) :: calls g -> last_play g' = last_play g.
Proof. unfold last_play. by intros ->. Qed.

(** Only [togglePlay] and [replay] make play requests. *)
Lemma last_play_handle (e : Event) (g : Game) :
  match e with
  | TogglePlay _ | Replay _ => True
  | _ => last_play (handle e g) = last_play g
  end.
Proof.
  destruct e as [rs|side|side|side now|side|side|side|side|side|side|side
                |k res|k|k|k ok| |now]; try done;
    try (apply last_play_calls; open_handler; done).
  - unfold last_play, handle, handleSelect.
    destruct (_ || _); [done|]. by destruct (round g).
Qed.

Lemma last_play_commit (prev g : Game) : last_play (commit prev g) = last_play g.
Proof.
  unfold commit.
  assert (Hrender : calls (render prev g) = calls g) by done.
  assert (Hfb : forall g0, calls (fallbackResetEffect prev g0) = calls g0).
  { intros g0. unfold fallbackResetEffect. by case_decide. }
  unfold last_play. rewrite Hfb. unfold roundChangeEffect.
  case_decide; [by rewrite Hrender|].
  change (calls (reset_side Right (reset_side Left (render prev g))))
    with ((Right, CallPause) :: (Left, CallPause) :: calls g).
  done.
Qed.

Lemma tokens_ok_frame (g g' : Game) :
  playRequestId g' = playRequestId g -> last_play g' = last_play g ->
  (forall s, awaiting g' s ⊆ awaiting g s) ->
  tokens_ok g -> tokens_ok g'.
Proof.
  intros Hid Hlast Hsub Hok s id Hin. rewrite Hid, Hlast.
  apply Hok. by apply Hsub.
Qed.

Lemma tokens_ok_quieter (g g' : Game) :
  quieter g' g -> last_play g' = last_play g -> tokens_ok g -> tokens_ok g'.
Proof.
  intros [Hid Hq] Hlast. apply tokens_ok_frame; [done..|].
  intros s. by destruct (Hq s) as (_ & _ & Ha).
Qed.

Lemma tokens_ok_stop_side (s : Side) (g : Game) :
  tokens_ok g -> tokens_ok (stop_side s g).
Proof.
  apply tokens_ok_quieter; [apply quieter_stop_side|].
  apply (last_play_pause s). by destruct s.
Qed.

(** A play request: the new token is above every awaiting one, and it
    is the most recent play request. *)
Lemma tokens_ok_start_play (s : Side) (g : Game) :
  tokens_ok g -> tokens_ok (start_play s g).
Proof.
  intros Hok s' id Hin.
  assert (Hid : playRequestId (start_play s g) = S (playRequestId g))
    by (by destruct s).
  assert (Hlast : last_play (start_play s g)
                  = Some (s, CallPlay (S (playRequestId g)))) by done.
  rewrite Hid, Hlast.
  assert (Hold : id ∈ awaiting g s' \/ (id = S (playRequestId g) /\ s' = s)).
  { revert Hin. unfold awaiting, start_play.
    destruct s, s'; simpl; try (by left);
      (destruct (audio _) as [a|]; simpl; [|by left]);
      rewrite !elem_of_app, list_elem_of_singleton; intros [[?|?]|?]; auto. }
  destruct Hold as [Hold|[-> ->]]; [|split; [lia|done]].
  destruct (Hok s' id Hold) as [Hle _]. split; lia.
Qed.

Lemma tokens_ok_handle (e : Event) (g : Game) :
  tokens_ok g -> tokens_ok (handle e g).
Proof.
  intros Hok.
  pose proof (quieter_handle e g) as Hq. pose proof (last_play_handle e g) as Hl.
  destruct e as [rs|side|side|side now|side|side|side|side|side|side|side
                |k res|k|k|k [|]| |now];
    try (by apply (tokens_ok_quieter g)).
  - (* TogglePlay *)
    unfold handle, togglePlay. case_bool_decide; [done|].
    destruct (audio (chan g side)) as [a|]; [|by apply tokens_ok_stop_side].
    destruct (paused a); [|by apply tokens_ok_stop_side].
    by apply tokens_ok_start_play, tokens_ok_stop_side.
  - (* Replay *)
    unfold handle, replay. case_bool_decide; [done|]. cbv zeta.
    match goal with
    | |- tokens_ok (upd_chan _ _ ?g2) =>
        apply (tokens_ok_quieter g2);
          [apply quieter_upd_chan; [done|sub_list|done]|by destruct side|]
    end.
    destruct (audio (chan (stop_side (other_side side) g) side));
      [apply tokens_ok_start_play|]; by apply tokens_ok_stop_side.
  - (* PlayResolved *)
    apply (tokens_ok_frame g); [..|done].
    + apply awaiting_playResolved. exact Left.
    + exact Hl.
    + intros s. apply awaiting_playResolved.
  - (* ResumeSettled, resolved *)
    unfold handle, resumeSettled.
    destruct (attempts g !! k) as [t|]; [|done].
    destruct (at_phase t); try done.
    apply (tokens_ok_quieter (upd_chan (at_side t) (set_playing true) g));
      [apply quieter_finish|by destruct (at_side t)|].
    apply (tokens_ok_frame g); [by destruct (at_side t)..| |done].
    intros s. unfold awaiting. by destruct (at_side t), s.
Qed.

Lemma reachable_tokens_ok (g : Game) : reachable g -> tokens_ok g.
Proof.
  induction 1 as [now|e g _ IH].
  - intros s id Hin. destruct s; by apply elem_of_nil in Hin.
  - apply (tokens_ok_quieter (handle e g));
      [apply quieter_commit|apply last_play_commit|by apply tokens_ok_handle].
Qed.

Lemma token_logged_frame (g g' : Game) :
  playRequestId g' = playRequestId g -> last_play g' = last_play g ->
  token_logged g -> token_logged g'.
Proof. intros Hid Hlast Hok s id. rewrite Hid, Hlast. apply Hok. Qed.

Lemma token_logged_stop_side (s : Side) (g : Game) :
  token_logged g -> token_logged (stop_side s g).
Proof.
  apply token_logged_frame; [by destruct s|].
  apply (last_play_pause s). by destruct s.
Qed.

Lemma token_logged_start_play (s : Side) (g : Game) :
  token_logged (start_play s g).
Proof.
  intros s' id.
  replace (last_play (start_play s g))
    with (Some (s, CallPlay (S (playRequestId g)))) by done.
  intros [= _ <-]. by destruct s.
Qed.

Lemma token_logged_handle (e : Event) (g : Game) :
  token_logged g -> token_logged (handle e g).
Proof.
  intros Hok.
  pose proof (quieter_handle e g) as Hq. pose proof (last_play_handle e g) as Hl.
  destruct e as [rs|side|side|side now|side|side|side|side|side|side|side
                |k res|k|k|k [|]| |now];
    try (by apply (token_logged_frame g); [apply Hq|..]).
  - (* TogglePlay *)
    unfold handle, togglePlay. case_bool_decide; [done|].
    destruct (audio (chan g side)) as [a|]; [|by apply token_logged_stop_side].
    destruct (paused a); [|by apply token_logged_stop_side].
    apply token_logged_start_play.
  - (* Replay *)
    unfold handle, replay. case_bool_decide; [done|]. cbv zeta.
    match goal with
    | |- token_logged (upd_chan _ _ ?g2) =>
        apply (token_logged_frame g2); [by destruct side..|]
    end.
    destruct (audio (chan (stop_side (other_side side) g) side));
      [apply token_logged_start_play|by apply token_logged_stop_side].
  - (* PlayResolved *)
    apply (token_logged_frame g); [|done..].
    apply awaiting_playResolved. exact Left.
  - (* ResumeSettled, resolved *)
    apply (token_logged_frame g); [|done..].
    unfold handle, resumeSettled.
    destruct (attempts g !! k) as [t|]; [|done].
    destruct (at_phase t); try done. by destruct (at_side t).
Qed.

Lemma reachable_token_logged (g : Game) : reachable g -> token_logged g.
Proof.
  induction 1 as [now|e g _ IH]; [done|].
  apply (token_logged_frame (handle e g));
    [apply quieter_commit|apply last_play_commit|by apply token_logged_handle].
Qed.

(** C1, as amended.  In every state the component can reach, for every
    play request of [togglePlay] or [replay] that still awaits its
    resolution on a channel: its resolution is applied, flagging the
    channel as playing, if it is the most recent play request made on
    either channel, and it is dropped, the state staying as it is, if
    a newer play request has superseded it; indeed any play request
    made from here on, on either channel, makes the resolution of
    every request now awaiting a dropped one.  So when a queued
    resolution runs, the channel's playing flag moves only if the
    most recent play request is on this channel and among those
    awaiting, and the other channel's flag does not move at all.  A
    pause is not a request of that kind: it leaves the token as it is
    and the most recent play request the most recent, and it takes
    nothing out of the queue of resolutions. *)
Theorem stale_play_resolution_dropped (g : Game) (side : Side) :
  reachable g ->
  (forall id, id ∈ awaiting g side ->
     (last_play g = Some (side, CallPlay id) ->
        then_callback side id g = upd_chan side (set_playing true) g)
     /\ (last_play g <> Some (side, CallPlay id) -> then_callback side id g = g)
     /\ forall s', then_callback side id (start_play s' g) = start_play s' g)
  /\ (playing (chan (step (PlayResolved side) g) side) <> playing (chan g side) ->
      exists id, id ∈ awaiting g side /\ last_play g = Some (side, CallPlay id))
  /\ playing (chan (step (PlayResolved side) g) (other_side side))
       = playing (chan g (other_side side))
  /\ (forall s, playRequestId (stop_side s g) = playRequestId g
        /\ last_play (stop_side s g) = last_play g
        /\ forall s', resolving (chan (stop_side s g) s') = resolving (chan g s')).
Proof.
  intros Hr. pose proof (reachable_tokens_ok g Hr side) as Hids.
  assert (Hround : currentRound g = currentRound (handle (PlayResolved side) g)).
  { simpl. rewrite playResolved_unfold.
    destruct (resolving (chan g side)); [done|].
    destruct (existsb _ _); by destruct side. }
  split; [|split; [|split]].
  - intros id Hin. destruct (Hids id Hin) as [Hle Hcur].
    unfold then_callback. split; [|split].
    + intros Hlast. rewrite (reachable_token_logged g Hr side id Hlast).
      by rewrite Nat.eqb_refl.
    + destruct (playRequestId g =? id)%nat eqn:Heq; [|done].
      apply Nat.eqb_eq in Heq. intros Hne. destruct Hne. auto.
    + intros s'.
      replace (playRequestId (start_play s' g)) with (S (playRequestId g))
        by (by destruct s').
      destruct (S (playRequestId g) =? id)%nat eqn:Heq; [|done].
      apply Nat.eqb_eq in Heq. lia.
  - unfold step. rewrite playing_commit by done.
    simpl. rewrite playResolved_unfold.
    destruct (resolving (chan g side)) as [|ids rest] eqn:Hq; [done|].
    destruct (existsb (Nat.eqb (playRequestId g)) ids) eqn:Hex.
    + intros _. apply existsb_exists in Hex as (id & Hin & Heq).
      apply Nat.eqb_eq in Heq. apply list_elem_of_In in Hin.
      assert (Haw : id ∈ awaiting g side).
      { unfold awaiting. rewrite Hq. simpl.
        apply elem_of_app. right. apply elem_of_app. by left. }
      exists id. split; [done|]. by apply (Hids id Haw).
    + intros Hne. destruct Hne. by destruct side.
  - unfold step. rewrite playing_commit by done.
    simpl. rewrite playResolved_unfold.
    destruct (resolving (chan g side)); [done|].
    destruct (existsb _ _); by destruct side.
  - intros s. split; [by destruct s|]. split; [by destruct s|].
    intros s'. by destruct s, s'.
Qed.

(** The theorem at work: of the two pending replays of the sample, the
    resolution of the first is dropped. *)
Lemma stale_play_resolution_dropped_witness :
  then_callback Left 1 Sample.racing = Sample.racing.
Proof.
  assert (Hr : reachable Sample.racing)
    by apply reachable_run, reach_step, reach_initial.
  assert (Hin : 1 ∈ awaiting Sample.racing Left)
    by (vm_compute; apply list_elem_of_here).
  assert (Hlast : last_play Sample.racing <> Some (Left, CallPlay 1))
    by (vm_compute; discriminate).
  exact (proj1 (proj2 (proj1 (stale_play_resolution_dropped Sample.racing Left Hr)
                         1 Hin)) Hlast).
Defined.

(** C1, as the specification words it, fails for a pause.  The left
    clip is started and its element queues the resolution of the play
    promise; the listener pauses the clip before the resolution runs.
    The pause is the most recent call on the channel and the channel
    is flagged as not playing; the token is still the one of the play
    request, so when the resolution runs it is applied: the channel is
    flagged as playing, over a paused element. *)
Lemma stale_resolution_applied_after_pause :
  let g := run [TogglePlay Left; PlayTaken Left; TogglePlay Left] Sample.started in
  reachable g
  /\ last_call Left g = Some CallPause
  /\ playing (chan g Left) = false
  /\ playing (chan (step (PlayResolved Left) g) Left) = true
  /\ paused <$> audio (chan (step (PlayResolved Left) g) Left) = Some true.
Proof.
  split; [apply reachable_run, reach_step, reach_initial|].
  vm_compute. auto.
Qed.

(** The fallback's own resumption, [await el.play(); setPlaying(true)],
    carries no token at all: paused by the listener while it waits,
    the channel is flagged as playing again when the promise
    resolves. *)
Lemma fallback_resume_applied_after_pause :
  let g := run [ReadyResolved 0; TogglePlay Left]
               (step (FetchSettled 0 (HttpOk (Some "/audio/Real/Obama/b.wav")))
                  Sample.interrupted) in
  reachable g
  /\ last_call Left g = Some CallPause
  /\ playing (chan g Left) = false
  /\ playing (chan (step (ResumeSettled 0 true) g) Left) = true.
Proof.
  split; [apply reachable_run, reach_step, reachable_run, reachable_run, reach_initial|].
  vm_compute. auto.
Qed.

(** What a pause does to a play still pending on the element: it
    does not touch the request id; the element rejects the promises
    of its pending list, whose [catch] continuations change
    nothing. *)
Lemma pause_rejects_pending (s : Side) (g : Game) (a : Audio) :
  audio (chan (stop_side s g) s) = Some a ->
  playRequestId (stop_side s g) = playRequestId g
  /\ (paused <$> audio (chan g s) = Some false -> pendingPlay a = []).
Proof.
  unfold stop_side. destruct s; simpl;
    (destruct (audio _) as [a0|]; simpl; [|done]); intros [= <-];
    (split; [done|]); unfold el_pause; intros [= ->]; done.
Qed.

End GameFacts.

(** * Further properties *)

(** ** More on the Asset Resolver *)

Module ResolverMore.

Import Js Resolver ResolverFacts.

(** With a folder that holds a [.wav] file, the answer names one of
    the candidates. *)
Lemma audio_files_pick fs u celebrity category exclude c names :
  celebrity <> EmptyString ->
  parse_category category = Some c ->
  basePath fs c (basename celebrity) = Some (Dir names) ->
  List.filter is_wav names <> [] ->
  exists picked,
    picked ∈ candidates (List.filter is_wav names) exclude
    /\ audio_files fs u celebrity category exclude
       = Json (file_path c (basename celebrity) picked).
Proof.
  intros Hc Hcat Hdir Hwav. eexists. split;
    [|by apply (audio_files_dir fs u celebrity category exclude c names)].
  apply nth_elem_of, floor_random_lt.
  pose proof (candidates_nonempty _ exclude Hwav) as Hne.
  destruct (candidates _ exclude); [done|simpl; lia].
Qed.

Lemma wav_files_dir fs c celebrity files :
  wav_files fs c celebrity = Some files ->
  exists names, basePath fs c (basename celebrity) = Some (Dir names)
    /\ files = List.filter is_wav names.
Proof.
  unfold wav_files. destruct (basePath fs c (basename celebrity)) as [[|names]|];
    try done. intros [= <-]. by exists names.
Qed.

(** X12. The replacement is not the broken file.  When the folder
    holds a [.wav] file whose name differs from the base name of the
    excluded path, the resolver answers, whatever the random draw,
    with a [.wav] file of the folder whose name differs from it
    too. *)
Theorem replacement_avoids_broken fs u celebrity category e c files f :
  celebrity <> EmptyString ->
  parse_category category = Some c ->
  wav_files fs c celebrity = Some files ->
  e <> EmptyString -> f ∈ files -> f <> basename e ->
  exists picked,
    audio_files fs u celebrity category (Some e)
      = Json (file_path c (basename celebrity) picked)
    /\ picked ∈ files /\ is_wav picked = true /\ picked <> basename e.
Proof.
  intros Hc Hcat Hfiles He Hf Hne.
  destruct (wav_files_dir fs c celebrity files Hfiles) as (names & Hdir & ->).
  destruct (audio_files_pick fs u celebrity category (Some e) c names)
    as (picked & Hin & Hans); [done..| |].
  { intros Hnil. rewrite Hnil in Hf. by apply elem_of_nil in Hf. }
  exists picked. split; [done|].
  pose proof (candidates_incl _ (Some e) picked Hin) as Hfile.
  split; [done|]. split.
  - apply list_elem_of_In, filter_In in Hfile. tauto.
  - intros ->. by apply (candidates_exclude _ e f He Hf Hne).
Qed.

(** The theorem at work: with two real clips in the folder and the
    first one broken, the second is the answer. *)
Lemma replacement_avoids_broken_witness :
  exists picked,
    audio_files SampleTree.fs 7 "Obama" (Some "Real")
      (Some "/audio/Real/Obama/a.wav")
      = Json (file_path Real "Obama" picked)
    /\ picked ∈ ["a.wav"; "b.wav"] /\ is_wav picked = true
    /\ picked <> "a.wav".
Proof.
  apply (replacement_avoids_broken SampleTree.fs 7 "Obama" (Some "Real")
           "/audio/Real/Obama/a.wav" Real ["a.wav"; "b.wav"] "b.wav");
    [discriminate|reflexivity|reflexivity|discriminate| |discriminate].
  apply elem_of_cons. right. apply elem_of_cons. by left.
Defined.

End ResolverMore.

(** ** More on the Preloader *)

Module PreloaderMore.

Import Preloader PreloaderFacts PreloadView.

Lemma discard_all_length (refs : list nat) (objs : list AudioObj) :
  length (discard_all refs objs) = length objs.
Proof.
  revert objs. induction refs as [|j refs IH]; intros objs; [done|].
  unfold discard_all in *. simpl. by rewrite IH, length_alter.
Qed.

(** What the array holds after two creations on an empty array. *)
Lemma buffers_create_twice (n : nat) (s1 s2 : string) (h : Hook) :
  preloadRefs h = [] ->
  buffers (create n s2 (create n s1 h))
    = [Some (mkAudioObj "auto" s1 n); Some (mkAudioObj "auto" s2 n)].
Proof.
  intros Hnil. unfold buffers, create. simpl. rewrite Hnil. simpl.
  rewrite length_app. simpl.
  rewrite lookup_app_l by (rewrite length_app; simpl; lia).
  rewrite lookup_app_r by lia. rewrite Nat.sub_diag. simpl.
  rewrite lookup_app_r by (rewrite length_app; simpl; lia).
  rewrite length_app. simpl.
  by replace (length (objects h) + 1 - (length (objects h) + 1)) with 0 by lia.
Qed.

(** X10. What is preloaded is what the next round plays.  When a round
    exists at index [currentRound + 1], a run of the effect leaves
    exactly two buffers in the array, with [preload = 'auto']: the
    first holds the next round's left clip and the second its right
    clip, the very addresses that the component derives as [leftAudio]
    and [rightAudio] once [currentRound] has moved on; and the effect
    returns its cleanup. *)
Theorem preload_is_next_round (h : Hook) rounds currentRound (next : RoundSetup) :
  rounds !! (currentRound + 1) = Some next ->
  buffers (rerun rounds currentRound h)
    = [Some (mkAudioObj "auto" (sideAudio next Left) (currentRound + 1));
       Some (mkAudioObj "auto" (sideAudio next Right) (currentRound + 1))]
  /\ hasCleanup (rerun rounds currentRound h) = true
  /\ forall g : Game.Game,
       Game.rounds g = rounds -> Game.currentRound g = currentRound + 1 ->
       ((fun o : option AudioObj => src <$> o) <$> buffers (rerun rounds currentRound h))
         = [Some (Game.audioProp g Left); Some (Game.audioProp g Right)].
Proof.
  intros Hnext.
  assert (Hlen : (length rounds <=? currentRound + 1)%nat = false).
  { apply Nat.leb_gt. by apply lookup_lt_Some in Hnext. }
  assert (Hbuf : buffers (rerun rounds currentRound h)
    = [Some (mkAudioObj "auto" (sideAudio next Left) (currentRound + 1));
       Some (mkAudioObj "auto" (sideAudio next Right) (currentRound + 1))]).
  { unfold rerun, effect. rewrite Hlen, Hnext.
    by apply (buffers_create_twice _ _ _ (teardown (cleanup h))). }
  split; [exact Hbuf|]. split.
  - unfold rerun, effect. by rewrite Hlen, Hnext.
  - intros g Hrounds Hcur. rewrite Hbuf. unfold Game.audioProp, Game.round.
    by rewrite Hrounds, Hcur, Hnext.
Qed.

(** The theorem at work: in round 0 of the sample session the clips of
    round 1 are preloaded. *)
Lemma preload_is_next_round_witness :
  exists next,
    Sample.rounds !! 1 = Some next
    /\ buffers (rerun Sample.rounds 0 initial)
       = [Some (mkAudioObj "auto" (sideAudio next Left) 1);
          Some (mkAudioObj "auto" (sideAudio next Right) 1)].
Proof.
  eexists. split; [reflexivity|].
  refine (proj1 (preload_is_next_round initial Sample.rounds 0 _ _)).
  reflexivity.
Defined.

Lemma length_refs_effect rounds currentRound (h : Hook) :
  length (preloadRefs (effect rounds currentRound h)) <= 2.
Proof.
  unfold effect. destruct (_ <=? _)%nat; [simpl; lia|].
  destruct (rounds !! _); simpl; lia.
Qed.

Lemma reachable_refs_le (h : Hook) :
  reachable h -> length (preloadRefs h) <= 2.
Proof.
  induction 1 as [|h rounds cur _ _|h _ IH]; [simpl; lia| |].
  - apply length_refs_effect.
  - unfold cleanup. destruct (hasCleanup h); [simpl; lia|done].
Qed.

(** X11. The preloader holds at most two buffers.  In every state of
    the hook the array has at most two entries, every live buffer is
    one of them, and so any collection of distinct live buffers has
    at most two members, however many rounds have gone by. *)
Theorem preload_at_most_two_live (h : Hook) (l : list nat) :
  reachable h -> NoDup l -> (forall i, i ∈ l -> live h i) ->
  length (preloadRefs h) <= 2
  /\ (forall i, live h i -> i ∈ preloadRefs h)
  /\ length l <= 2.
Proof.
  intros Hr Hnd Hlive.
  pose proof (reachable_refs_le h Hr) as Hle.
  pose proof (reachable_all_referenced h Hr) as Href.
  split; [done|]. split; [exact Href|].
  assert (Hsub : l ⊆+ preloadRefs h).
  { apply NoDup_submseteq; [done|]. intros i Hi. by apply Href, Hlive. }
  apply submseteq_length in Hsub. lia.
Qed.

(** The theorem at work: after three runs of the effect on the sample
    session, the two buffers of the last run are all that lives. *)
Lemma preload_at_most_two_live_witness :
  length (preloadRefs (rerun Sample.rounds 0
                         (rerun Sample.rounds 1 (rerun Sample.rounds 0 initial)))) <= 2.
Proof.
  refine (proj1 (preload_at_most_two_live _ [2; 3] _ _ _)).
  - do 3 apply reach_rerun. apply reach_initial.
  - apply NoDup_cons. split; [|apply NoDup_singleton].
    intros Hin. apply list_elem_of_singleton in Hin. lia.
  - intros i Hi. apply elem_of_cons in Hi as [->|Hi];
      [|apply list_elem_of_singleton in Hi as ->];
      eexists; (split; [vm_compute; reflexivity|done]).
Defined.

End PreloaderMore.

(** ** More on the Game component *)

Module GameMore.

Import Game GameFacts Session.

(** *** The session's bookkeeping *)

Lemma session_core_of_core (g g' : Game) :
  core g = core g' -> session_core g = session_core g'.
Proof.
  intros Hc. unfold core in Hc. injection Hc; intros. unfold session_core.
  repeat match goal with E : _ = _ |- _ => rewrite E; clear E end. done.
Qed.

Lemma session_ok_core (g g' : Game) :
  session_core g = session_core g' -> session_ok g -> session_ok g'.
Proof.
  intros Hc. unfold session_core in Hc. injection Hc; intros.
  unfold session_ok, round in *.
  repeat match goal with E : _ = _ |- _ => rewrite <- E; clear E end. done.
Qed.

(** The events that touch the bookkeeping. *)
Lemma session_core_handle (e : Event) (g : Game) :
  session_core (handle e g) = session_core g
  \/ (exists rs, e = RoundsLoaded rs) \/ (exists s now, e = Select s now)
  \/ e = ResultTimer \/ (exists now, e = AdvanceTimer now).
Proof.
  destruct e; eauto 10;
    try (left; open_handler; done).
Qed.

Lemma session_ok_roundsLoaded (rs : list BackendRound) (g : Game) :
  session_ok g -> session_ok (roundsLoaded rs g).
Proof.
  intros Hok. unfold roundsLoaded.
  destruct (loading g) eqn:Hload; [|exact Hok].
  destruct Hok as (H1 & H2 & H3 & H4 & H5 & H6 & H7 & H8 & H9).
  destruct (H1 Hload) as [Hrounds Hsel].
  unfold session_ok, round in *. simpl. rewrite Hsel in *.
  split; [done|]. split; [by intros [? ?]|]. split; [done|]. split; [done|].
  split; [done|]. split; [done|]. split; [done|]. split.
  - destruct (submissions g) as [|body [|]]; [done| |done].
    destruct H8 as (_ & [? ?] & _). done.
  - intros Hshow. destruct (H9 Hshow) as (? & ? & ? & _). done.
Qed.

Lemma session_ok_handleSelect (side : Side) (now : Z) (g : Game) :
  timers_ok g -> session_ok g -> session_ok (handleSelect side now g).
Proof.
  intros [Hle Hnone] Hok.
  destruct (selected g) as [s0|] eqn:Hsel.
  { rewrite handleSelect_rejected; [done|]. rewrite Hsel. by eexists. }
  destruct (Hnone eq_refl) as (Htr & Hrt & Hat).
  destruct (round g) as [r|] eqn:Hround.
  2:{ unfold handleSelect. rewrite Hsel, Htr, Hround.
      by rewrite bool_decide_eq_false_2 by (by intros [? ?]). }
  destruct Hok as (H1 & H2 & H3 & H4 & H5 & H6 & H7 & H8 & H9).
  assert (Hlt : currentRound g < length (rounds g)).
  { unfold round in Hround. by apply lookup_lt_Some in Hround. }
  rewrite Hsel in H3.
  unfold handleSelect. rewrite Hsel, Htr, Hround.
  rewrite bool_decide_eq_false_2 by (by intros [? ?]).
  unfold session_ok, round in *. simpl. rewrite Hrt, Hat in *. simpl.
  split.
  { intros Hload. destruct (H1 Hload) as [Hnil _]. rewrite Hnil in Hlt.
    simpl in Hlt. lia. }
  split; [done|]. split; [rewrite length_app; simpl; lia|]. split.
  { intros i res Hi. apply lookup_app_Some in Hi as [Hi|[Hge Hi]]; [by apply H4|].
    apply list_lookup_singleton_Some in Hi as [Hz <-]. simpl.
    split; [lia|done]. }
  split; [done|]. split.
  { intros c res Hin. apply list_elem_of_singleton in Hin. by simplify_eq. }
  split; [lia|]. split.
  { destruct (submissions g) as [|body [|]]; [done| |done].
    destruct H8 as (_ & [? ?] & _). congruence. }
  intros _. exists side, r. done.
Qed.

Lemma session_ok_resultTimer (g : Game) :
  timers_ok g -> session_ok g -> session_ok (resultTimer g).
Proof.
  intros [Hle Hnone] Hok. unfold resultTimer.
  destruct (resultTimers g) as [|[c res] rest] eqn:Hrt; [done|].
  destruct Hok as (H1 & H2 & H3 & H4 & H5 & H6 & H7 & H8 & H9).
  rewrite Hrt in *. simpl in Hle.
  assert (rest = [] /\ advanceTimers g = 0) as [-> Hat].
  { destruct rest; simpl in *; [split; [done|lia]|lia]. }
  destruct (H6 c res) as [-> ->]; [by left|].
  destruct (selected g) as [s0|] eqn:Hsel;
    [|by destruct (Hnone eq_refl) as (_ & ? & _)].
  assert (Hsub : submissions g = []).
  { destruct (submissions g) as [|body [|]]; [done| |done].
    by destruct H8 as (_ & _ & ? & _). }
  cbv zeta.
  destruct (TOTAL_ROUNDS <=? currentRound g + 1)%nat eqn:Hlast;
    unfold session_ok, round in *; simpl;
    try rewrite Hsel in *; try rewrite Hsub in *; try rewrite Hat in *.
  - apply Nat.leb_le in Hlast.
    repeat (split; [first [done | by intros ? ? ?%elem_of_nil | lia]|]).
    split; [|done]. repeat split; [by eexists|lia].
  - apply Nat.leb_gt in Hlast.
    repeat (split; [first [done | by intros ? ? ?%elem_of_nil | lia]|]).
    done.
Qed.

Lemma session_ok_advanceTimer (now : Z) (g : Game) :
  timers_ok g -> session_ok g -> session_ok (advanceTimer now g).
Proof.
  intros [Hle Hnone] Hok. unfold advanceTimer.
  destruct (advanceTimers g) as [|n] eqn:Hat; [done|].
  destruct Hok as (H1 & H2 & H3 & H4 & H5 & H6 & H7 & H8 & H9).
  destruct (selected g) as [s0|] eqn:Hsel;
    [|by destruct (Hnone eq_refl) as (_ & _ & ?)].
  assert (n = 0 /\ resultTimers g = []) as [-> Hrt].
  { destruct (resultTimers g); simpl in *; [split; [lia|done]|lia]. }
  assert (Hsub : submissions g = []).
  { destruct (submissions g) as [|body [|]]; [done| |done].
    destruct H8 as (_ & _ & _ & ? & _). congruence. }
  unfold session_ok, round in *. simpl.
  try rewrite Hrt in *; try rewrite Hsub in *.
  split; [intros Hl; by destruct (H1 Hl)|]. split; [by intros [? ?]|].
  split; [lia|]. split; [done|]. split; [lia|].
  split; [by intros ? ? ?%elem_of_nil|]. split; [lia|]. done.
Qed.

Lemma session_ok_handle (e : Event) (g : Game) :
  timers_ok g -> session_ok g -> session_ok (handle e g).
Proof.
  intros Ht Hok.
  destruct (session_core_handle e g)
    as [Hc|[[rs ->]|[(s & now & ->)|[->|[now ->]]]]].
  - by apply (session_ok_core g).
  - by apply session_ok_roundsLoaded.
  - by apply session_ok_handleSelect.
  - by apply session_ok_resultTimer.
  - by apply session_ok_advanceTimer.
Qed.

Lemma reachable_session_ok (g : Game) : reachable g -> session_ok g.
Proof.
  induction 1 as [now|e g Hr IH].
  - unfold session_ok, TOTAL_ROUNDS. simpl.
    repeat split; try done; try lia;
      match goal with H : _ ∈ [] |- _ => by apply elem_of_nil in H end.
  - apply (session_ok_core (handle e g)).
    + apply session_core_of_core. symmetry. apply core_commit.
    + by apply session_ok_handle; [apply reachable_timers_ok|].
Qed.

(** *** The outcome log *)

Lemma roundResults_handle (e : Event) (g : Game) :
  roundResults (handle e g) = roundResults g
  \/ exists s now res, e = Select s now
       /\ roundResults (handle e g) = roundResults g ++ [res]
       /\ userChoice res = s.
Proof.
  destruct (session_core_handle e g)
    as [Hc|[[rs ->]|[(s & now & ->)|[->|[now ->]]]]].
  - left. unfold session_core in Hc. by injection Hc.
  - left. unfold handle, roundsLoaded. by destruct (loading g).
  - unfold handle, handleSelect.
    destruct (bool_decide (is_Some (selected g)) || transitioning g); [by left|].
    destruct (round g); [|by left]. right. by eexists _, _, _.
  - left. unfold handle, resultTimer.
    by destruct (resultTimers g) as [|[c res] rest].
  - left. unfold handle, advanceTimer. by destruct (advanceTimers g).
Qed.

(** X1. The outcome log is append-only and holds one outcome per
    round answered: no event removes or rewrites an outcome, an event
    appends at most one (a selection, with the selected side); in
    every reachable state the [i]-th outcome is numbered [i + 1], its
    [correct] flag is true exactly when the choice is the authentic
    position, and the log has as many outcomes as rounds were
    answered, never more than [TOTAL_ROUNDS]. *)
Theorem outcome_log_append_only (g : Game) :
  reachable g ->
  (forall e, roundResults (step e g) = roundResults g
     \/ exists s now res, e = Select s now
          /\ roundResults (step e g) = roundResults g ++ [res]
          /\ userChoice res = s)
  /\ (forall i res, roundResults g !! i = Some res ->
        roundNum res = i + 1
        /\ (correct res = true <-> userChoice res = rd_realPosition res))
  /\ length (roundResults g)
       = currentRound g + match selected g with Some _ => 1 | None => 0 end
  /\ length (roundResults g) <= TOTAL_ROUNDS.
Proof.
  intros Hr.
  destruct (reachable_session_ok g Hr) as (_ & _ & Hlen & Hnum & Hcr & _).
  split; [|split; [|split]].
  - intros e. unfold step. rewrite roundResults_commit.
    apply roundResults_handle.
  - intros i res Hi. destruct (Hnum i res Hi) as [Hn Hc]. split; [done|].
    rewrite Hc. apply bool_decide_eq_true.
  - done.
  - rewrite Hlen. destruct (selected g); lia.
Qed.

(** The theorem at work: the sample session after its first answer. *)
Lemma outcome_log_append_only_witness :
  length (roundResults Sample.decided) = 1.
Proof.
  destruct (outcome_log_append_only Sample.decided) as (_ & _ & Hlen & _).
  - apply reach_step, reach_step, reach_initial.
  - exact Hlen.
Defined.

(** *** Posting the results *)

(** X2. Results are posted at most once, only after the last of the
    [TOTAL_ROUNDS] rounds is answered, and the body is the whole log:
    exactly [TOTAL_ROUNDS] outcomes, numbered from 1 in order.  So a
    session that was given fewer than [TOTAL_ROUNDS] rounds never
    posts anything. *)
Theorem results_posted_once_complete (g : Game) :
  reachable g ->
  (forall body, body ∈ submissions g ->
     submissions g = [body] /\ body = roundResults g
     /\ length body = TOTAL_ROUNDS
     /\ (forall i res, body !! i = Some res -> roundNum res = i + 1)
     /\ currentRound g + 1 = TOTAL_ROUNDS /\ is_Some (selected g))
  /\ (length (rounds g) < TOTAL_ROUNDS -> submissions g = []).
Proof.
  intros Hr.
  destruct (reachable_session_ok g Hr)
    as (_ & Hsel & Hlen & Hnum & _ & _ & _ & Hsub & _).
  assert (Hone : forall body, body ∈ submissions g ->
            submissions g = [body] /\ body = roundResults g
            /\ currentRound g + 1 = TOTAL_ROUNDS /\ is_Some (selected g)).
  { intros body Hin. destruct (submissions g) as [|b [|]]; [|clear Hlen|done].
    - by apply elem_of_nil in Hin.
    - apply list_elem_of_singleton in Hin as ->.
      by destruct Hsub as (-> & ? & _ & _ & ?). }
  split.
  - intros body Hin. destruct (Hone body Hin) as (H1 & -> & Hlast & Hs).
    repeat split; try done.
    + rewrite Hlen. destruct Hs as [s ->]. lia.
    + intros i res Hi. by destruct (Hnum i res Hi).
  - intros Hshort. destruct (submissions g) as [|b l] eqn:Hs; [done|].
    destruct (Hone b) as (_ & _ & Hlast & Hsome); [by left|].
    specialize (Hsel Hsome). lia.
Qed.

(** The theorem at work: the full sample session posts its ten
    outcomes. *)
Lemma results_posted_once_complete_witness :
  submissions Sample10.finished = [roundResults Sample10.finished]
  /\ length (roundResults Sample10.finished) = 10.
Proof.
  destruct (results_posted_once_complete Sample10.finished) as [Hposted _].
  - apply reachable_run, reach_step, reach_initial.
  - destruct (Hposted (roundResults Sample10.finished)) as (H1 & _ & H2 & _).
    + vm_compute. by left.
    + by split.
Defined.

(** *** What the cards show *)

(** X3. The cards never contradict the outcome.  In every reachable
    state, for the card of either side: the badge REAL is shown
    exactly when the result is on display and the card is the
    authentic position; the badge AI CLONE exactly when the result is
    on display and the card is the one chosen, wrongly; no card shows
    both.  While the result is on display, [isCorrect] (the banner)
    says whether the authentic card was chosen, the chosen card has
    the green ring if it is authentic and the red ring if not, and an
    authentic card that was not chosen has the soft green ring. *)
Theorem result_badges_consistent (g : Game) (r : RoundSetup) (s : Side) :
  reachable g -> round g = Some r ->
  (CardSide.realBadge (CardSide.cardProps g r s) = true
     <-> showResult g = true /\ s = realPosition r)
  /\ (CardSide.cloneBadge (CardSide.cardProps g r s) = true
     <-> showResult g = true /\ selected g = Some s /\ s <> realPosition r)
  /\ CardSide.realBadge (CardSide.cardProps g r s)
     && CardSide.cloneBadge (CardSide.cardProps g r s) = false
  /\ (showResult g = true ->
      (isCorrect g = true <-> selected g = Some (realPosition r))
      /\ CardSide.look (CardSide.cardProps g r s) =
           if decide (selected g = Some s)
           then (if decide (s = realPosition r)
                 then CardSide.GreenRing else CardSide.RedRing)
           else (if decide (s = realPosition r)
                 then CardSide.SoftGreenRing else CardSide.Dimmed)).
Proof.
  intros Hr Hround.
  destruct (reachable_session_ok g Hr) as (_ & _ & _ & _ & _ & _ & _ & _ & Hshow).
  unfold CardSide.realBadge, CardSide.cloneBadge, CardSide.look,
    CardSide.isRightAnswer, CardSide.isSelected, CardSide.cardProps,
    CardSide.round_realPosition.
  simpl.
  destruct (showResult g) eqn:Hs.
  - destruct (Hshow eq_refl) as (side & r' & Hsel & Hr' & Hcor).
    assert (r' = r) as -> by congruence.
    rewrite Hsel, Hcor.
    destruct s, side, (realPosition r); vm_compute;
      repeat split; try done; try (intros; intuition congruence).
  - simpl. rewrite !andb_false_r. simpl.
    repeat split; try done; intros; intuition congruence.
Qed.

(** The theorem at work: in the sample session the left card was
    picked and is authentic; it carries the badge REAL. *)
Lemma result_badges_consistent_witness :
  CardSide.realBadge
    (CardSide.cardProps Sample.decided
       {| celebrity_name := "Obama"; celebrity_photoUrl := Some "/images/Obama.jpg";
          realAudio := "/audio/Real/Obama/a.wav";
          fakeAudio := "/audio/Cloned/Obama/b.wav";
          realPosition := Left |} Left) = true.
Proof.
  destruct (result_badges_consistent Sample.decided
              {| celebrity_name := "Obama"; celebrity_photoUrl := Some "/images/Obama.jpg";
                 realAudio := "/audio/Real/Obama/a.wav";
                 fakeAudio := "/audio/Cloned/Obama/b.wav";
                 realPosition := Left |} Left) as [Hreal _].
  - apply reach_step, reach_step, reach_initial.
  - reflexivity.
  - apply Hreal. split; reflexivity.
Defined.

(** *** Counting replays *)

Lemma replayCount_commit (prev g : Game) (s : Side) :
  replayCount (chan (commit prev g) s) = replayCount (chan g s).
Proof.
  unfold commit.
  rewrite chan_fallbackResetEffect, chan_roundChangeEffect, chan_render.
  unfold reconcile.
  repeat case_decide; simpl; destruct (mounted g); simpl;
    destruct (audio (chan g s)); simpl; try done; by case_decide.
Qed.

Lemma replayCount_handle (e : Event) (g : Game) (s : Side) :
  timers_ok g -> selected g = None -> is_select e = false ->
  selected (handle e g) = None
  /\ replayCount (chan (handle e g) s)
       = replayCount (chan g s) + (if is_replay s e then 1 else 0).
Proof.
  intros [_ Hnone] Hsel Hns. destruct (Hnone Hsel) as (_ & Hrt & Hat).
  destruct e; try done.
  - unfold handle, roundsLoaded. destruct (loading g); simpl; split; try done; lia.
  - open_handler; split; try done; simpl; lia.
  - unfold handle, replay. rewrite Hsel.
    rewrite bool_decide_eq_false_2 by (by intros [? ?]). simpl.
    destruct side, s; simpl;
      repeat match goal with
      | |- context [match ?o with Some _ => _ | None => _ end] =>
          destruct o; simpl
      end; rewrite ?Hsel; split; try done; lia.
  - open_handler; split; try done; simpl; lia.
  - open_handler; split; try done; simpl; lia.
  - open_handler; split; try done; simpl; lia.
  - open_handler; split; try done; simpl; lia.
  - open_handler; split; try done; simpl; lia.
  - open_handler; split; try done; simpl; lia.
  - change (handle (AudioError side) g) with (handleAudioError side g).
    destruct (handleAudioError_cases side g)
      as [[-> _]|(_ & _ & _ & t & -> & _)]; simpl; [split; [done|lia]|].
    destruct side, s; simpl; split; try done; lia.
  - open_handler; split; try done; simpl; lia.
  - open_handler; split; try done; simpl; lia.
  - open_handler; split; try done; simpl; lia.
  - open_handler; split; try done; simpl; lia.
  - unfold handle, resultTimer. rewrite Hrt. simpl. split; [done|lia].
  - unfold handle, advanceTimer. rewrite Hat. simpl. split; [done|lia].
Qed.

Lemma replays_run (es : list Event) (g : Game) :
  reachable g -> selected g = None ->
  Forall (fun e => is_select e = false) es ->
  selected (run es g) = None
  /\ forall s, replayCount (chan (run es g) s)
       = replayCount (chan g s) + replays s es.
Proof.
  revert g. induction es as [|e es IH]; intros g Hr Hsel Hns.
  - split; [done|]. intros s. unfold replays. simpl. lia.
  - apply Forall_cons in Hns as [Hne Hns].
    pose proof (reachable_timers_ok g Hr) as Ht.
    assert (Hsel' : selected (step e g) = None).
    { unfold step. rewrite selected_commit.
      by destruct (replayCount_handle e g Left Ht Hsel Hne). }
    destruct (IH (step e g)) as [IH1 IH2]; [by constructor|done..|].
    change (run (e :: es) g) with (run es (step e g)).
    split; [done|]. intros s. rewrite IH2. unfold step.
    rewrite replayCount_commit.
    destruct (replayCount_handle e g s Ht Hsel Hne) as [_ ->].
    unfold replays. simpl. destruct (is_replay s e); simpl; lia.
Qed.

(** X4. Replays are counted per side and handed to the outcome.  In a
    round open for selection, after any events other than a
    selection, each side's replay counter has grown by the number of
    presses of that side's replay button; the outcome that a
    selection then appends carries the two counters. *)
Theorem replays_counted_per_side (es : list Event) (g : Game) :
  reachable g -> selected g = None ->
  Forall (fun e => is_select e = false) es ->
  (forall s, replayCount (chan (run es g) s)
     = replayCount (chan g s) + replays s es)
  /\ (forall side now, is_Some (round (run es g)) ->
      exists res,
        roundResults (step (Select side now) (run es g))
          = roundResults (run es g) ++ [res]
        /\ replayCountLeft res = replayCount (chan g Left) + replays Left es
        /\ replayCountRight res = replayCount (chan g Right) + replays Right es).
Proof.
  intros Hr Hsel Hns. destruct (replays_run es g Hr Hsel Hns) as [Hsel' Hcount].
  split; [done|]. intros side now [r Hround].
  assert (Hr' : reachable (run es g)) by (by apply reachable_run).
  destruct (reachable_timers_ok _ Hr') as [_ Hnone].
  destruct (Hnone Hsel') as (Htr & _).
  destruct (handleSelect_accepted side now (run es g) r Hsel' Htr Hround)
    as (_ & _ & _ & _ & _ & _ & Hres).
  eexists. unfold step. rewrite roundResults_commit. simpl handle.
  split; [exact Hres|]. simpl.
  split; [apply (Hcount Left)|apply (Hcount Right)].
Qed.

(** The theorem at work: three replays of the left clip, none of the
    right, before the selection. *)
Lemma replays_counted_per_side_witness :
  exists res,
    roundResults
      (step (Select Right 9000)
         (run [Replay Left; PlayResolved Left; Replay Left; Replay Left]
            Sample.started))
    = [res]
    /\ replayCountLeft res = 3 /\ replayCountRight res = 0.
Proof.
  destruct (replays_counted_per_side
              [Replay Left; PlayResolved Left; Replay Left; Replay Left]
              Sample.started) as [_ Hout].
  - apply reach_step, reach_initial.
  - reflexivity.
  - repeat constructor.
  - destruct (Hout Right 9000%Z) as (res & Hres & Hl & Hrc).
    + vm_compute. by eexists.
    + exists res. split; [exact Hres|]. split; [exact Hl|exact Hrc].
Defined.

(** *** The retry budget, counted *)

Lemma reachable_retries_le (g : Game) (s : Side) :
  reachable g -> retries (chan g s) <= MAX_AUDIO_RETRIES.
Proof.
  induction 1 as [now|e g _ IH]; [destruct s; simpl; unfold MAX_AUDIO_RETRIES; lia|].
  unfold step. rewrite retries_commit. case_decide; [|lia].
  destruct (retries_handle e g s) as [->|(_ & Hlt & ->)]; lia.
Qed.

(** A request goes out exactly when the retry counter is raised. *)
Lemma spent_handle (e : Event) (g : Game) (s : Side) :
  (requests s (handle e g) = requests s g
   /\ retries (chan (handle e g) s) = retries (chan g s))
  \/ (exists rq, requests s (handle e g) = requests s g ++ [rq])
     /\ retries (chan (handle e g) s) = retries (chan g s) + 1.
Proof.
  destruct (requests_handle e g s) as [Hreq|(-> & _ & _ & _ & rq & Hreq)].
  - destruct (retries_handle e g s) as [Hret|(-> & _ & Hret)]; [by left|].
    change (handle (AudioError s) g) with (handleAudioError s g) in *.
    destruct (handleAudioError_cases s g)
      as [[Hg _]|(_ & _ & _ & t & Hg & Hside & _)].
    + rewrite Hg in Hret. lia.
    + exfalso. rewrite Hg in Hreq. unfold requests in Hreq. simpl in Hreq.
      rewrite requests_in_snoc, Hside, decide_True in Hreq by done.
      apply (f_equal length) in Hreq. rewrite length_app in Hreq.
      simpl in Hreq. lia.
  - right. split; [by exists rq|].
    destruct (retries_handle (AudioError s) g s) as [Hret|(_ & _ & Hret)]; [|done].
    change (handle (AudioError s) g) with (handleAudioError s g) in *.
    destruct (handleAudioError_cases s g)
      as [[Hg _]|(_ & _ & _ & t & Hg & Hside & _)].
    + rewrite Hg in Hreq. apply (f_equal length) in Hreq.
      rewrite length_app in Hreq. simpl in Hreq. lia.
    + rewrite Hg. by destruct s.
Qed.

Lemma spent_run (side : Side) (es : list Event) (g : Game) :
  keeps assetPair es g ->
  length (requests side (run es g)) + retries (chan g side)
    = length (requests side g) + retries (chan (run es g) side).
Proof.
  revert g. induction es as [|e es IH]; intros g Hkeep; [simpl; lia|].
  destruct Hkeep as [Hpair Hkeep]. specialize (IH (step e g) Hkeep).
  change (run (e :: es) g) with (run es (step e g)).
  assert (Hstep : length (requests side (step e g)) + retries (chan g side)
                  = length (requests side g) + retries (chan (step e g) side)).
  { rewrite assetPair_step in Hpair. unfold step.
    rewrite requests_commit, retries_commit, decide_True by done.
    destruct (spent_handle e g side) as [[-> ->]|[[rq ->] ->]]; [done|].
    rewrite length_app. simpl. lia. }
  lia.
Qed.

(** X5. The retry counter is the number of requests of the round.
    Along any run that keeps the round's asset pair, a channel sends
    exactly as many resolver requests as its retry counter rises; the
    counter never exceeds [MAX_AUDIO_RETRIES], so a channel sends at
    most [MAX_AUDIO_RETRIES] requests per round: at most what is left
    of its budget. *)
Theorem retry_budget_bounds_requests (side : Side) (es : list Event) (g : Game) :
  reachable g -> keeps assetPair es g ->
  retries (chan (run es g) side) <= MAX_AUDIO_RETRIES
  /\ length (requests side (run es g)) + retries (chan g side)
       = length (requests side g) + retries (chan (run es g) side)
  /\ length (requests side (run es g))
       <= length (requests side g)
          + (MAX_AUDIO_RETRIES - retries (chan g side)).
Proof.
  intros Hr Hkeep.
  pose proof (reachable_retries_le (run es g) side (reachable_run es g Hr)) as Hle.
  pose proof (reachable_retries_le g side Hr) as Hle0.
  pose proof (spent_run side es g Hkeep) as Hspent.
  split; [done|]. split; [done|]. lia.
Qed.

(** The theorem at work: five failures of the left clip in round 0 of
    the sample session, each fallback answered with an error, make
    three requests. *)
Lemma retry_budget_bounds_requests_witness :
  length (requests Left
            (run [AudioError Left; FetchSettled 0 FetchThrows;
                  AudioError Left; FetchSettled 1 FetchThrows;
                  AudioError Left; FetchSettled 2 FetchThrows;
                  AudioError Left; AudioError Left] Sample.started)) <= 3.
Proof.
  refine (proj2 (proj2 (retry_budget_bounds_requests Left _ Sample.started _ _))).
  - apply reach_step, reach_initial.
  - vm_compute. auto 20.
Defined.

(** *** Single flight *)

Lemma count_alter {X : Type} (f : X -> bool) (h : X -> X) (k : nat)
    (l : list X) (t : X) :
  l !! k = Some t ->
  length (List.filter f (alter h k l)) + (if f t then 1 else 0)
    = length (List.filter f l) + (if f (h t) then 1 else 0).
Proof.
  revert k. induction l as [|x l IH]; intros k Hk; [done|].
  destruct k as [|k]; simpl in *.
  - injection Hk as ->. destruct (f t), (f (h t)); simpl; lia.
  - specialize (IH k Hk).
    change (list_alter h k l) with (alter h k l).
    destruct (f x); simpl; lia.
Qed.

(** What an event does to the attempts of one side and to its flag:
    nothing; or one attempt starts under a free flag; or an attempt in
    flight goes on; or an attempt in flight ends and frees the flag. *)
Lemma flight_handle (e : Event) (g : Game) (s : Side) :
  (in_flight s (handle e g) = in_flight s g
   /\ fallbackActive (chan (handle e g) s) = fallbackActive (chan g s))
  \/ (fallbackActive (chan g s) = false
      /\ fallbackActive (chan (handle e g) s) = true
      /\ in_flight s (handle e g) = in_flight s g + 1)
  \/ (fallbackActive (chan (handle e g) s) = false
      /\ in_flight s (handle e g) + 1 = in_flight s g).
Proof.
  assert (Hphase : forall k t p c,
    attempts g !! k = Some t -> is_done (at_phase t) = false ->
    in_flight s (set_attempts (alter (set_phase p) k (attempts g)) c)
      + (if decide (at_side t = s) then 1 else 0)
    = in_flight s g
      + (if decide (at_side t = s) then if is_done p then 0 else 1 else 0)).
  { intros k t p c Hk Hnd. unfold in_flight. simpl.
    pose proof (count_alter (flying s) (set_phase p) k (attempts g) t Hk) as Hc.
    assert (Hold : flying s t = bool_decide (at_side t = s))
      by (unfold flying; rewrite Hnd; apply andb_true_r).
    assert (Hnew : flying s (set_phase p t)
                   = bool_decide (at_side t = s) && negb (is_done p)) by done.
    rewrite Hold, Hnew in Hc. clear Hold Hnew.
    destruct (decide (at_side t = s)).
    - rewrite bool_decide_eq_true_2 in Hc by done.
      destruct (is_done p); simpl in Hc; lia.
    - rewrite bool_decide_eq_false_2 in Hc by done. simpl in Hc. lia. }
  destruct e as [| | | | | | | | | |side|k res|k|k|k ok| |];
    try (left; unfold in_flight; open_handler; done).
  - (* AudioError *)
    change (handle (AudioError side) g) with (handleAudioError side g).
    destruct (handleAudioError_cases side g)
      as [[-> _]|(_ & _ & Hact & t & -> & Hside & _ & Hph)]; [by left|].
    unfold in_flight. simpl. rewrite ?attempts_upd_chan.
    rewrite List.filter_app, length_app.
    assert (Hfly : flying s t = bool_decide (side = s)).
    { unfold flying. rewrite Hside, Hph. apply andb_true_r. }
    change (List.filter (flying s) [t]) with (if flying s t then [t] else []).
    rewrite Hfly.
    destruct (decide (side = s)) as [->|Hne].
    + right. left. rewrite bool_decide_eq_true_2 by done.
      split; [done|]. split; [by destruct s|done].
    + left. rewrite bool_decide_eq_false_2 by done. simpl.
      split; [lia|]. by destruct side, s.
  - (* FetchSettled *)
    unfold handle, fetchSettled.
    destruct (attempts g !! k) as [t|] eqn:Hk; [|by left].
    destruct (at_phase t) eqn:Hph; try by left.
    assert (Hnd : is_done (at_phase t) = false) by (by rewrite Hph).
    assert (Hend : forall c,
      attempts c = attempts g ->
      (forall s', s' <> at_side t ->
         fallbackActive (chan c s') = fallbackActive (chan g s')) ->
      (in_flight s (finish k (at_side t) c) = in_flight s g
       /\ fallbackActive (chan (finish k (at_side t) c) s)
            = fallbackActive (chan g s))
      \/ (fallbackActive (chan g s) = false
          /\ fallbackActive (chan (finish k (at_side t) c) s) = true
          /\ in_flight s (finish k (at_side t) c) = in_flight s g + 1)
      \/ (fallbackActive (chan (finish k (at_side t) c) s) = false
          /\ in_flight s (finish k (at_side t) c) + 1 = in_flight s g)).
    { intros c Hatt Hfl. unfold finish.
      rewrite ?attempts_upd_chan, ?Hatt.
      pose proof (Hphase k t Done (upd_chan (at_side t) (set_fallbackActive false) c)
                    Hk Hnd) as Hc. simpl in Hc.
      destruct (decide (at_side t = s)) as [Hs|Hs].
      - right. right. split; [|lia]. rewrite Hs. by destruct s.
      - left. split; [lia|]. rewrite <- (Hfl s) by done.
        by destruct (at_side t), s. }
    destruct res as [| |[filePath|]]; unfold abandon;
      try (apply Hend; [by destruct (at_side t)
                       |intros s' ?; by destruct (at_side t), s']).
    destruct (Js.is_empty filePath);
      [apply Hend; [by destruct (at_side t)
                   |intros s' ?; by destruct (at_side t), s']|].
    destruct (audio (chan g (at_side t))) as [a|]; [|by apply Hend].
    destruct (at_wasPlaying t).
    + left.
      rewrite ?attempts_upd_chan.
      pose proof (Hphase k t AwaitCanPlay
                    (upd_chan (at_side t) (set_audio (Some (swap_source filePath a))) g)
                    Hk Hnd) as Hc. simpl in Hc.
      split; [destruct (decide (at_side t = s)); lia|]. by destruct (at_side t), s.
    + apply Hend; [by destruct (at_side t)
                  |intros s' ?; by destruct (at_side t), s'].
  - (* ReadyResolved *)
    unfold handle, readyResolved.
    destruct (attempts g !! k) as [t|] eqn:Hk; [|by left].
    destruct (at_phase t) eqn:Hph; try by left.
    assert (Hnd : is_done (at_phase t) = false) by (by rewrite Hph).
    left.
    rewrite ?attempts_upd_chan.
    pose proof (Hphase k t AwaitPlay (upd_chan (at_side t) (on_audio el_play) g)
                  Hk Hnd) as Hc. simpl in Hc.
    split; [destruct (decide (at_side t = s)); lia|]. by destruct (at_side t), s.
  - (* ReadyRejected *)
    unfold handle, readyRejected.
    destruct (attempts g !! k) as [t|] eqn:Hk; [|by left].
    destruct (at_phase t) eqn:Hph; try by left.
    assert (Hnd : is_done (at_phase t) = false) by (by rewrite Hph).
    unfold abandon, finish.
    rewrite ?attempts_upd_chan.
    match goal with
    | |- context [set_attempts _ ?c] =>
        pose proof (Hphase k t Done c Hk Hnd) as Hc
    end.
    simpl in Hc. destruct (decide (at_side t = s)) as [Hs|Hs].
    + right. right. split; [|lia]. rewrite Hs. by destruct s.
    + left. split; [lia|]. by destruct (at_side t), s.
  - (* ResumeSettled *)
    unfold handle, resumeSettled.
    destruct (attempts g !! k) as [t|] eqn:Hk; [|by left].
    destruct (at_phase t) eqn:Hph; try by left.
    assert (Hnd : is_done (at_phase t) = false) by (by rewrite Hph).
    destruct ok; unfold abandon, finish;
      rewrite ?attempts_upd_chan;
      match goal with
      | |- context [set_attempts _ ?c] =>
          pose proof (Hphase k t Done c Hk Hnd) as Hc
      end;
      simpl in Hc; destruct (decide (at_side t = s)) as [Hs|Hs];
      [ right; right; split; [|lia]; rewrite Hs; by destruct s
      | left; split; [lia|]; by destruct (at_side t), s
      | right; right; split; [|lia]; rewrite Hs; by destruct s
      | left; split; [lia|]; by destruct (at_side t), s ].
Qed.

Lemma flight_step (e : Event) (g : Game) (s : Side) :
  single_flight_ok s g -> assetPair (step e g) = assetPair g ->
  single_flight_ok s (step e g).
Proof.
  unfold single_flight_ok. intros Hok Hpair.
  rewrite assetPair_step in Hpair.
  assert (Hin : in_flight s (step e g) = in_flight s (handle e g)).
  { unfold in_flight, step. by rewrite attempts_commit. }
  unfold step in *. rewrite Hin, fallbackActive_commit, decide_True by done.
  destruct (flight_handle e g s) as [[-> ->]|[(Hoff & -> & ->)|(-> & Hdown)]];
    [done|by rewrite Hok, Hoff|].
  destruct (fallbackActive (chan g s)); lia.
Qed.

(** X6. One fallback attempt per channel at a time.  From a state
    whose single-flight flag tells the truth, and along any run that
    keeps the round's asset pair, a channel never has two fallback
    attempts in flight, and its flag is set exactly while one is. *)
Theorem fallback_single_flight (side : Side) (es : list Event) (g : Game) :
  single_flight_ok side g -> keeps assetPair es g ->
  in_flight side (run es g) <= 1
  /\ (fallbackActive (chan (run es g) side) = true
      <-> in_flight side (run es g) = 1).
Proof.
  intros Hok Hkeep.
  assert (Hend : single_flight_ok side (run es g)).
  { revert g Hok Hkeep. induction es as [|e es IH]; intros g Hok Hkeep; [done|].
    destruct Hkeep as [Hpair Hkeep].
    change (run (e :: es) g) with (run es (step e g)).
    apply IH; [by apply flight_step|done]. }
  unfold single_flight_ok in Hend.
  destruct (fallbackActive (chan (run es g) side)); rewrite Hend.
  - split; [lia|done].
  - split; [lia|]. split; [done|lia].
Qed.

(** The theorem at work: while the first fallback of the left clip is
    waiting for the resolver, further failures of that clip start
    nothing. *)
Lemma fallback_single_flight_witness :
  in_flight Left
    (run [AudioError Left; AudioError Left; AudioError Left] Sample.started) <= 1.
Proof.
  refine (proj1 (fallback_single_flight Left _ Sample.started _ _)).
  - reflexivity.
  - vm_compute. auto 20.
Defined.

(** *** One clip at a time *)

Lemma exclusive_ok_sub (g' g : Game) :
  playRequestId g' = playRequestId g ->
  (forall s, playing (chan g' s) = true -> playing (chan g s) = true) ->
  (forall s, awaiting g' s ⊆ awaiting g s) ->
  exclusive_ok g -> exclusive_ok g'.
Proof.
  intros Hid Hp Hs (Hab & Hb & Hc).
  split; [|split].
  - destruct (playing (chLeft g')) eqn:HL, (playing (chRight g')) eqn:HR; try done.
    pose proof (Hp Left HL) as H1. pose proof (Hp Right HR) as H2.
    simpl in H1, H2. rewrite H1, H2 in Hab. done.
  - intros s Hin. rewrite Hid in Hin. apply Hs in Hin. specialize (Hb s Hin).
    destruct (playing (chan g' (other_side s))) eqn:Hx; [|done].
    rewrite (Hp _ Hx) in Hb. done.
  - rewrite Hid. intros H1 H2. apply Hc; by apply Hs.
Qed.

Lemma exclusive_ok_quieter (g' g : Game) :
  exclusive_ok g -> quieter g' g -> exclusive_ok g'.
Proof.
  intros Hex [Hid Hq].
  apply (exclusive_ok_sub g' g); [done| | |done];
    intros s; by destruct (Hq s) as (? & ? & ?).
Qed.

Lemma awaiting_le (g : Game) (s : Side) (id : nat) :
  tokens_ok g -> id ∈ awaiting g s -> id <= playRequestId g.
Proof. intros Hok Hin. by destruct (Hok s id Hin). Qed.

(** A new play request on [s], made while the other side is silent. *)
Lemma exclusive_ok_start_play (s : Side) (g : Game) :
  playing (chan g (other_side s)) = false ->
  (forall id, id ∈ awaiting g (other_side s) -> id <= playRequestId g) ->
  exclusive_ok (start_play s g).
Proof.
  intros Hoff Hle.
  assert (Hfresh : S (playRequestId g) ∈ awaiting g (other_side s) -> False).
  { intros Hin. apply Hle in Hin. lia. }
  unfold exclusive_ok, start_play, awaiting in *.
  destruct s; simpl in *.
  - split; [by rewrite Hoff, andb_false_r|]. split; [|auto].
    intros [|]; simpl; [done|]. intros Hin. by destruct (Hfresh Hin).
  - split; [by rewrite Hoff|]. split; [|auto].
    intros [|]; simpl; [|done]. intros Hin. by destruct (Hfresh Hin).
Qed.

Lemma exclusive_ok_stop_then_play (s : Side) (g : Game) :
  tokens_ok g -> exclusive_ok (start_play s (stop_side (other_side s) g)).
Proof.
  intros Hok. destruct (quieter_stop_side (other_side s) g) as [Hid Hq].
  apply exclusive_ok_start_play.
  - by destruct s.
  - intros id Hin. rewrite Hid. destruct (Hq (other_side s)) as (_ & _ & Hsub).
    apply (awaiting_le g (other_side s)); [done|by apply Hsub].
Qed.

Lemma exclusive_ok_togglePlay (s : Side) (g : Game) :
  tokens_ok g -> exclusive_ok g -> exclusive_ok (togglePlay s g).
Proof.
  intros Hok Hex. unfold togglePlay.
  destruct (bool_decide _); [done|].
  destruct (audio (chan g s)) as [a|];
    [destruct (paused a)|];
    [by apply exclusive_ok_stop_then_play
    |apply (exclusive_ok_quieter _ g Hex), quieter_stop_side..].
Qed.

Lemma exclusive_ok_replay (s : Side) (g : Game) :
  tokens_ok g -> exclusive_ok g -> exclusive_ok (replay s g).
Proof.
  intros Hok Hex. unfold replay.
  destruct (bool_decide _); [done|]. cbv zeta.
  match goal with
  | |- exclusive_ok (upd_chan s ?f ?g2) =>
      apply (exclusive_ok_quieter _ g2);
        [|apply quieter_upd_chan; [done|sub_list|done]]
  end.
  destruct (audio (chan (stop_side (other_side s) g) s));
    [by apply exclusive_ok_stop_then_play
    |apply (exclusive_ok_quieter _ g Hex), quieter_stop_side].
Qed.

(** A queued resolution runs: if it carries the current token, its
    side starts to play, and the other side is not playing. *)
Lemma exclusive_ok_playResolved (s : Side) (g : Game) :
  exclusive_ok g -> exclusive_ok (playResolved s g).
Proof.
  intros Hex.
  destruct (awaiting_playResolved s Left g) as (Hid & _ & _ & HsubL).
  destruct (awaiting_playResolved s Right g) as (_ & _ & _ & HsubR).
  assert (Hsub : forall s', awaiting (playResolved s g) s' ⊆ awaiting g s')
    by (by intros [|]).
  clear HsubL HsubR. revert Hid Hsub. rewrite playResolved_unfold.
  destruct (resolving (chan g s)) as [|ids rest] eqn:Hq; [done|].
  destruct (existsb _ _) eqn:Hcur; intros Hid Hsub.
  2:{ apply (exclusive_ok_sub _ g); [done| |done..]. intros s'. by destruct s, s'. }
  apply existsb_exists in Hcur as (id & Hin & Heq).
  apply Nat.eqb_eq in Heq. subst id. apply list_elem_of_In in Hin.
  destruct Hex as (Hab & Hb & Hc).
  assert (Hmine : playRequestId g ∈ awaiting g s).
  { unfold awaiting. rewrite Hq. simpl.
    apply elem_of_app. right. apply elem_of_app. by left. }
  pose proof (Hb s Hmine) as Hoff.
  split; [|split].
  - destruct s; simpl in *; [by rewrite Hoff|by rewrite Hoff].
  - rewrite Hid. intros s' Hx. apply Hsub in Hx.
    destruct s, s'; simpl in *; try done;
      [by destruct (Hc Hmine Hx)|by destruct (Hc Hx Hmine)].
  - rewrite Hid. intros H1 H2. apply Hc; by apply Hsub.
Qed.

Lemma exclusive_ok_step (e : Event) (g : Game) :
  tokens_ok g -> exclusive_ok g -> is_resume e = false ->
  exclusive_ok (step e g).
Proof.
  intros Hok Hex Hres. unfold step.
  apply (exclusive_ok_quieter _ (handle e g)); [|apply quieter_commit].
  pose proof (quieter_handle e g) as Hq.
  destruct e as [rs|side|side|side now|side|side|side|side|side|side|side
                |k res|k|k|k [|]| |now];
    try (by apply (exclusive_ok_quieter _ g)); try done.
  - by apply exclusive_ok_togglePlay.
  - by apply exclusive_ok_replay.
  - by apply exclusive_ok_playResolved.
Qed.

Lemma exclusive_ok_run (es : list Event) (g : Game) :
  reachable g -> exclusive_ok g -> Forall (fun e => is_resume e = false) es ->
  exclusive_ok (run es g).
Proof.
  revert g. induction es as [|e es IH]; intros g Hr Hex Hes; [done|].
  apply Forall_cons in Hes as [He Hes].
  change (run (e :: es) g) with (run es (step e g)).
  apply IH; [by apply reach_step| |done].
  apply exclusive_ok_step; [by apply reachable_tokens_ok|done..].
Qed.

(** X7. One clip at a time.  From the start of the game on, and as
    long as no fallback attempt resumes playback by itself, the two
    [playing] flags are never both set; and the play request that
    [playRequestId] names is pending on one element at most. *)
Theorem one_clip_at_a_time (now : Z) (es : list Event) :
  Forall (fun e => is_resume e = false) es ->
  playing (chLeft (run es (initial now)))
    && playing (chRight (run es (initial now))) = false
  /\ (playRequestId (run es (initial now)) ∈ pend (run es (initial now)) Left ->
      playRequestId (run es (initial now)) ∈ pend (run es (initial now)) Right ->
      False).
Proof.
  intros Hes.
  destruct (exclusive_ok_run es (initial now)) as (Hab & _ & Hc);
    [apply reach_initial| |done|].
  { split; [done|]. split; [by intros [|]|].
    intros Hx. by apply elem_of_nil in Hx. }
  split; [done|]. intros HL HR.
  apply Hc; unfold awaiting; apply elem_of_app; by left.
Qed.

(** The theorem at work: the left clip plays, then the right one is
    started and takes over. *)
Lemma one_clip_at_a_time_witness :
  let g := run [RoundsLoaded Sample.backendRounds;
                TogglePlay Left; PlayTaken Left; PlayResolved Left;
                TogglePlay Right; PlayTaken Right; PlayResolved Right]
             (initial 0) in
  playing (chLeft g) = false /\ playing (chRight g) = true
  /\ playing (chLeft g) && playing (chRight g) = false.
Proof.
  split; [reflexivity|]. split; [reflexivity|].
  refine (proj1 (one_clip_at_a_time 0 _ _)).
  repeat constructor.
Defined.

(** The hypothesis is needed: a fallback attempt that found the left
    clip playing resumes it after the user has started the right
    one, and both flags are set. *)
Example resume_overlaps :
  let g := run [RoundsLoaded Sample.backendRounds;
                TogglePlay Left; PlayTaken Left; PlayResolved Left;
                AudioError Left;
                TogglePlay Right; PlayTaken Right; PlayResolved Right;
                FetchSettled 0 (HttpOk (Some "/audio/x/Real/b.wav"));
                ReadyResolved 0; ResumeSettled 0 true]
             (initial 0) in
  playing (chLeft g) = true /\ playing (chRight g) = true.
Proof. by vm_compute. Qed.

(** *** Silence after the answer *)

Lemma calmer_refl (g : Game) : calmer g g.
Proof. intros s a Ha Hp. by exists a. Qed.

Lemma calmer_trans (g1 g2 g3 : Game) :
  calmer g1 g2 -> calmer g2 g3 -> calmer g1 g3.
Proof.
  intros H1 H2 s a1 Ha1 Hp1. destruct (H1 s a1 Ha1 Hp1) as (a2 & Ha2 & Hp2).
  exact (H2 s a2 Ha2 Hp2).
Qed.

Lemma calmer_upd_chan (s : Side) (f : Channel -> Channel) (g : Game) :
  (forall a', audio (f (chan g s)) = Some a' -> paused a' = false ->
     exists a, audio (chan g s) = Some a /\ paused a = false) ->
  calmer (upd_chan s f g) g.
Proof.
  intros Hf s' a' Ha' Hp'. rewrite chan_upd_chan in Ha'.
  case_decide as Heq; [subst s'; exact (Hf a' Ha' Hp')|by exists a'].
Qed.

(** A channel update that leaves the element alone, or runs one of
    its pausing methods. *)
Lemma calmer_on_audio (s : Side) (f : Channel -> Channel) (h : Audio -> Audio)
    (g : Game) :
  (forall a, paused (h a) = false -> paused a = false) ->
  (forall c, audio (f c) = h <$> audio c) ->
  calmer (upd_chan s f g) g.
Proof.
  intros Hh Hf. apply calmer_upd_chan. intros a' Ha' Hp'. rewrite Hf in Ha'.
  destruct (audio (chan g s)) as [a|]; [|done]. simpl in Ha'.
  injection Ha' as <-. exists a. auto.
Qed.

Lemma calmer_same (g' g : Game) :
  (forall s, audio (chan g' s) = audio (chan g s)) -> calmer g' g.
Proof. intros Hsame s a' Ha' Hp'. rewrite Hsame in Ha'. by exists a'. Qed.

Lemma paused_el_pause (a : Audio) : paused (el_pause a) = true.
Proof. unfold el_pause. by destruct (paused a) eqn:Hp. Qed.

Lemma calmer_stop_side (s : Side) (g : Game) : calmer (stop_side s g) g.
Proof.
  unfold stop_side. eapply calmer_trans; [apply calmer_same; by intros [|]|].
  apply (calmer_on_audio s _ el_pause); [|done].
  intros a. by rewrite paused_el_pause.
Qed.

Lemma calmer_reset_side (s : Side) (g : Game) : calmer (reset_side s g) g.
Proof.
  unfold reset_side. eapply calmer_trans; [apply calmer_same; by intros [|]|].
  apply (calmer_on_audio s _ el_pause); [|done].
  intros a. by rewrite paused_el_pause.
Qed.

Lemma calmer_commit (prev g : Game) : calmer (commit prev g) g.
Proof.
  unfold commit.
  assert (Hrec : forall s g0, calmer (upd_chan s (reconcile prev g s) g0) g0).
  { intros s g0. apply calmer_upd_chan. intros a'. unfold reconcile.
    destruct (mounted g); [|done].
    destruct (audio (chan g0 s)) as [a|] eqn:Ha; [case_decide|]; simpl;
      intros Ha' Hp'; simplify_eq/=; eauto. }
  eapply calmer_trans; [|eapply calmer_trans; [|eapply calmer_trans]].
  - unfold fallbackResetEffect. case_decide; [apply calmer_refl|].
    eapply calmer_trans; apply (calmer_on_audio _ _ id); try done;
      intros c; by destruct c as [? ? ? ? ? [] ?].
  - unfold roundChangeEffect. case_decide; [apply calmer_refl|].
    eapply calmer_trans; apply calmer_reset_side.
  - unfold render. apply Hrec.
  - apply Hrec.
Qed.

Lemma calmer_finish (k : nat) (s : Side) (g : Game) : calmer (finish k s g) g.
Proof.
  unfold finish. eapply calmer_trans; [apply calmer_same; by intros [|]|].
  apply (calmer_on_audio _ _ id); [done|]. intros c. by destruct c as [? ? ? ? ? [] ?].
Qed.

Lemma calmer_abandon (k : nat) (s : Side) (g : Game) : calmer (abandon k s g) g.
Proof.
  unfold abandon. eapply calmer_trans; [apply calmer_finish|].
  apply (calmer_on_audio _ _ id); [done|]. intros c. by destruct c as [? ? ? ? ? [] ?].
Qed.

(** Only [togglePlay], [replay] and the fallback's own [el.play()]
    start an element. *)
Lemma calmer_handle (e : Event) (g : Game) :
  match e with
  | TogglePlay _ | Replay _ | ReadyResolved _ => True
  | _ => calmer (handle e g) g
  end.
Proof.
  destruct e as [rs|side|side|side now|side|side|side|side|side|side|side
                |k res|k|k|k ok| |now]; try done.
  - unfold handle, roundsLoaded. destruct (loading g); [|apply calmer_refl].
    apply calmer_same. by intros [|].
  - unfold handle, handleSelect.
    destruct (_ || _); [apply calmer_refl|].
    destruct (round g); [|apply calmer_refl].
    eapply calmer_trans;
      [|unfold stopAll; eapply calmer_trans; apply calmer_stop_side].
    apply calmer_same. by intros [|].
  - (* PlayTaken *)
    unfold handle, playTaken.
    destruct (audio (chan g side)) as [a|] eqn:Ha; [|apply calmer_refl].
    destruct (paused a); [apply calmer_refl|].
    destruct (pendingPlay a); [apply calmer_refl|].
    by apply (calmer_on_audio _ _ el_settle).
  - (* PlayResolved *)
    apply calmer_same. intros s. apply (awaiting_playResolved side s g).
  - by apply (calmer_on_audio _ _ el_settle).
  - by apply (calmer_on_audio _ _ el_ended).
  - apply (calmer_on_audio _ _ id); [done|]. intros c. by destruct c as [? ? ? ? ? [] ?].
  - apply (calmer_on_audio _ _ id); [done|]. intros c. by destruct c as [? ? ? ? ? [] ?].
  - change (handle (AudioError side) g) with (handleAudioError side g).
    destruct (handleAudioError_cases side g) as [[-> _]|(_ & _ & _ & t & -> & _)];
      [apply calmer_refl|].
    eapply calmer_trans; [apply calmer_same; by intros [|]|].
    apply (calmer_on_audio _ _ id); [done|]. intros c. by destruct c as [? ? ? ? ? [] ?].
  - unfold handle, fetchSettled.
    destruct (attempts g !! k) as [t|]; [|apply calmer_refl].
    destruct (at_phase t); try apply calmer_refl.
    destruct res as [| |[filePath|]]; try apply calmer_abandon.
    destruct (Js.is_empty filePath); [apply calmer_abandon|].
    destruct (audio (chan g (at_side t))) as [a|] eqn:Ha; [|apply calmer_finish].
    assert (Hswap : calmer
      (upd_chan (at_side t) (set_audio (Some (swap_source filePath a))) g) g).
    { apply calmer_upd_chan. simpl. intros a' Ha' Hp'. by simplify_eq/=. }
    destruct (at_wasPlaying t).
    + eapply calmer_trans; [apply calmer_same; by intros [|]|exact Hswap].
    + eapply calmer_trans; [apply calmer_finish|exact Hswap].
  - unfold handle, readyRejected.
    destruct (attempts g !! k) as [t|]; [|apply calmer_refl].
    destruct (at_phase t); try apply calmer_refl. apply calmer_abandon.
  - unfold handle, resumeSettled.
    destruct (attempts g !! k) as [t|]; [|apply calmer_refl].
    destruct (at_phase t); try apply calmer_refl.
    destruct ok; [|apply calmer_abandon].
    eapply calmer_trans; [apply calmer_finish|].
    apply (calmer_on_audio _ _ id); [done|]. intros c. by destruct c as [? ? ? ? ? [] ?].
  - unfold handle, resultTimer. destruct (resultTimers g) as [|[c r] rest];
      [apply calmer_refl|]. apply calmer_same. by intros [|].
  - unfold handle, advanceTimer. destruct (advanceTimers g);
      [apply calmer_refl|]. apply calmer_same. by intros [|].
Qed.

Lemma quiet_quieter (g' g : Game) :
  quiet g -> quieter g' g -> calmer g' g -> quiet g'.
Proof.
  intros Hs [_ Hq] Hc s. destruct (Hs s) as (Hpend & Hel).
  destruct (Hq s) as (_ & Hsub & _). split.
  - rewrite Hpend in Hsub. destruct (pend g' s) as [|x l]; [done|].
    destruct (elem_of_nil x) as [Hnil _]. destruct Hnil. apply Hsub. left.
  - intros a' Ha'. destruct (paused a') eqn:Hpa; [done|].
    destruct (Hc s a' Ha' Hpa) as (a & Ha & Hpa0).
    rewrite (Hel a Ha) in Hpa0. done.
Qed.

Lemma quiet_stopAll (g : Game) : promises_ok g -> quiet (stopAll g).
Proof.
  intros Hok s.
  assert (Hch : chan (stopAll g) s
                = set_playing false (on_audio el_pause (chan g s)))
    by (by destruct s).
  unfold pend. rewrite Hch. simpl.
  destruct (audio (chan g s)) as [a|] eqn:Ha; simpl; [|done].
  destruct (Hok s a Ha) as [Hpaused _].
  split; [|intros a' [= <-]; apply paused_el_pause].
  unfold el_pause. destruct (paused a); [by apply Hpaused|done].
Qed.

(** The selection itself: both sides are stopped; what the elements
    had queued stays queued. *)
Lemma after_answer_select (side : Side) (now : Z) (g : Game) (r : RoundSetup) :
  promises_ok g -> selected g = None -> transitioning g = false ->
  round g = Some r ->
  after_answer g (handleSelect side now g)
  /\ forall s, playing (chan (handleSelect side now g) s) = false.
Proof.
  intros Hok Hsel Htr Hr. unfold handleSelect.
  rewrite Hsel, Htr, Hr. rewrite bool_decide_eq_false_2; [|by intros [? ?]].
  cbv zeta. simpl orb. cbv iota.
  pose proof (quiet_stopAll g Hok) as Hq.
  assert (Hres : forall s, resolving (chan (stopAll g) s) = resolving (chan g s))
    by (by intros [|]).
  split; [|by intros [|]].
  split; [|split; [|split]].
  - intros s. destruct (Hq s) as [Hp Ha]. split; [by destruct s|].
    intros a. by destruct s; apply Ha.
  - done.
  - intros s x Hx. rewrite <- Hres. destruct (Hq s) as [Hp _].
    revert Hx. unfold awaiting. unfold pend in Hp.
    by destruct s; simpl; simpl in Hp; rewrite Hp.
  - by intros [|].
Qed.

Lemma after_answer_quieter (g g' g'' : Game) :
  after_answer g g' -> quieter g'' g' -> calmer g'' g' -> after_answer g g''.
Proof.
  intros (Hq & Hid & Haw & Hpl) Hqu Hc.
  split; [by apply (quiet_quieter g'' g')|].
  destruct Hqu as [Hid' Hqu]. split; [congruence|]. split.
  - intros s x Hx. apply Haw. by apply (Hqu s).
  - intros s Hx. apply Hpl. by apply (Hqu s).
Qed.

(** A queued resolution that runs after the answer. *)
Lemma after_answer_playResolved (g g' : Game) (side : Side) :
  after_answer g g' -> after_answer g (playResolved side g').
Proof.
  intros (Hq & Hid & Haw & Hpl).
  assert (Hsame : forall s,
    playRequestId (playResolved side g') = playRequestId g'
    /\ audio (chan (playResolved side g') s) = audio (chan g' s)
    /\ awaiting (playResolved side g') s ⊆ awaiting g' s).
  { intros s. by destruct (awaiting_playResolved side s g') as (? & _ & ? & ?). }
  split; [|split; [|split]].
  - intros s. destruct (Hsame s) as (_ & Ha & _), (Hq s) as [Hp Hel].
    unfold pend in *. rewrite Ha. done.
  - destruct (Hsame Left) as (-> & _). done.
  - intros s x Hx. apply Haw. by apply (Hsame s).
  - intros s. rewrite playResolved_unfold.
    destruct (resolving (chan g' side)) as [|ids rest] eqn:Hres; [apply Hpl|].
    destruct (existsb _ _) eqn:Hcur.
    + rewrite !chan_upd_chan. case_decide as Heq; [subst s|by apply Hpl].
      intros _. apply existsb_exists in Hcur as (id & Hin & Heq).
      apply Nat.eqb_eq in Heq. subst id. apply list_elem_of_In in Hin.
      rewrite <- Hid. apply Haw. unfold awaiting. rewrite Hres. simpl.
      apply elem_of_app. right. apply elem_of_app. by left.
    + rewrite chan_upd_chan. case_decide as Heq; [subst s|by apply Hpl].
      apply Hpl.
Qed.

Lemma after_answer_handle (e : Event) (g g' : Game) :
  after_answer g g' -> is_Some (selected g') -> is_fallback_play e = false ->
  after_answer g (handle e g').
Proof.
  intros Haft Hsel He.
  pose proof (quieter_handle e g') as Hq. pose proof (calmer_handle e g') as Hc.
  destruct e as [rs|side|side|side now|side|side|side|side|side|side|side
                |k res|k|k|k [|]| |now];
    try done; try (by apply (after_answer_quieter g g')).
  - (* TogglePlay *)
    unfold handle, togglePlay. by rewrite bool_decide_eq_true_2.
  - (* Replay *)
    unfold handle, replay. by rewrite bool_decide_eq_true_2.
  - (* PlayResolved *)
    by apply after_answer_playResolved.
Qed.

Lemma after_answer_run (es : list Event) (g g' : Game) :
  after_answer g g' -> is_Some (selected g') -> keeps currentRound es g' ->
  Forall (fun e => is_fallback_play e = false) es ->
  after_answer g (run es g').
Proof.
  revert g'. induction es as [|e es IH]; intros g' Haft Hsel Hkeep Hes; [done|].
  apply Forall_cons in Hes as [He Hes]. destruct Hkeep as [Hcr Hkeep].
  change (run (e :: es) g') with (run es (step e g')).
  apply IH; [|by apply (selected_run [e] g')|done..].
  unfold step. apply (after_answer_quieter g (handle e g'));
    [by apply after_answer_handle|apply quieter_commit|apply calmer_commit].
Qed.

(** X8. Quiet after the answer.  An accepted selection leaves both
    sides flagged as not playing.  From then on and for the rest of
    the round, as long as no fallback attempt starts playback by
    itself, both elements stay paused with no play promise pending
    ([togglePlay] and [replay] are refused), and the request token
    stays the one it was at the selection: stopping the clips takes
    no new token.  So a side is flagged as playing again only if the
    play request of that token had its resolution already queued by
    the element of that side when the answer was given; that
    resolution, when it runs, passes the token check. *)
Theorem quiet_after_answer (side : Side) (now : Z) (g : Game) (es : list Event) :
  reachable g -> selected g = None -> is_Some (round g) ->
  keeps currentRound es (step (Select side now) g) ->
  Forall (fun e => is_fallback_play e = false) es ->
  (forall s, playing (chan (step (Select side now) g) s) = false)
  /\ quiet (run es (step (Select side now) g))
  /\ playRequestId (run es (step (Select side now) g)) = playRequestId g
  /\ (forall s, playing (chan (run es (step (Select side now) g)) s) = true ->
        playRequestId g ∈ concat (resolving (chan g s))).
Proof.
  intros Hr Hsel [r Hround] Hkeep Hes.
  destruct (reachable_timers_ok g Hr) as [_ Hnone].
  destruct (Hnone Hsel) as (Htr & _).
  destruct (after_answer_select side now g r) as [Haft Hoff];
    [by apply reachable_promises_ok|done..|].
  destruct (handleSelect_accepted side now g r Hsel Htr Hround) as (Hs & _).
  assert (Haft1 : after_answer g (step (Select side now) g)).
  { unfold step. apply (after_answer_quieter g (handle (Select side now) g));
      [exact Haft|apply quieter_commit|apply calmer_commit]. }
  split.
  { intros s. unfold step.
    destruct (quieter_commit g (handle (Select side now) g)) as [_ Hq].
    destruct (Hq s) as (Hp & _).
    destruct (playing (chan (commit g (handle (Select side now) g)) s)); [|done].
    rewrite <- (Hoff s). symmetry. by apply Hp. }
  destruct (after_answer_run es g (step (Select side now) g))
    as (Hq & Hid & _ & Hpl); [done| |done..|done].
  unfold step. rewrite selected_commit. simpl handle. rewrite Hs. by eexists.
Qed.

(** The theorem at work: the left clip is playing when the right card
    is chosen, and the presses that follow start nothing. *)
Lemma quiet_after_answer_witness :
  let g := run [TogglePlay Left; PlayTaken Left; PlayResolved Left] Sample.started in
  let g' := run [TogglePlay Left; Replay Right; PlayResolved Left]
              (step (Select Right 5000) g) in
  playing (chan g Left) = true
  /\ quiet g'
  /\ playRequestId g' = playRequestId g
  /\ (forall s, playing (chan g' s) = true ->
        playRequestId g ∈ concat (resolving (chan g s))).
Proof.
  split; [reflexivity|].
  refine (proj2 (quiet_after_answer Right 5000
    (run [TogglePlay Left; PlayTaken Left; PlayResolved Left] Sample.started)
    [TogglePlay Left; Replay Right; PlayResolved Left] _ _ _ _ _)).
  - apply reachable_run, reach_step, reach_initial.
  - reflexivity.
  - vm_compute. by eexists.
  - vm_compute. auto.
  - repeat constructor.
Defined.

(** The last part cannot be dropped: the left element has queued the
    resolution of its play promise when the right card is chosen; the
    resolution runs after the answer, with the token unchanged, and
    flags the left side as playing over a paused element. *)
Example late_resolution_after_answer :
  let g := run [TogglePlay Left; PlayTaken Left] Sample.started in
  let g' := run [PlayResolved Left] (step (Select Right 5000) g) in
  selected g' = Some Right
  /\ playing (chan g' Left) = true
  /\ paused <$> audio (chan g' Left) = Some true.
Proof. by vm_compute. Qed.

(** *** The next round starts clean *)

(** The channel that the commit after a change of round leaves. *)
Lemma chan_commit_new_round (prev g : Game) (s : Side) :
  currentRound prev <> currentRound g ->
  let c := set_buffering false
             (set_playing false (on_audio el_pause (reconcile prev g s (chan g s)))) in
  chan (commit prev g) s = c \/ chan (commit prev g) s = reset_fallback c.
Proof.
  intros Hcr c. unfold commit. rewrite chan_fallbackResetEffect.
  assert (Hch : chan (roundChangeEffect prev (render prev g)) s = c).
  { rewrite chan_roundChangeEffect, chan_render.
    change (currentRound (render prev g)) with (currentRound g).
    by rewrite decide_False. }
  rewrite Hch. case_decide; auto.
Qed.

(** X9. The next round starts clean.  When the 1500 ms timeout fires,
    the round counter goes up by one, the selection, the result banner
    and the transition are cleared, the clock restarts, no timeout is
    left pending, and on both sides nothing plays or buffers and the
    replay counter is zero; each element is paused with no play
    promise pending, and carries the new clip's address where that
    differs from the old one. *)
Theorem next_round_starts_clean (now : Z) (g : Game) :
  reachable g -> 0 < advanceTimers g ->
  let g' := step (AdvanceTimer now) g in
  currentRound g' = currentRound g + 1
  /\ selected g' = None /\ showResult g' = false /\ transitioning g' = false
  /\ roundStartTime g' = now
  /\ resultTimers g' = [] /\ advanceTimers g' = 0
  /\ roundResults g' = roundResults g
  /\ forall s,
       playing (chan g' s) = false /\ buffering (chan g' s) = false
       /\ replayCount (chan g' s) = 0
       /\ forall a, audio (chan g' s) = Some a ->
            paused a = true /\ pendingPlay a = []
            /\ (audioProp g' s <> audioProp g s -> src a = audioProp g' s).
Proof.
  intros Hr Hadv g'.
  destruct (reachable_timers_ok g Hr) as [Hone _].
  pose proof (reachable_promises_ok g Hr) as Hok.
  destruct (advanceTimers g) as [|n] eqn:Hn; [lia|].
  assert (n = 0 /\ resultTimers g = []) as [-> Hrt].
  { destruct (resultTimers g); simpl in Hone; [split; [lia|done]|lia]. }
  set (g1 := advanceTimer now g).
  assert (Hg' : g' = commit g g1) by done.
  pose proof (core_commit g g1) as Hc. rewrite <- Hg' in Hc.
  assert (Hg1 : core g1
    = (rounds g, loading g, S (currentRound g), None, false, isCorrect g,
       roundResults g, now, false, playRequestId g, attempts g,
       resultTimers g, 0, submissions g)).
  { unfold g1, advanceTimer. by rewrite Hn. }
  rewrite Hg1 in Hc. unfold core in Hc.
  injection Hc as Hrounds Hload Hcur Hsel Hshow _ Hres Hstart Htr _ _ Htim Hat _.
  repeat (split; [first [done | lia | congruence]|]).
  intros s.
  assert (Hcr : currentRound g <> currentRound g1).
  { unfold g1, advanceTimer. rewrite Hn. simpl. lia. }
  assert (Hch1 : chan g1 s = set_replayCount 0 (chan g s)).
  { unfold g1, advanceTimer. rewrite Hn. by destruct s. }
  assert (Hprop : audioProp g' s = audioProp g1 s).
  { unfold audioProp, round. rewrite Hrounds, Hcur.
    unfold g1, advanceTimer. by rewrite Hn. }
  rewrite Hprop.
  assert (Hel : forall c, c = set_buffering false
           (set_playing false (on_audio el_pause (reconcile g g1 s (chan g1 s)))) ->
    playing c = false /\ buffering c = false /\ replayCount c = 0
    /\ forall a, audio c = Some a ->
         paused a = true /\ pendingPlay a = []
         /\ (audioProp g1 s <> audioProp g s -> src a = audioProp g1 s)).
  { intros c ->. rewrite Hch1. split; [done|]. split; [done|].
    unfold reconcile. destruct (mounted g1); [|done].
    simpl. destruct (audio (chan g s)) as [a0|] eqn:Ha0.
    - destruct (decide (audioProp g s = audioProp g1 s)) as [Heq|Hne]; simpl.
      + rewrite Ha0. simpl. split; [done|]. intros a [= <-].
        split; [apply paused_el_pause|]. split; [|congruence].
        destruct (Hok s a0 Ha0) as [Hp _]. unfold el_pause.
        destruct (paused a0); [by apply Hp|done].
      + split; [done|]. by intros a [= <-].
    - split; [done|]. by intros a [= <-]. }
  destruct (chan_commit_new_round g g1 s Hcr) as [Hch|Hch];
    rewrite Hg', Hch; [by apply Hel|].
  destruct (Hel _ eq_refl) as (H1 & H2 & H3 & H4).
  split; [done|]. split; [done|]. split; [done|exact H4].
Qed.

(** The theorem at work: the first round of the sample session is
    answered and its two timeouts fire. *)
Lemma next_round_starts_clean_witness :
  currentRound (step (AdvanceTimer 9000)
                  (run [TogglePlay Left; PlayResolved Left; Select Left 5000;
                        ResultTimer] Sample.started)) = 1.
Proof.
  refine (proj1 (next_round_starts_clean 9000 _ _ _)).
  - apply (reachable_run [_; _; _; _]), reach_step, reach_initial.
  - vm_compute. lia.
Defined.

(** *** The fallback, end to end *)



(** A clip whose name needs percent-encoding is not excluded: the
    path sent for [clip 1.wav] ends in [clip%201.wav], which the
    resolver finds in no folder, and for some draws the failing clip
    comes back. *)
Example encoded_exclude_misses :
  let g := run [RoundsLoaded [SampleTree.spacedRound]] (initial 0) in
  src <$> audio (chan g Left) = Some "/audio/Real/Obama/clip 1.wav"
  /\ (at_request <$> attempts (handleAudioError Left g))
     = [{| rq_celebrity := "Obama"; rq_category := Resolver.Real;
           rq_exclude := Some "/audio/Real/Obama/clip%201.wav" |}]
  /\ Resolver.audio_files SampleTree.spaced 0 "Obama" (Some "Real")
       (Some "/audio/Real/Obama/clip%201.wav")
     = Resolver.Json "/audio/Real/Obama/clip 1.wav".
Proof. by vm_compute. Qed.

(** Encoding the folder's name alone does no harm: the resolver
    compares last segments only. *)
Example encoded_folder_keeps_name :
  Js.url_pathname "/audio/Real/Barack Obama/clip01.wav"
    = "/audio/Real/Barack%20Obama/clip01.wav"
  /\ Js.basename (Js.url_pathname "/audio/Real/Barack Obama/clip01.wav")
     = Js.basename "/audio/Real/Barack Obama/clip01.wav".
Proof. by vm_compute. Qed.

(** *** From the backend's positions to the two cards *)

(** X14. Position A is the left card.  When the rounds arrive, the
    left channel gets the clip the backend sent as [audioA] and the
    right one [audioB], each on a new, paused element; the side that
    the component takes as the real one is the left exactly when the
    backend's [realPosition] is [A], and the clip on that side is the
    one stored as [realAudio], the other one [fakeAudio]. *)
Theorem cards_follow_backend (rs : list BackendRound) (g : Game) (b : BackendRound) :
  reachable g -> loading g = true -> rs !! currentRound g = Some b ->
  let g' := step (RoundsLoaded rs) g in
  audioProp g' Left = audioA b /\ audioProp g' Right = audioB b
  /\ (forall s, audio (chan g' s) = Some (el_new (audioProp g' s)))
  /\ exists r,
       round g' = Some r
       /\ (realPosition r = Left <-> b_realPosition b = A)
       /\ sideAudio r (realPosition r) = realAudio r
       /\ sideAudio r (other_side (realPosition r)) = fakeAudio r
       /\ realAudio r = match b_realPosition b with A => audioA b | B => audioB b end.
Proof.
  intros Hr Hload Hb g'.
  set (g1 := roundsLoaded rs g).
  assert (Hg' : g' = commit g g1) by done.
  assert (Hround : round g1 = Some (mapRound b)).
  { unfold g1, roundsLoaded, round. rewrite Hload. simpl.
    by rewrite list_lookup_fmap, Hb. }
  assert (Hround' : round g' = Some (mapRound b)).
  { rewrite Hg', <- Hround. apply core_round, core_commit. }
  assert (Hprop : forall s, audioProp g' s = sideAudio (mapRound b) s).
  { intros s. unfold audioProp. by rewrite Hround'. }
  assert (Hmounted : mounted g1 = true).
  { unfold mounted. rewrite Hround.
    rewrite bool_decide_eq_true_2 by (by eexists).
    unfold g1, roundsLoaded. by rewrite Hload. }
  assert (Hnone : forall s, audio (chan g1 s) = None).
  { intros s. pose proof (reachable_committed g Hr s) as Hc.
    unfold mounted in Hc. rewrite Hload in Hc. simpl in Hc.
    unfold g1, roundsLoaded. rewrite Hload. by destruct s. }
  assert (Hcur : currentRound g = currentRound g1).
  { unfold g1, roundsLoaded. by rewrite Hload. }
  split; [rewrite Hprop; unfold sideAudio, mapRound; simpl;
          by destruct (b_realPosition b)|].
  split; [rewrite Hprop; unfold sideAudio, mapRound; simpl;
          by destruct (b_realPosition b)|].
  split.
  - intros s. rewrite Hprop, Hg'. unfold commit.
    rewrite chan_fallbackResetEffect, chan_roundChangeEffect.
    change (currentRound (render g g1)) with (currentRound g1).
    destruct (decide (currentRound g = currentRound g1)) as [_|Hne]; [|done].
    rewrite chan_render.
    assert (Hrec : audio (reconcile g g1 s (chan g1 s))
                   = Some (el_new (sideAudio (mapRound b) s))).
    { unfold reconcile. rewrite Hmounted, Hnone. simpl.
      unfold audioProp. by rewrite Hround. }
    case_decide; [done|]. exact Hrec.
  - exists (mapRound b). split; [done|].
    unfold sideAudio, mapRound. simpl.
    destruct (b_realPosition b); simpl; repeat split; done.
Qed.

(** The theorem at work: the sample session arrives. *)
Lemma cards_follow_backend_witness :
  audioProp Sample.started Left = "/audio/Real/Obama/a.wav"
  /\ audioProp Sample.started Right = "/audio/Cloned/Obama/b.wav".
Proof.
  destruct (cards_follow_backend Sample.backendRounds (initial 0)
              (Sample.backendRound 1 "Obama" A))
    as (HL & HR & _); [apply reach_initial|reflexivity|reflexivity|].
  split; [exact HL|exact HR].
Defined.

End GameMore.
(** ** The backend's game routes *)

Module BackendMore.

Import Game GameFacts Session GameMore Backend.

(** *** Starting a game *)

(** A round that [make_round] returns. *)
Lemma make_round_ok (lib : Library) (index : nat) (celebrity : string)
    (d : Draws) (b : BackendRound) :
  make_round lib index celebrity d = inr b ->
  roundNumber b = index + 1 /\ b_celebrity b = celebrity
  /\ exists realNames clonedNames realFile clonedFile,
       Resolver.realBase (tree lib) celebrity = Some (Resolver.Dir realNames)
       /\ Resolver.clonedBase (tree lib) celebrity = Some (Resolver.Dir clonedNames)
       /\ realFile ∈ realNames /\ Resolver.is_wav realFile = true
       /\ clonedFile ∈ clonedNames /\ Resolver.is_wav clonedFile = true
       /\ realAudio (mapRound b) = Resolver.file_path Resolver.Real celebrity realFile
       /\ fakeAudio (mapRound b) = Resolver.file_path Resolver.Cloned celebrity clonedFile.
Proof.
  unfold make_round.
  destruct (Resolver.realBase (tree lib) celebrity) as [[|realNames]|]; try done.
  destruct (Resolver.clonedBase (tree lib) celebrity) as [[|clonedNames]|]; try done.
  destruct (List.filter Resolver.is_wav realNames) as [|r0 rl] eqn:Hreal; [done|].
  destruct (List.filter Resolver.is_wav clonedNames) as [|c0 cl] eqn:Hcloned; [done|].
  cbv zeta. change (is_nil (r0 :: rl) || is_nil (c0 :: cl)) with false. cbv iota.
  intros [= <-]. split; [done|]. split; [done|].
  assert (Hpick : forall u names f l,
            List.filter Resolver.is_wav names = f :: l ->
            let picked := nth (Js.floor_random u (length (f :: l))) (f :: l) EmptyString in
            picked ∈ names /\ Resolver.is_wav picked = true).
  { intros u names f l Hfl picked.
    assert (Hin : picked ∈ f :: l).
    { apply ResolverFacts.nth_elem_of, ResolverFacts.floor_random_lt. simpl. lia. }
    rewrite <- Hfl in Hin. apply list_elem_of_In, filter_In in Hin as [Hin Hwav].
    split; [by apply list_elem_of_In|done]. }
  destruct (Hpick (u_real d) realNames r0 rl Hreal) as [Hr1 Hr2].
  destruct (Hpick (u_cloned d) clonedNames c0 cl Hcloned) as [Hc1 Hc2].
  eexists realNames, clonedNames, _, _.
  split; [done|]. split; [done|].
  split; [exact Hr1|]. split; [exact Hr2|].
  split; [exact Hc1|]. split; [exact Hc2|].
  unfold mapRound. simpl. by destruct (random_gt_half (u_position d)).
Qed.

Lemma make_rounds_ok (lib : Library) (draws : nat -> Draws)
    (celebs : list string) (index : nat) (rs : list BackendRound) :
  make_rounds lib index celebs draws = inr rs ->
  length rs = length celebs
  /\ forall i b, rs !! i = Some b ->
       exists c, celebs !! i = Some c
         /\ make_round lib (index + i) c (draws (index + i)) = inr b.
Proof.
  revert index rs. induction celebs as [|c rest IH]; intros index rs; simpl.
  - intros [= <-]. split; [done|]. by intros i b.
  - destruct (make_round lib index c (draws index)) as [e|r] eqn:Hr; [done|].
    destruct (make_rounds lib (S index) rest draws) as [e|rs'] eqn:Hrs; [done|].
    intros [= <-]. destruct (IH (S index) rs' Hrs) as [Hlen Hall].
    split; [simpl; lia|]. intros [|i] b Hb; simpl in Hb.
    + injection Hb as <-. exists c. split; [done|]. by rewrite Nat.add_0_r.
    + destruct (Hall i b Hb) as (c' & Hc' & Hmk). exists c'. split; [done|].
      by replace (index + S i) with (S index + i) by lia.
Qed.

Section StartGame.

Variable shuffle : list string -> list string.
Hypothesis shuffle_permutes : forall l, shuffle l ≡ₚ l.

Lemma start_game_ok (lib : Library) (draws : nat -> Draws)
    (rs : list BackendRound) (celebs : list string) :
  realRoot lib = Some (Resolver.Dir celebs) ->
  start_game shuffle lib draws = StartOk rs ->
  make_rounds lib 0 (take 10 (shuffle celebs)) draws = inr rs.
Proof.
  intros Hroot. unfold start_game. rewrite Hroot.
  destruct (clonedRoot lib); [|done].
  destruct (make_rounds lib 0 _ draws); [done|]. by intros [= <-].
Qed.

(** X15. The rounds of a new game.  When [start-game] answers with
    rounds, there are as many as the library has celebrities, ten at
    most; they are numbered from one, each is one of the library's
    celebrities, and no celebrity comes twice.  In every round the
    clip that the component stores as [realAudio], and plays on the
    side it takes as the real one, is a [.wav] file of that
    celebrity's folder in the real tree, and [fakeAudio] one of the
    folder in the cloned tree. *)
Theorem start_game_rounds (lib : Library) (draws : nat -> Draws)
    (rs : list BackendRound) (celebs : list string) :
  realRoot lib = Some (Resolver.Dir celebs) ->
  start_game shuffle lib draws = StartOk rs ->
  length rs = Nat.min 10 (length celebs)
  /\ length rs <= TOTAL_ROUNDS
  /\ (NoDup celebs -> NoDup (b_celebrity <$> rs))
  /\ forall i b, rs !! i = Some b ->
       roundNumber b = i + 1 /\ b_celebrity b ∈ celebs
       /\ exists realNames clonedNames realFile clonedFile,
            Resolver.realBase (tree lib) (b_celebrity b)
              = Some (Resolver.Dir realNames)
            /\ Resolver.clonedBase (tree lib) (b_celebrity b)
               = Some (Resolver.Dir clonedNames)
            /\ realFile ∈ realNames /\ Resolver.is_wav realFile = true
            /\ clonedFile ∈ clonedNames /\ Resolver.is_wav clonedFile = true
            /\ realAudio (mapRound b)
               = Resolver.file_path Resolver.Real (b_celebrity b) realFile
            /\ fakeAudio (mapRound b)
               = Resolver.file_path Resolver.Cloned (b_celebrity b) clonedFile
            /\ sideAudio (mapRound b) (realPosition (mapRound b))
               = realAudio (mapRound b).
Proof.
  intros Hroot Hstart.
  pose proof (start_game_ok lib draws rs celebs Hroot Hstart) as Hmk.
  destruct (make_rounds_ok lib draws _ 0 rs Hmk) as [Hlen Hall].
  assert (Hlen' : length rs = Nat.min 10 (length celebs)).
  { rewrite Hlen, length_take. by rewrite (Permutation_length (shuffle_permutes celebs)). }
  assert (Hnames : b_celebrity <$> rs = take 10 (shuffle celebs)).
  { apply list_eq. intros i. rewrite list_lookup_fmap.
    destruct (rs !! i) as [b|] eqn:Hb; simpl.
    - destruct (Hall i b Hb) as (c & Hc & Hround).
      apply make_round_ok in Hround as (_ & -> & _). by rewrite Hc.
    - symmetry. apply lookup_ge_None. rewrite <- Hlen.
      by apply lookup_ge_None. }
  split; [done|]. split; [unfold TOTAL_ROUNDS; lia|]. split.
  - intros Hnd. rewrite Hnames.
    eapply sublist_NoDup; [|apply sublist_take].
    by rewrite (shuffle_permutes celebs).
  - intros i b Hb. destruct (Hall i b Hb) as (c & Hc & Hround).
    apply make_round_ok in Hround
      as (Hnum & Hname & rn & cn & rf & cf & H1 & H2 & H3 & H4 & H5 & H6 & H7 & H8).
    rewrite Hname. split; [done|]. split.
    + apply lookup_take_Some in Hc as [Hc _].
      apply list_elem_of_lookup_2 in Hc. by rewrite (shuffle_permutes celebs) in Hc.
    + exists rn, cn, rf, cf. repeat (split; [done|]).
      unfold sideAudio. by rewrite decide_True.
Qed.

End StartGame.

(** The theorem at work: a library with one celebrity gives a game of
    one round. *)
Lemma start_game_rounds_witness :
  exists rs, start_game reverse SampleLibrary.lib SampleLibrary.draws = StartOk rs
    /\ length rs = 1.
Proof.
  eexists. split; [reflexivity|].
  refine (proj1 (start_game_rounds reverse _ SampleLibrary.lib SampleLibrary.draws
                   _ ["Obama"] _ _)).
  - intros l. apply reverse_Permutation.
  - reflexivity.
  - reflexivity.
Defined.

(** *** Submitting a game *)

Lemma score_of_le (rounds : list RoundData) : score_of rounds <= length rounds.
Proof.
  unfold score_of. induction rounds as [|r rounds IH]; simpl; [lia|].
  destruct (bool_decide (userChoice r = rd_realPosition r)); simpl; lia.
Qed.

(** When each outcome's [correct] flag says whether the choice was
    the real side, the backend's count is the count of the flags. *)
Lemma score_of_flags (rounds : list RoundData) :
  (forall i res, rounds !! i = Some res ->
     correct res = bool_decide (userChoice res = rd_realPosition res)) ->
  score_of rounds = length (List.filter correct rounds).
Proof.
  intros Hflags. unfold score_of. f_equal. apply filter_ext_in.
  intros res Hin. apply list_elem_of_In, list_elem_of_lookup in Hin as [i Hi].
  symmetry. by apply (Hflags i).
Qed.

(** The body that a session posts: all ten outcomes, flags right. *)
Lemma posted_body (g : Game) (body : list RoundData) :
  reachable g -> body ∈ submissions g ->
  length body = TOTAL_ROUNDS
  /\ forall i res, body !! i = Some res ->
       roundNum res = i + 1
       /\ correct res = bool_decide (userChoice res = rd_realPosition res).
Proof.
  intros Hr Hin.
  destruct (reachable_session_ok g Hr)
    as (_ & _ & Hlen & Hflags & _ & _ & _ & Hsub & _).
  destruct (submissions g) as [|body' [|? ?]]; [by apply elem_of_nil in Hin| |done].
  apply list_elem_of_singleton in Hin as ->.
  destruct Hsub as (-> & [side Hsel] & _ & _ & Hlast).
  rewrite Hsel in Hlen. split; [lia|exact Hflags].
Qed.

Lemma higher_scores_snoc (score : nat) (rows : list SessionRow) (row : SessionRow) :
  s_score row = score ->
  List.filter (fun s => (score <? s_score s)%nat) (rows ++ [row])
    = List.filter (fun s => (score <? s_score s)%nat) rows.
Proof.
  intros Hrow. rewrite List.filter_app. simpl.
  rewrite Hrow, Nat.ltb_irrefl. apply app_nil_r.
Qed.

Lemma no_higher_scores (score : nat) (rows : list SessionRow) :
  length (List.filter (fun s => (score <? s_score s)%nat) rows) = 0
  <-> Forall (fun s => s_score s <= score) rows.
Proof.
  induction rows as [|s rows IH]; simpl; [split; [constructor|done]|].
  destruct (score <? s_score s)%nat eqn:Hlt; simpl.
  - apply Nat.ltb_lt in Hlt. split; [lia|].
    intros Hall. apply Forall_cons in Hall as [Hle _]. lia.
  - apply Nat.ltb_ge in Hlt. rewrite IH. split.
    + intros Hall. by apply Forall_cons.
    + intros Hall. by apply Forall_cons in Hall as [_ Hall].
Qed.

(** X16. The score of a submitted game.  The body that the component
    posts after the last round is accepted by [submit-game] whenever a
    user id comes with it and the statistics row exists.  The score
    the backend counts from the choices equals the number of rounds
    the component flagged as correct, and is at most [TOTAL_ROUNDS];
    the rank is one more than the number of stored sessions with a
    higher score, so it is 1 exactly when no stored session scored
    higher; the global high score never goes down and is at least the
    new score; the game counter goes up by one; and the session is
    stored with the replay total that the results page shows. *)
Theorem submitted_score_matches_game (g : Game) (body : list RoundData)
    (db : Db) (uid : string) (st : Stats) :
  reachable g -> body ∈ submissions g ->
  uid <> EmptyString -> global_stats db = Some st ->
  exists db' reply row,
    submit_game db (Some uid) (Some body) = (db', Submitted reply)
    /\ score reply = length (List.filter correct body)
    /\ score reply <= TOTAL_ROUNDS
    /\ leaderboardRank reply
       = length (List.filter (fun s => (score reply <? s_score s)%nat)
                   (game_sessions db)) + 1
    /\ (leaderboardRank reply = 1
        <-> Forall (fun s => s_score s <= score reply) (game_sessions db))
    /\ globalHighScore reply = Nat.max (high_score st) (score reply)
    /\ totalGames reply = total_games st + 1
    /\ game_sessions db' = game_sessions db ++ [row]
    /\ user_id row = uid /\ s_score row = score reply /\ s_rounds row = body
    /\ total_replays row = totalReplays body
    /\ global_stats db'
       = Some {| high_score := globalHighScore reply;
                 total_games := totalGames reply |}.
Proof.
  intros Hr Hin Huid Hstats.
  destruct (posted_body g body Hr Hin) as [Hlen Hflags].
  assert (Hscore : score_of body = length (List.filter correct body)).
  { apply score_of_flags. intros i res Hi. by destruct (Hflags i res Hi). }
  pose proof (score_of_le body) as Hle.
  eexists _, _, _. unfold submit_game.
  destruct (Js.is_empty uid) eqn:Hemp;
    [by apply ResolverFacts.is_empty_true in Hemp|].
  cbv zeta. simpl game_sessions. simpl global_stats. rewrite Hstats.
  split; [reflexivity|]. simpl.
  rewrite (higher_scores_snoc (score_of body)) by done.
  split; [done|]. split; [lia|]. split; [done|]. split.
  - rewrite <- no_higher_scores. lia.
  - split; [destruct (high_score st <? score_of body)%nat eqn:Hlt;
            [apply Nat.ltb_lt in Hlt|apply Nat.ltb_ge in Hlt]; lia|].
    repeat (split; [reflexivity|]). reflexivity.
Qed.

(** The theorem at work: the complete sample session of ten rounds is
    posted to a store that holds one session of six. *)
Lemma submitted_score_matches_game_witness :
  exists db' reply,
    submit_game SampleLibrary.db (Some "u1") (Some (roundResults Sample10.finished))
      = (db', Submitted reply)
    /\ score reply <= TOTAL_ROUNDS.
Proof.
  destruct (submitted_score_matches_game Sample10.finished
              (roundResults Sample10.finished) SampleLibrary.db "u1"
              {| high_score := 6; total_games := 1 |})
    as (db' & reply & row & Hsub & _ & Hle & _).
  - unfold Sample10.finished. apply reachable_run, reach_step, reach_initial.
  - vm_compute. apply elem_of_cons. by left.
  - discriminate.
  - reflexivity.
  - exists db', reply. split; [exact Hsub|exact Hle].
Defined.

End BackendMore.
(** ** The results page *)

Module ResultsMore.

Import Results.

(** Where the count-up stands after [n] periods. *)
Lemma after_spec (score n : nat) :
  current (after score n) = Nat.min n (Nat.max 1 score)
  /\ displayScore (after score n) = Nat.min n (Nat.max 1 score)
  /\ ticking (after score n) = (n <? Nat.max 1 score)%nat.
Proof.
  induction n as [|n (Hcur & Hdisp & Htick)].
  - split; [done|]. split; [done|].
    change (ticking (after score 0)) with true.
    symmetry. apply Nat.ltb_lt. lia.
  - change (after score (S n)) with (tick score (after score n)).
    unfold tick. rewrite Htick, Hcur.
    destruct (n <? Nat.max 1 score)%nat eqn:Hlt; cbn [current displayScore ticking].
    + apply Nat.ltb_lt in Hlt. rewrite Nat.min_l by lia.
      split; [lia|]. split; [lia|].
      destruct (score <=? S n)%nat eqn:Hle; cbn [negb]; symmetry.
      * apply Nat.leb_le in Hle. apply Nat.ltb_ge. lia.
      * apply Nat.leb_gt in Hle. apply Nat.ltb_lt. lia.
    + apply Nat.ltb_ge in Hlt. rewrite Hdisp, Hcur, Htick.
      split; [lia|]. split; [lia|]. symmetry. apply Nat.ltb_ge. lia.
Qed.

(** X17. Where the count-up ends.  The number shown goes up by one
    every period until it reaches the score, but not before it has
    gone to one: it stops after [max 1 score] periods and shows
    [max 1 score] from then on.  So the page ends on the score for
    every score of one or more, and on 1 for a score of zero. *)
Theorem count_up_settles (score n : nat) :
  displayScore (after score n) = Nat.min n (Nat.max 1 score)
  /\ (ticking (after score n) = false <-> Nat.max 1 score <= n)
  /\ (Nat.max 1 score <= n ->
        (displayScore (after score n) = score <-> 1 <= score))
  /\ (1 <= n -> displayScore (after 0 n) = 1).
Proof.
  destruct (after_spec score n) as (_ & Hdisp & Htick).
  destruct (after_spec 0 n) as (_ & Hdisp0 & _).
  split; [done|]. split; [|split].
  - rewrite Htick. split; [intros H; by apply Nat.ltb_ge in H|].
    intros H. by apply Nat.ltb_ge.
  - intros Hn. rewrite Hdisp. lia.
  - intros Hn. rewrite Hdisp0. lia.
Qed.

End ResultsMore.
